(** * Innkeeper quest validation: a shallow embedding of the validation engine

    The development follows the TypeScript sources
      - [src/lib/kraxel-api.ts]         the retrying blockchain Data Client,
      - [src/lib/kraxel-validation.ts]  validator primitives and combinators,
      - [src/lib/db/queries.ts]         the result store operations,
      - [src/lib/quest/validator.ts]    the quest validation runner.

    Asynchronous code is modelled in a state-and-exception monad over a
    [World] that holds the wall clock, the log of network attempts, the
    backoff sleeps and the result store.  Everything the program cannot
    control (upstream answers, store faults, elapsed time, the JavaScript
    builtins [parseFloat] and [Date], the order in which the engine's sort
    leaves elements that its comparator does not order, the row a query
    returns among equally recent ones) is gathered in an [Env] record over
    which the theorems quantify.  Every value that the TypeScript sources
    type as [number] is an IEEE 754 binary64 value. *)

From Stdlib Require Import ZArith String Ascii List Bool Lia Floats Uint63 Sorted.
From stdpp Require Import base option list gmap sets strings pretty.

Set Warnings "-register-all,-clear-no-such-hyp".

Local Open Scope string_scope.
Local Open Scope list_scope.
Local Open Scope Z_scope.

(** ** JavaScript builtins used by the sources *)

Module Js.

(** Strings are byte strings; [trim] strips the ASCII white space and line
    terminators (the code points above 127 that ECMAScript also strips do
    not occur in contract principals and are not modelled). *)
Definition isWhiteSpace (c : ascii) : bool :=
  let n := N_of_ascii c in
  (n =? 32)%N || ((9 <=? n)%N && (n <=? 13)%N).

Fixpoint trimStart (s : string) : string :=
  match s with
  | EmptyString => EmptyString
  | String c r => if isWhiteSpace c then trimStart r else s
  end.

Fixpoint trimEnd (s : string) : string :=
  match s with
  | EmptyString => EmptyString
  | String c r =>
      match trimEnd r with
      | EmptyString => if isWhiteSpace c then EmptyString else String c EmptyString
      | r' => String c r'
      end
  end.

Definition trim (s : string) : string := trimEnd (trimStart s).

Definition lowerChar (c : ascii) : ascii :=
  let n := N_of_ascii c in
  if ((65 <=? n)%N && (n <=? 90)%N)%bool then ascii_of_N (n + 32) else c.

Fixpoint toLowerCase (s : string) : string :=
  match s with
  | EmptyString => EmptyString
  | String c r => String (lowerChar c) (toLowerCase r)
  end.

(** [s.includes(sub)] *)
Fixpoint includes (sub s : string) : bool :=
  match s with
  | EmptyString => String.prefix sub EmptyString
  | String _ r => String.prefix sub s || includes sub r
  end.

(** [s.split(sep)[0]] for a non-empty separator: the part of [s] before the
    first occurrence of [sep], all of [s] when there is none. *)
Fixpoint splitHead (sep s : string) : string :=
  match s with
  | EmptyString => EmptyString
  | String c r => if String.prefix sep s then EmptyString else String c (splitHead sep r)
  end.

(** Truthiness of a string: only the empty string is falsy. *)
Definition truthy (s : string) : bool := negb (String.eqb s "").

(** Numbers are IEEE 754 binary64 values, as in ECMAScript. *)
Definition truthyNum (x : float) : bool :=
  negb (PrimFloat.is_nan x || PrimFloat.is_zero x).

(** [o || 0] for a property read that yields a number or [undefined]. *)
Definition orZero (o : option float) : float :=
  match o with
  | Some p => if truthyNum p then p else PrimFloat.zero
  | None => PrimFloat.zero
  end.

(** [Math.max(x, y)]: NaN when either argument is NaN, and [+0] above [-0]. *)
Definition Math_max (x y : float) : float :=
  if PrimFloat.is_nan x || PrimFloat.is_nan y then PrimFloat.nan
  else if (x <? y)%float then y
  else if (y <? x)%float then x
  else if PrimFloat.get_sign x then y else x.

(** [x >= y] on numbers. *)
Definition geq (x y : float) : bool := (y <=? x)%float.

(** [x > y] on numbers. *)
Definition gt (x y : float) : bool := (y <? x)%float.

(** [x !== y] on numbers: NaN differs from everything, [+0] equals [-0]. *)
Definition strictNeq (x y : float) : bool := negb (x =? y)%float.

(** The sign of [x - y], all that a sort reads of a comparator's result.
    The rounded difference of two numbers has the sign of their exact
    difference; it is NaN, which a sort reads as 0, when one of them is NaN
    or both are the same infinity. *)
Definition signOfDifference (x y : float) : Z :=
  match (x ?= y)%float with
  | FLt => -1
  | FGt => 1
  | FEq | FNotComparable => 0
  end.

(** [len >= n] for an array length [len].  A length is an integer below
    2^32, hence a number without rounding, and the comparison of two numbers
    is that of their exact values: [m * 2^e] for a finite [n]. *)
Definition geqLen (len : nat) (n : float) : bool :=
  match Prim2SF n with
  | S754_nan => false
  | S754_infinity negative => negative
  | S754_zero _ => true
  | S754_finite negative m e =>
      negative
      || (if 0 <=? e then Z.pos m * 2 ^ e <=? Z.of_nat len
          else Z.pos m <=? Z.of_nat len * 2 ^ (- e))
  end.

(** The number that an integer converts to; exact below 2^53 in magnitude. *)
Definition ofZ (z : Z) : float :=
  if z <? 0 then PrimFloat.opp (PrimFloat.of_uint63 (Uint63.of_Z (- z)))
  else PrimFloat.of_uint63 (Uint63.of_Z z).

(** The largest magnitude of a time value, in milliseconds. *)
Definition maxTimeValue : float := 8640000000000000.

(** [new Date(ms)] holds a valid time value: [ms] is finite and within the
    time range. *)
Definition validTime (ms : float) : bool :=
  PrimFloat.is_finite ms && (PrimFloat.abs ms <=? maxTimeValue)%float.

(** The property names that every object made by [JSON.parse] or [{}]
    inherits from [Object.prototype]. *)
Definition Object_prototype : list string :=
  ["constructor"; "__defineGetter__"; "__defineSetter__"; "hasOwnProperty";
   "__lookupGetter__"; "__lookupSetter__"; "isPrototypeOf"; "propertyIsEnumerable";
   "toString"; "valueOf"; "__proto__"; "toLocaleString"].

Definition inherited (key : string) : bool :=
  existsb (String.eqb key) Object_prototype.

(** [obj[key] || 0] as a factor of a product, for an object [obj] whose own
    properties are numbers.  An own property reads as its number, replaced
    by 0 when falsy.  A key that [obj] only inherits reads as a function (or
    as [Object.prototype] itself), which is truthy and is NaN as a number.
    Any other key reads as [undefined], which is falsy. *)
Definition getOrZero (obj : gmap string float) (key : string) : float :=
  match obj !! key with
  | Some p => if truthyNum p then p else PrimFloat.zero
  | None => if inherited key then PrimFloat.nan else PrimFloat.zero
  end.

(** [array.some((x, index, array) => f x index array)] *)
Fixpoint some_from {A} (f : A -> nat -> list A -> bool) (array : list A)
    (index : nat) (rest : list A) : bool :=
  match rest with
  | [] => false
  | x :: rest' => f x index array || some_from f array (S index) rest'
  end.

Definition some {A} (f : A -> nat -> list A -> bool) (array : list A) : bool :=
  some_from f array O array.

(** The order that ECMAScript prescribes for [array.sort(cmp)] when [cmp] is
    a consistent comparator: sorted, and stable.  It is computed by
    insertion.  What an engine does with an inconsistent comparator is its
    own business ([Array_sort] below). *)
Fixpoint sort_insert {A} (cmp : A -> A -> Z) (x : A) (l : list A) : list A :=
  match l with
  | [] => [x]
  | y :: l' => if cmp x y <=? 0 then x :: l else y :: sort_insert cmp x l'
  end.

Definition stableSort {A} (cmp : A -> A -> Z) (l : list A) : list A :=
  foldr (sort_insert cmp) [] l.

(** A [Set<string>] in insertion order: [has] and [add]. *)
Definition Set_has (s : list string) (x : string) : bool :=
  existsb (String.eqb x) s.

Definition Set_add (s : list string) (x : string) : list string :=
  if Set_has s x then s else s ++ [x].

End Js.

(** ** Data model ([src/lib/kraxel-api.ts], lines 11-51) *)

Record SwapDetail := {
  in_asset : string;
  in_amount : string;
  out_asset : string;
  out_amount : string;
  swap_index : float;
  contract_address : string;
}.

(** [tx_id] and [user_address] are strings; an entry that lacks one carries
    the empty string, which is falsy like [undefined]. *)
Record Transaction := {
  tx_id : string;
  user_address : string;
  block_height : float;
  block_time : string;
  swap_details : option (list SwapDetail);
}.

(** [KraxelResponse<T>]; [data] is [None] when the upstream sends [null]. *)
Record KraxelResponse (T : Type) := {
  status : string;
  data : option T;
}.
Arguments status {T} _.
Arguments data {T} _.

(** The [metadata] objects the validators build, one constructor per shape. *)
Inductive Metadata :=
| MetaCombined (leftCount rightCount combinedCount : nat)
| MetaNot (original : option Metadata) (originallyMatched : bool)
| MetaSwappedFor (tokenPrincipal : string) (startTime endTime : float)
    (tokenVariations : list string) (totalFound : nat)
| MetaMinValue (minValueUsd : float) (totalFound : nat)
| MetaNoSwaps (reason token : string)
| MetaBelowValue (reason : string) (minValueUsd : float)
| MetaFirstN (requestedN : float) (actualCount : nat) (tokenPrincipal : string)
    (minValueUsd : float) (buyerAddresses : list string)
| MetaHolds (userAddress token : string) (transferCount : nat)
| MetaNoTransfers (userAddress tokenPrincipal reason : string).

Record ValidationResult := {
  satisfied : bool;
  matches : list Transaction;
  metadata : option Metadata;
}.

(** ** The world outside the program *)

(** A thrown value: an [Error] object with its message, or anything else. *)
Inductive Exn :=
| JsError (message : string)
| NonError.

Record HttpRequest := {
  req_path : string;
  req_query : list (string * string);
}.

Inductive Res (A : Type) :=
| Ok (a : A)
| Throw (e : Exn).
Arguments Ok {A} _.
Arguments Throw {A} _.

(** What one [fetch] attempt yields: a rejection (network failure, abort on
    timeout), or a response with its [ok] flag, status line and the outcome of
    [response.json()]. *)
Inductive FetchOutcome (T : Type) :=
| NetworkError (e : Exn)
| HttpResponse (ok : bool) (code : Z) (statusText : string)
    (body : Res (KraxelResponse T)).
Arguments NetworkError {T} _.
Arguments HttpResponse {T} _ _ _ _.

(** ** Result store schema ([Quest], [QuestValidation],
    [QuestValidationResult] tables) *)

Inductive QuestStatus := Draft | Active | Completed | Archived.

Inductive ValidationStatus := Pending | Success | Failed | Partial.

(** [criteria.params]: every field is optional in the stored JSON. *)
Record CriteriaParams := {
  p_tokenPrincipal : string;
  p_startTime : option float;
  p_endTime : option float;
  p_numUsers : option float;
  p_minValueUsd : option float;
  p_userAddress : option string;
}.

Record Criteria := {
  ctype : string;
  params : CriteriaParams;
}.

Record Quest := {
  quest_id : string;
  title : string;
  quest_status : QuestStatus;
  criteria : Criteria;
}.

Record ValidationData := {
  vd_criteria : Criteria;
  vd_startTime : Z;
}.

Record QuestValidation := {
  v_id : nat;
  v_questId : string;
  v_validatedAt : Z;
  v_status : ValidationStatus;
  v_validationData : ValidationData;
  v_errorMessage : option string;
  v_nextValidationAt : option Z;
  v_validAddresses : list string;
  v_processingTime : Z;
}.

(** [resultData] of a result row, as [processValidationResult] builds it. *)
Record ResultData := {
  rd_tx_id : string;
  rd_block_height : float;
  rd_block_time : string;
  rd_swap_details : option (list SwapDetail);
  rd_metadata : option Metadata;
}.

Record QuestValidationResult := {
  r_id : nat;
  r_validationId : nat;
  r_userAddress : string;
  r_isValid : bool;
  r_resultData : ResultData;
  r_validatedAt : Z;
  r_criteriaType : string;
}.

(** ** What the program does not control *)

Record Env := {
  parseFloat : string -> float;
  Date_getTime : string -> option Z;   (* [new Date(s).getTime()], [None] is NaN *)
  isoFormat : float -> string;         (* [toISOString] of a valid time value *)
  Array_sort :                         (* the engine's [Array.prototype.sort] *)
    (Transaction -> Transaction -> Z) -> list Transaction -> list Transaction;
  fetch_txs : nat -> HttpRequest -> FetchOutcome (list Transaction);
  fetch_prices : nat -> HttpRequest -> FetchOutcome (gmap string float);
  db_fault : nat -> option Exn;        (* the k-th store operation fails *)
  db_pick : nat -> list QuestValidation -> nat;
                                       (* the row that the k-th store operation
                                          returns among equally recent ones *)
  latency : nat -> Z;                  (* time taken by the k-th awaited call *)
}.

(** ** World state and the monad of asynchronous computations *)

Record World := {
  clock : Z;                           (* [Date.now()], milliseconds *)
  net_log : list HttpRequest;          (* every [fetch] attempt, newest first *)
  sleeps : list Z;                     (* backoff delays slept, newest first *)
  db_ops : nat;                        (* store operations issued so far *)
  quests : list Quest;
  validations : list QuestValidation;  (* in insertion order *)
  vresults : list QuestValidationResult;
}.

Definition M (A : Type) : Type := World -> Res A * World.

Definition ret {A} (a : A) : M A := fun w => (Ok a, w).

Definition throw {A} (e : Exn) : M A := fun w => (Throw e, w).

Definition bind {A B} (m : M A) (k : A -> M B) : M B :=
  fun w =>
    match m w with
    | (Ok a, w') => k a w'
    | (Throw e, w') => (Throw e, w')
    end.

(** [try { m } catch (e) { h e }]; effects of [m] before the throw persist. *)
Definition try_catch {A} (m : M A) (h : Exn -> M A) : M A :=
  fun w =>
    match m w with
    | (Ok a, w') => (Ok a, w')
    | (Throw e, w') => h e w'
    end.

Declare Scope js_scope.
Delimit Scope js_scope with js.
Notation "x <- m ;; k" := (bind m (fun x => k))
  (at level 100, m at next level, right associativity) : js_scope.
Notation "m ;;; k" := (bind m (fun _ => k))
  (at level 100, right associativity) : js_scope.
Local Open Scope js_scope.

(** [for (const x of xs) { await f x }] *)
Fixpoint forEachM {A} (f : A -> M unit) (xs : list A) : M unit :=
  match xs with
  | [] => ret tt
  | x :: xs' => f x ;;; forEachM f xs'
  end.

(** [Date.now()] *)
Definition Date_now : M Z := fun w => (Ok (clock w), w).

(** Number of awaited external calls so far; indexes [latency]. *)
Definition ticks (w : World) : nat := (length (net_log w) + db_ops w)%nat.

Definition set_clock (t : Z) (w : World) : World :=
  {| clock := t; net_log := net_log w; sleeps := sleeps w; db_ops := db_ops w;
     quests := quests w; validations := validations w; vresults := vresults w |}.

Definition log_fetch (rq : HttpRequest) (w : World) : World :=
  {| clock := clock w; net_log := rq :: net_log w; sleeps := sleeps w;
     db_ops := db_ops w; quests := quests w; validations := validations w;
     vresults := vresults w |}.

Definition log_sleep (ms : Z) (w : World) : World :=
  {| clock := clock w + ms; net_log := net_log w; sleeps := ms :: sleeps w;
     db_ops := db_ops w; quests := quests w; validations := validations w;
     vresults := vresults w |}.

Definition count_db_op (w : World) : World :=
  {| clock := clock w; net_log := net_log w; sleeps := sleeps w;
     db_ops := S (db_ops w); quests := quests w; validations := validations w;
     vresults := vresults w |}.

Definition set_validations (vs : list QuestValidation) (w : World) : World :=
  {| clock := clock w; net_log := net_log w; sleeps := sleeps w; db_ops := db_ops w;
     quests := quests w; validations := vs; vresults := vresults w |}.

Definition set_vresults (rs : list QuestValidationResult) (w : World) : World :=
  {| clock := clock w; net_log := net_log w; sleeps := sleeps w; db_ops := db_ops w;
     quests := quests w; validations := validations w; vresults := rs |}.

(** [await new Promise(resolve => setTimeout(resolve, ms))] *)
Definition sleep (ms : Z) : M unit := fun w => (Ok tt, log_sleep ms w).

(** ** The Data Client ([src/lib/kraxel-api.ts]) *)

Record KraxelConfig := {
  apiUrl : string;
  apiKey : string;
  maxRetries : nat;
  defaultTimeout : Z;
}.

Definition DEFAULT_CONFIG : KraxelConfig :=
  {| apiUrl := "http://165.232.68.81:8000";
     apiKey := "";
     maxRetries := 3;
     defaultTimeout := 10000 |}.

Section DataClient.

Variable E : Env.

(** One [fetch] followed by the [response.ok] test and [response.json()]
    (lines 132-147).  The attempt is logged and takes [latency] time.  The
    abort signal of the request timeout is part of the upstream's answer:
    the oracle may reject any attempt. *)
Definition fetch_attempt {T} (oracle : nat -> HttpRequest -> FetchOutcome T)
    (rq : HttpRequest) : M (KraxelResponse T) :=
  fun w =>
    let w1 := log_fetch rq (set_clock (clock w + latency E (ticks w)) w) in
    match oracle (length (net_log w)) rq with
    | NetworkError e => (Throw e, w1)
    | HttpResponse ok code statusText body =>
        if ok then
          match body with
          | Ok d => (Ok d, w1)
          | Throw e => (Throw e, w1)
          end
        else
          (Throw (JsError ("API request failed: " +:+ pretty code +:+ " " +:+ statusText)), w1)
    end.

(** The retry loop of [request] (lines 130-157).  [remaining] is
    [maxRetries - attempts], so the loop condition [attempts < maxRetries]
    is [remaining <> 0]. *)
Fixpoint request_loop {T} (cfg : KraxelConfig)
    (oracle : nat -> HttpRequest -> FetchOutcome T) (rq : HttpRequest)
    (remaining attempts : nat) : M (KraxelResponse T) :=
  match remaining with
  | O => throw (JsError "Maximum retries reached")
  | S remaining' =>
      try_catch (fetch_attempt oracle rq)
        (fun error =>
           let attempts := S attempts in
           if (maxRetries cfg <=? attempts)%nat then throw error
           else
             sleep (2 ^ Z.of_nat attempts * 100) ;;;
             request_loop cfg oracle rq remaining' attempts)
  end.

(** [request(endpoint, 'GET', params)]: query parameters whose value is
    [undefined] are left out (lines 112-123). *)
Definition request {T} (cfg : KraxelConfig)
    (oracle : nat -> HttpRequest -> FetchOutcome T)
    (endpoint : string) (params : list (string * option string)) :
    M (KraxelResponse T) :=
  let rq := {| req_path := apiUrl cfg +:+ endpoint;
               req_query := omap (fun kv => pair (fst kv) <$> snd kv) params |} in
  request_loop cfg oracle rq (maxRetries cfg) 0.

(** The module's singleton [kraxel = new KraxelAPI()]. *)
Definition getRecentSwaps (limit : Z) : M (KraxelResponse (list Transaction)) :=
  request DEFAULT_CONFIG (fetch_txs E) "/swaps"
    [("limit", Some (pretty limit))].

Definition getSwapsByContract (contractPrincipal : string) (limit : Z)
    (start_date end_date : string) : M (KraxelResponse (list Transaction)) :=
  request DEFAULT_CONFIG (fetch_txs E) ("/swaps/contract/" +:+ contractPrincipal)
    [("limit", Some (pretty limit));
     ("start_date", Some start_date);
     ("end_date", Some end_date)].

Definition getTokenTransfers (address contractPrincipal : string) (limit : Z) :
    M (KraxelResponse (list Transaction)) :=
  request DEFAULT_CONFIG (fetch_txs E)
    ("/transactions/token-transfers/" +:+ address +:+ "/" +:+ contractPrincipal)
    [("limit", Some (pretty limit))].

Definition getLatestPrices : M (KraxelResponse (gmap string float)) :=
  request DEFAULT_CONFIG (fetch_prices E) "/prices/latest" [].

End DataClient.

(** ** Validation queries and combinators ([src/lib/kraxel-validation.ts]) *)

(** A [ValidationQuery] is its [execute] closure; its [and], [or] and [not]
    methods are the combinators below applied to the query itself. *)
Record ValidationQuery := { execute : M ValidationResult }.

Definition createBaseValidator (validatorFn : M ValidationResult) : ValidationQuery :=
  {| execute := validatorFn |}.

(** [await Promise.all([l, r])]: both operands are started, so both run even
    when one rejects.  The left operand is run to completion before the
    right one; the interleaving of their awaits is not modelled. *)
Definition Promise_all2 {A B} (l : M A) (r : M B) : M (A * B) :=
  fun w =>
    let '(ra, w1) := l w in
    let '(rb, w2) := r w1 in
    match ra, rb with
    | Ok a, Ok b => (Ok (a, b), w2)
    | Throw e, _ => (Throw e, w2)
    | _, Throw e => (Throw e, w2)
    end.

Module combinators.

(** The predicate of [some] in the AND combinator (lines 61-62). *)
Definition pairs (leftMatch rightMatch : Transaction) : bool :=
  (Js.truthy (tx_id leftMatch) && Js.truthy (tx_id rightMatch)
     && String.eqb (tx_id leftMatch) (tx_id rightMatch))
  || (Js.truthy (user_address leftMatch) && Js.truthy (user_address rightMatch)
     && String.eqb (user_address leftMatch) (user_address rightMatch)).

Definition and_result (leftResult rightResult : ValidationResult) : ValidationResult :=
  let combinedMatches :=
    List.filter
      (fun leftMatch => existsb (fun rightMatch => pairs leftMatch rightMatch)
                          (matches rightResult))
      (matches leftResult) in
  {| satisfied := satisfied leftResult && satisfied rightResult
                  && (0 <? length combinedMatches)%nat;
     matches := combinedMatches;
     metadata := Some (MetaCombined (length (matches leftResult))
                         (length (matches rightResult))
                         (length combinedMatches)) |}.

(** AND combinator (lines 51-76). *)
Definition and (left right : ValidationQuery) : ValidationQuery :=
  createBaseValidator
    (lr <- Promise_all2 (execute left) (execute right) ;;
     ret (and_result (fst lr) (snd lr))).

(** [addUniqueMatches] (lines 92-99) over the state [(seenTxIds,
    combinedMatches)]. *)
Definition addUniqueMatches (ms : list Transaction)
    (st : gset string * list Transaction) : gset string * list Transaction :=
  fold_left
    (fun (st : gset string * list Transaction) (m : Transaction) =>
       if Js.truthy (tx_id m) && negb (bool_decide (tx_id m ∈ fst st))
       then ({[ tx_id m ]} ∪ fst st, snd st ++ [m])
       else st)
    ms st.

Definition or_result (leftResult rightResult : ValidationResult) : ValidationResult :=
  let combinedMatches :=
    snd (addUniqueMatches (matches rightResult)
           (addUniqueMatches (matches leftResult) (∅, []))) in
  {| satisfied := satisfied leftResult || satisfied rightResult;
     matches := combinedMatches;
     metadata := Some (MetaCombined (length (matches leftResult))
                         (length (matches rightResult))
                         (length combinedMatches)) |}.

(** OR combinator (lines 81-114). *)
Definition or (left right : ValidationQuery) : ValidationQuery :=
  createBaseValidator
    (lr <- Promise_all2 (execute left) (execute right) ;;
     ret (or_result (fst lr) (snd lr))).

(** NOT combinator (lines 119-131). *)
Definition not (validator : ValidationQuery) : ValidationQuery :=
  createBaseValidator
    (result <- execute validator ;;
     ret {| satisfied := negb (satisfied result);
            matches := [];
            metadata := Some (MetaNot (metadata result)
                                (0 <? length (matches result))%nat) |}).

End combinators.

Definition WELSH_TOKEN : string :=
  "SP3NE50GEXFG9SZGTT51P40X2CKYSZ5CC4ZTZ7A2G.welshcorgicoin-token".

(** [normalizeTokenPrincipal] (lines 138-153). *)
Definition normalizeTokenPrincipal (principal : string) : list string :=
  let normalized := Js.trim principal in
  let variations := [normalized] in
  if Js.includes "welsh" (Js.toLowerCase normalized)
  then variations ++ [WELSH_TOKEN]
  else variations.

(** What every primitive returns from its [catch] block. *)
Definition failed_result : ValidationResult :=
  {| satisfied := false; matches := []; metadata := None |}.

(** ** Validator primitives ([src/lib/kraxel-validation.ts], lines 166-435) *)

Section Primitives.

Variable E : Env.

(** [new Date(ms).toISOString()]: a [RangeError] when [ms] is not a valid
    time value (NaN, an infinity, or outside the time range). *)
Definition toISOString (ms : float) : M string :=
  if Js.validTime ms then ret (isoFormat E ms)
  else throw (JsError "Invalid time value").

(** The filter predicate of [swappedFor] (lines 198-202):
    [swap.swap_details?.some((detail, index, array) =>
       index === array.length - 1 &&
       detail.out_asset.split('::')[0] === tokenVariant)]. *)
Definition lastLegBuys (tokenVariant : string) (swap : Transaction) : bool :=
  match swap_details swap with
  | None => false
  | Some details =>
      Js.some
        (fun detail index array =>
           (Z.of_nat index =? Z.of_nat (length array) - 1)
           && String.eqb (Js.splitHead "::" (out_asset detail)) tokenVariant)
        details
  end.

(** The loop over token variants (lines 185-208); a [break] is the return
    without a recursive call. *)
Fixpoint swappedFor_loop (startDate endDate : string)
    (tokenVariations : list string) (matchingSwaps : list Transaction) :
    M (list Transaction) :=
  match tokenVariations with
  | [] => ret matchingSwaps
  | tokenVariant :: rest =>
      swaps <- getSwapsByContract E tokenVariant 100 startDate endDate ;;
      match data swaps with
      | Some swapData =>
          if (0 <? length swapData)%nat then
            let matchingSwaps := List.filter (lastLegBuys tokenVariant) swapData in
            if (0 <? length matchingSwaps)%nat then ret matchingSwaps
            else swappedFor_loop startDate endDate rest matchingSwaps
          else swappedFor_loop startDate endDate rest matchingSwaps
      | None => swappedFor_loop startDate endDate rest matchingSwaps
      end
  end.

(** The [try] block of [swappedFor] (lines 173-220).  [endTime] is [None]
    for [undefined]; [endTime || now] also replaces 0 and NaN. *)
Definition swappedFor_body (tokenPrincipal : string) (startTime : float)
    (endTime : option float) : M ValidationResult :=
  clk <- Date_now ;;
  let now := Js.ofZ (clk / 1000) in
  let effectiveEndTime :=
    match endTime with
    | Some t => if Js.truthyNum t then t else now
    | None => now
    end in
  startDate <- toISOString (startTime * 1000)%float ;;
  endDate <- toISOString (effectiveEndTime * 1000)%float ;;
  let tokenVariations := normalizeTokenPrincipal tokenPrincipal in
  matchingSwaps <- swappedFor_loop startDate endDate tokenVariations [] ;;
  ret {| satisfied := (0 <? length matchingSwaps)%nat;
         matches := matchingSwaps;
         metadata := Some (MetaSwappedFor tokenPrincipal startTime effectiveEndTime
                             tokenVariations (length matchingSwaps)) |}.

Definition swappedFor (tokenPrincipal : string) (startTime : float)
    (endTime : option float) : ValidationQuery :=
  createBaseValidator
    (try_catch (swappedFor_body tokenPrincipal startTime endTime)
       (fun error => ret failed_result)).

(** The value added by one swap leg (lines 256-267).  [priceData] holds the
    own properties of the price object. *)
Definition legValue (priceData : gmap string float) (detail : SwapDetail) : float :=
  let inAssetPrice := Js.getOrZero priceData (in_asset detail) in
  let outAssetPrice := Js.getOrZero priceData (out_asset detail) in
  let inValue := (parseFloat E (in_amount detail) * inAssetPrice)%float in
  let outValue := (parseFloat E (out_amount detail) * outAssetPrice)%float in
  Js.Math_max inValue outValue.

(** [swapValue] after the [forEach] over [swap.swap_details] (lines 254-267). *)
Definition swapValue (priceData : gmap string float) (swap : Transaction) : float :=
  match swap_details swap with
  | None => PrimFloat.zero
  | Some details =>
      fold_left (fun acc detail => (acc + legValue priceData detail)%float)
        details PrimFloat.zero
  end.

(** The default [getTransactions] argument (lines 236-240). *)
Definition recentSwaps : M (list Transaction) :=
  swaps <- getRecentSwaps E 100 ;;
  ret (default [] (data swaps)).

Definition minValueSwap_body (minValueUsd : float)
    (getTransactions : M (list Transaction)) : M ValidationResult :=
  transactions <- getTransactions ;;
  prices <- getLatestPrices E ;;
  let priceData := default ∅ (data prices) in
  let matchingSwaps :=
    List.filter (fun swap => Js.geq (swapValue priceData swap) minValueUsd)
      transactions in
  ret {| satisfied := (0 <? length matchingSwaps)%nat;
         matches := matchingSwaps;
         metadata := Some (MetaMinValue minValueUsd (length matchingSwaps)) |}.

Definition minValueSwap (minValueUsd : float)
    (getTransactions : M (list Transaction)) : ValidationQuery :=
  createBaseValidator
    (try_catch (minValueSwap_body minValueUsd getTransactions)
       (fun error => ret failed_result)).

(** The comparator of the sort in [firstNBuyers] (lines 341-348), as the
    sort reads it: the sign of the difference of the block heights when they
    differ, else the difference of the times; a NaN difference counts as 0. *)
Definition chronological (a b : Transaction) : Z :=
  if Js.strictNeq (block_height a) (block_height b)
  then Js.signOfDifference (block_height a) (block_height b)
  else
    match Date_getTime E (block_time a), Date_getTime E (block_time b) with
    | Some ta, Some tb => ta - tb
    | _, _ => 0
    end.

(** The loop collecting the first occurrence per address (lines 354-363)
    over the state [(uniqueAddresses, firstNBuyers)]. *)
Fixpoint collectBuyers (n : float) (swaps : list Transaction)
    (uniqueAddresses : list string) (buyers : list Transaction) :
    list string * list Transaction :=
  match swaps with
  | [] => (uniqueAddresses, buyers)
  | swap :: rest =>
      if Js.truthy (user_address swap)
         && negb (Js.Set_has uniqueAddresses (user_address swap))
      then
        let uniqueAddresses := Js.Set_add uniqueAddresses (user_address swap) in
        let buyers := buyers ++ [swap] in
        if Js.geqLen (length buyers) n then (uniqueAddresses, buyers)
        else collectBuyers n rest uniqueAddresses buyers
      else collectBuyers n rest uniqueAddresses buyers
  end.

(** Lines 340-375: sort the candidates, collect, build the result. *)
Definition selectFirstBuyers (tokenPrincipal : string) (n : float) (minValueUsd : float)
    (filteredSwaps : list Transaction) : ValidationResult :=
  let sorted := Array_sort E chronological filteredSwaps in
  let '(uniqueAddresses, buyers) := collectBuyers n sorted [] [] in
  {| satisfied := Js.geqLen (length buyers) n;
     matches := buyers;
     metadata := Some (MetaFirstN n (length buyers) tokenPrincipal minValueUsd
                         uniqueAddresses) |}.

Definition firstNBuyers_body (tokenPrincipal : string) (n : float) (minValueUsd : float)
    (startTime : float) : M ValidationResult :=
  swapResult <- execute (swappedFor tokenPrincipal startTime None) ;;
  if negb (satisfied swapResult) then
    ret {| satisfied := false; matches := [];
           metadata := Some (MetaNoSwaps "No swaps found for token" tokenPrincipal) |}
  else if Js.gt minValueUsd PrimFloat.zero then
    valueResult <- execute (minValueSwap minValueUsd (ret (matches swapResult))) ;;
    if negb (satisfied valueResult) then
      ret {| satisfied := false; matches := [];
             metadata := Some (MetaBelowValue "No swaps above minimum value"
                                 minValueUsd) |}
    else ret (selectFirstBuyers tokenPrincipal n minValueUsd (matches valueResult))
  else ret (selectFirstBuyers tokenPrincipal n minValueUsd (matches swapResult)).

Definition firstNBuyers (tokenPrincipal : string) (n : float) (minValueUsd : float)
    (startTime : float) : ValidationQuery :=
  createBaseValidator
    (try_catch (firstNBuyers_body tokenPrincipal n minValueUsd startTime)
       (fun error => ret failed_result)).

(** The loop of [holdsToken] over token variants (lines 399-419); [Some] is
    the early [return]. *)
Fixpoint holdsToken_loop (userAddress : string) (tokenVariations : list string) :
    M (option ValidationResult) :=
  match tokenVariations with
  | [] => ret None
  | tokenVariant :: rest =>
      transfers <- getTokenTransfers E userAddress tokenVariant 100 ;;
      match data transfers with
      | Some transferData =>
          if (0 <? length transferData)%nat then
            ret (Some {| satisfied := true;
                         matches := transferData;
                         metadata := Some (MetaHolds userAddress tokenVariant
                                             (length transferData)) |})
          else holdsToken_loop userAddress rest
      | None => holdsToken_loop userAddress rest
      end
  end.

Definition holdsToken_body (userAddress tokenPrincipal : string) : M ValidationResult :=
  let tokenVariations := normalizeTokenPrincipal tokenPrincipal in
  found <- holdsToken_loop userAddress tokenVariations ;;
  match found with
  | Some result => ret result
  | None =>
      ret {| satisfied := false; matches := [];
             metadata := Some (MetaNoTransfers userAddress tokenPrincipal
                                 "No transfers found") |}
  end.

Definition holdsToken (userAddress tokenPrincipal : string) : ValidationQuery :=
  createBaseValidator
    (try_catch (holdsToken_body userAddress tokenPrincipal)
       (fun error => ret failed_result)).

End Primitives.

(** ** Result store operations ([src/lib/db/queries.ts], lines 472-612) *)

Section Store.

Variable E : Env.

(** Every query awaits the database: it takes time, and it rethrows the
    database's error when there is one. *)
Definition db_op {A} (body : M A) : M A :=
  fun w =>
    let w1 := count_db_op (set_clock (clock w + latency E (ticks w)) w) in
    match db_fault E (db_ops w) with
    | Some e => (Throw e, w1)
    | None => body w1
    end.

Definition is_active (q : Quest) : bool :=
  match quest_status q with Active => true | _ => false end.

Definition getActiveQuests : M (list Quest) :=
  db_op (fun w => (Ok (List.filter is_active (quests w)), w)).

(** [createQuestValidation({questId, validationData})]: [status] defaults
    to [pending], [nextValidationAt] stays null; returns the inserted rows.
    The fresh primary key is the row's position in the table. *)
Definition createQuestValidation (questId : string) (validationData : ValidationData) :
    M (list QuestValidation) :=
  fun w =>
    let validatedAt := clock w in
    db_op
      (fun w1 =>
         let row :=
           {| v_id := length (validations w1);
              v_questId := questId;
              v_validatedAt := validatedAt;
              v_status := Pending;
              v_validationData := validationData;
              v_errorMessage := None;
              v_nextValidationAt := None;
              v_validAddresses := [];
              v_processingTime := 0 |} in
         (Ok [row], set_validations (validations w1 ++ [row]) w1))
      w.

(** The [updates] object of [updateQuestValidation] applied to a row: only
    the fields that are not [undefined] are written. *)
Definition apply_updates (st : option ValidationStatus) (errorMessage : option string)
    (validAddresses : option (list string)) (processingTime nextValidationAt : option Z)
    (v : QuestValidation) : QuestValidation :=
  {| v_id := v_id v;
     v_questId := v_questId v;
     v_validatedAt := v_validatedAt v;
     v_status := default (v_status v) st;
     v_validationData := v_validationData v;
     v_errorMessage :=
       match errorMessage with Some m => Some m | None => v_errorMessage v end;
     v_nextValidationAt :=
       match nextValidationAt with Some t => Some t | None => v_nextValidationAt v end;
     v_validAddresses := default (v_validAddresses v) validAddresses;
     v_processingTime := default (v_processingTime v) processingTime |}.

Definition updateQuestValidation (id : nat) (st : option ValidationStatus)
    (errorMessage : option string) (validAddresses : option (list string))
    (processingTime nextValidationAt : option Z) : M unit :=
  db_op
    (fun w =>
       (Ok tt,
        set_validations
          (map (fun v =>
                  if (v_id v =? id)%nat
                  then apply_updates st errorMessage validAddresses processingTime
                         nextValidationAt v
                  else v)
             (validations w))
          w)).

Definition createQuestValidationResult (validationId : nat) (userAddress : string)
    (isValid : bool) (resultData : ResultData) (criteriaType : string) : M unit :=
  fun w =>
    let validatedAt := clock w in
    db_op
      (fun w1 =>
         let row :=
           {| r_id := length (vresults w1);
              r_validationId := validationId;
              r_userAddress := userAddress;
              r_isValid := isValid;
              r_resultData := resultData;
              r_validatedAt := validatedAt;
              r_criteriaType := criteriaType |} in
         (Ok tt, set_vresults (vresults w1 ++ [row]) w1))
      w.

(** The rows that [ORDER BY validatedAt DESC] may put first: those whose
    [validatedAt] is the greatest. *)
Definition newest (rows : list QuestValidation) : list QuestValidation :=
  List.filter
    (fun v => forallb (fun v' => v_validatedAt v' <=? v_validatedAt v) rows)
    rows.

(** [WHERE questId = ... ORDER BY validatedAt DESC LIMIT 1], issued as the
    store operation number [op].  The query does not say which row comes
    first among those with the same [validatedAt]: the store picks. *)
Definition latestOf (questId : string) (rows : list QuestValidation) (op : nat) :
    option QuestValidation :=
  let first :=
    newest (List.filter (fun v => String.eqb (v_questId v) questId) rows) in
  first !! (db_pick E op first mod length first)%nat.

Definition getLatestQuestValidation (questId : string) : M (option QuestValidation) :=
  fun w => db_op (fun w1 => (Ok (latestOf questId (validations w1) (db_ops w)), w1)) w.

End Store.

(** ** The quest validation runner ([src/lib/quest/validator.ts]) *)

Module VALIDATION_FREQUENCY.
Definition DEFAULT : Z := 5 * 60 * 1000.
Definition ERROR : Z := 15 * 60 * 1000.
Definition SUCCESS : Z := 10 * 60 * 1000.
End VALIDATION_FREQUENCY.

Record ProcessedAddress := {
  address : string;
  isValid : bool;
  addr_data : ResultData;
}.

Record ProcessedValidationResult := {
  validAddresses : list string;
  addresses : list ProcessedAddress;
}.

(** [processValidationResult] (lines 53-74). *)
Definition processValidationResult (result : ValidationResult) : ProcessedValidationResult :=
  let addresses :=
    map (fun m =>
           {| address := user_address m;
              isValid := true;
              addr_data :=
                {| rd_tx_id := tx_id m;
                   rd_block_height := block_height m;
                   rd_block_time := block_time m;
                   rd_swap_details := swap_details m;
                   rd_metadata := metadata result |} |})
      (matches result) in
  {| validAddresses := map address addresses; addresses := addresses |}.

Section Runner.

Variable E : Env.

(** What the four [case] blocks share (lines 124-140 and their copies):
    execute the validator, save one result row per match, and yield
    [(validAddresses, isSuccess)]. *)
Definition runValidator (validationId : nat) (criteriaType : string)
    (validator : ValidationQuery) : M (list string * bool) :=
  validationResult <- execute validator ;;
  let processed := processValidationResult validationResult in
  forEachM
    (fun a =>
       createQuestValidationResult E validationId (address a) (isValid a)
         (addr_data a) criteriaType)
    (addresses processed) ;;;
  ret (validAddresses processed, satisfied validationResult).

(** The [switch (criteria.type)] (lines 115-227). *)
Definition dispatch (validationId : nat) (criteria : Criteria) : M (list string * bool) :=
  let ps := params criteria in
  if String.eqb (ctype criteria) "swappedFor" then
    runValidator validationId "swappedFor"
      (swappedFor E (p_tokenPrincipal ps) (Js.orZero (p_startTime ps)) (p_endTime ps))
  else if String.eqb (ctype criteria) "firstNBuyers" then
    runValidator validationId "firstNBuyers"
      (firstNBuyers E (p_tokenPrincipal ps)
         (match p_numUsers ps with
          | Some k => if Js.truthyNum k then k else 10
          | None => 10
          end)%float
         (Js.orZero (p_minValueUsd ps))
         (Js.orZero (p_startTime ps)))
  else if String.eqb (ctype criteria) "minValueSwap" then
    runValidator validationId "minValueSwap"
      (minValueSwap E (Js.orZero (p_minValueUsd ps)) (recentSwaps E))
  else if String.eqb (ctype criteria) "holdsToken" then
    runValidator validationId "holdsToken"
      (holdsToken E
         (match p_userAddress ps with
          | Some a => if Js.truthy a then a else ""
          | None => ""
          end)
         (p_tokenPrincipal ps))
  else throw (JsError ("Unsupported criteria type: " +:+ ctype criteria)).

(** The inner [try] block (lines 109-241). *)
Definition evaluate (validationId : nat) (criteria : Criteria) (startTime : Z) : M unit :=
  outcome <- dispatch validationId criteria ;;
  now <- Date_now ;;
  let nextValidationAt := now + VALIDATION_FREQUENCY.SUCCESS in
  finished <- Date_now ;;
  updateQuestValidation E validationId
    (Some (if snd outcome then Success else Failed))
    None (Some (fst outcome)) (Some (finished - startTime)) (Some nextValidationAt).

(** The inner [catch] block (lines 243-259). *)
Definition recordError (validationId : nat) (startTime : Z) (error : Exn) : M unit :=
  now <- Date_now ;;
  let nextValidationAt := now + VALIDATION_FREQUENCY.ERROR in
  let errorMessage :=
    match error with
    | JsError message => message
    | NonError => "Unknown error during validation"
    end in
  finished <- Date_now ;;
  updateQuestValidation E validationId (Some Failed) (Some errorMessage) None
    (Some (finished - startTime)) (Some nextValidationAt).

(** Lines 92-263: everything after the skip check. *)
Definition validateNow (quest : Quest) : M unit :=
  startTime <- Date_now ;;
  try_catch
    (created <- createQuestValidation E (quest_id quest)
                  {| vd_criteria := criteria quest; vd_startTime := startTime |} ;;
     match created with
     | validation :: _ =>
         let validationId := v_id validation in
         try_catch (evaluate validationId (criteria quest) startTime)
           (recordError validationId startTime)
     | [] => throw (JsError "Cannot read properties of undefined (reading 'id')")
     end)
    (fun error => ret tt).

(** [validateSingleQuest] (lines 79-264). *)
Definition validateSingleQuest (quest : Quest) : M unit :=
  lastValidation <- getLatestQuestValidation E (quest_id quest) ;;
  now <- Date_now ;;
  match lastValidation with
  | Some last =>
      match v_nextValidationAt last with
      | Some next => if now <? next then ret tt else validateNow quest
      | None => validateNow quest
      end
  | None => validateNow quest
  end.

(** [validateAllActiveQuests] (lines 41-48). *)
Definition validateAllActiveQuests : M unit :=
  activeQuests <- getActiveQuests E ;;
  forEachM validateSingleQuest activeQuests.

End Runner.


(** * Part II: specification predicates and example data *)

(** ** What the claims say, as predicates *)

Module Spec.

(** Two matches are paired by the AND combinator: they share a non-empty
    [tx_id], or they share a non-empty [user_address]. *)
Definition paired (l r : Transaction) : Prop :=
  (tx_id l ≠ "" ∧ tx_id l = tx_id r)
  ∨ (user_address l ≠ "" ∧ user_address l = user_address r).

(** The pairing as the specification words it: the address is compared only
    when one side lacks a [tx_id]. *)
Definition paired_as_claimed (l r : Transaction) : Prop :=
  (tx_id l ≠ "" ∧ tx_id l = tx_id r)
  ∨ ((tx_id l = "" ∨ tx_id r = "")
     ∧ user_address l ≠ "" ∧ user_address l = user_address r).

(** [t] is the first entry of [l] that carries its [tx_id]. *)
Definition first_with_its_id (t : Transaction) (l : list Transaction) : Prop :=
  ∃ before after, l = before ++ t :: after ∧ tx_id t ∉ map tx_id before.

End Spec.

#[global] Instance paired_dec l r : Decision (Spec.paired l r).
Proof. unfold Spec.paired. apply _. Defined.

#[global] Instance paired_as_claimed_dec l r : Decision (Spec.paired_as_claimed l r).
Proof. unfold Spec.paired_as_claimed. apply _. Defined.

(** ** Example data *)

Module Demo.

Definition w0 : World :=
  {| clock := 1700000000000; net_log := []; sleeps := []; db_ops := 0;
     quests := []; validations := []; vresults := [] |}.

(** A query that resolves to a given result without touching the world. *)
Definition constant (r : ValidationResult) : ValidationQuery :=
  createBaseValidator (ret r).

Definition tx (id addr : string) (height : float) (time : string) : Transaction :=
  {| tx_id := id; user_address := addr; block_height := height;
     block_time := time; swap_details := None |}.

Definition txA : Transaction := tx "0xaaa" "SP1ALICE" 10 "2024-01-01T00:00:00Z".
Definition txB : Transaction := tx "0xbbb" "SP1ALICE" 11 "2024-01-01T00:10:00Z".
Definition txNoId : Transaction := tx "" "SP2BOB" 12 "2024-01-01T00:20:00Z".

Definition result_of (ms : list Transaction) : ValidationResult :=
  {| satisfied := true; matches := ms; metadata := None |}.

(** Stand-ins for the builtins.  [parse_digits] agrees with [parseFloat] on
    strings of decimal digits and on strings that start with a letter. *)
Fixpoint digits (s : string) (acc : Z) : option Z :=
  match s with
  | EmptyString => Some acc
  | String c r =>
      let n := Z.of_N (N_of_ascii c) in
      if (48 <=? n) && (n <=? 57) then digits r (10 * acc + (n - 48)) else None
  end.

Definition parse_digits (s : string) : float :=
  match s with
  | EmptyString => PrimFloat.nan
  | _ =>
      match digits s 0 with
      | Some z => PrimFloat.of_uint63 (Uint63.of_Z z)
      | None => PrimFloat.nan
      end
  end.

Definition time_table (s : string) : option Z :=
  if String.eqb s "2024-01-01T00:00:00Z" then Some 1704067200000
  else if String.eqb s "2024-01-01T00:10:00Z" then Some 1704067800000
  else if String.eqb s "2024-01-01T00:20:00Z" then Some 1704068400000
  else None.

(** The integer part of a finite number. *)
Definition trunc (x : float) : Z :=
  match Prim2SF x with
  | S754_finite negative m e =>
      let v := if 0 <=? e then Z.pos m * 2 ^ e else Z.pos m / 2 ^ (- e) in
      if negative then - v else v
  | _ => 0
  end.

Definition show_ms (ms : float) : string := "epoch-ms:" +:+ pretty (trunc ms).

Definition leg (inAsset inAmount outAsset outAmount : string) : SwapDetail :=
  {| in_asset := inAsset; in_amount := inAmount;
     out_asset := outAsset; out_amount := outAmount;
     swap_index := 0; contract_address := "SP000.router" |}.

Definition swap (id addr : string) (height : float) (time : string)
    (legs : list SwapDetail) : Transaction :=
  {| tx_id := id; user_address := addr; block_height := height;
     block_time := time; swap_details := Some legs |}.

Definition TOKEN : string := "SP1TOKEN.wen".

(** Three swaps whose last leg buys [TOKEN]: two by Alice in block 10, one by
    Bob in block 20; and one swap that only routes through [TOKEN]. *)
Definition swap1 : Transaction :=
  swap "0x01" "SP1ALICE" 10 "2024-01-01T00:00:00Z"
    [leg "STX" "100" "SP1TOKEN.wen::wen" "7"].
Definition swap2 : Transaction :=
  swap "0x02" "SP1ALICE" 10 "2024-01-01T00:10:00Z"
    [leg "STX" "50" "SP9USD.usd::usd" "40"; leg "SP9USD.usd::usd" "40" "SP1TOKEN.wen::wen" "3"].
Definition swap3 : Transaction :=
  swap "0x03" "SP2BOB" 20 "2024-01-01T00:20:00Z"
    [leg "STX" "10" "SP1TOKEN.wen" "1"].
Definition swapThrough : Transaction :=
  swap "0x04" "SP3CAROL" 21 "2024-01-01T00:20:00Z"
    [leg "STX" "10" "SP1TOKEN.wen::wen" "1"; leg "SP1TOKEN.wen::wen" "1" "SP9USD.usd::usd" "8"].

(** A swap whose amounts do not parse and whose assets have no price. *)
Definition swapUnparsed : Transaction :=
  swap "0x05" "SP4DAN" 22 "2024-01-01T00:20:00Z"
    [leg "SP7ODD.aaa" "abc" "SP7ODD.bbb" "1"].


Definition prices : gmap string float :=
  {[ "STX" := 2%float; "SP9USD.usd::usd" := 1%float ]}.

Definition ok {T} (d : T) : FetchOutcome T :=
  HttpResponse true 200 "OK" (Ok {| status := "success"; data := Some d |}).

Definition upstream_txs (k : nat) (rq : HttpRequest) : FetchOutcome (list Transaction) :=
  if String.eqb (req_path rq) ("http://165.232.68.81:8000/swaps/contract/" +:+ TOKEN)
  then ok [swap2; swapThrough; swap3; swap1]
  else if String.eqb (req_path rq) "http://165.232.68.81:8000/swaps"
  then ok [swap1; swap2; swap3; swapThrough; swapUnparsed]
  else ok [].

(** A healthy upstream and store; the engine sorts stably whatever the
    comparator, and the store returns the first of equally recent rows. *)
Definition env_up : Env :=
  {| parseFloat := parse_digits;
     Date_getTime := time_table;
     isoFormat := show_ms;
     Array_sort := @Js.stableSort Transaction;
     fetch_txs := upstream_txs;
     fetch_prices := λ _ _, ok prices;
     db_fault := λ _, None;
     db_pick := λ _ _, 0%nat;
     latency := λ _, 5 |}.

(** Every request to the upstream fails. *)
Definition env_down : Env :=
  {| parseFloat := parse_digits;
     Date_getTime := time_table;
     isoFormat := show_ms;
     Array_sort := @Js.stableSort Transaction;
     fetch_txs := λ _ _, NetworkError (JsError "fetch failed");
     fetch_prices := λ _ _, NetworkError (JsError "fetch failed");
     db_fault := λ _, None;
     db_pick := λ _ _, 0%nat;
     latency := λ _, 5 |}.

Definition swapParams : CriteriaParams :=
  {| p_tokenPrincipal := TOKEN; p_startTime := None; p_endTime := None;
     p_numUsers := None; p_minValueUsd := None; p_userAddress := None |}.

Definition questSwap : Quest :=
  {| quest_id := "quest-swap"; title := "Swap for WEN"; quest_status := Active;
     criteria := {| ctype := "swappedFor"; params := swapParams |} |}.

(** A quest whose criteria type the runner does not know. *)
Definition questOdd : Quest :=
  {| quest_id := "quest-odd"; title := "Hold a balance"; quest_status := Active;
     criteria := {| ctype := "balanceAbove"; params := swapParams |} |}.

(** Two active quests, nothing validated yet. *)
Definition w_two : World :=
  {| clock := 1700000000000; net_log := []; sleeps := []; db_ops := 0;
     quests := [questOdd; questSwap]; validations := []; vresults := [] |}.

Definition doneRow : QuestValidation :=
  {| v_id := 0; v_questId := "quest-swap"; v_validatedAt := 1699999900000;
     v_status := Success;
     v_validationData := {| vd_criteria := criteria questSwap;
                            vd_startTime := 1699999900000 |};
     v_errorMessage := None;
     v_nextValidationAt := Some 1700000500000;
     v_validAddresses := ["SP1ALICE"];
     v_processingTime := 40 |}.

(** [questSwap] was validated recently: its next validation is in the future. *)
Definition w_recent : World :=
  {| clock := 1700000000000; net_log := []; sleeps := []; db_ops := 0;
     quests := [questSwap]; validations := [doneRow]; vresults := [] |}.

(** A second row of [questSwap] with the same [validatedAt] as [doneRow],
    still without a [nextValidationAt], and a store that returns the last
    of the rows that tie. *)
Definition openRow : QuestValidation :=
  {| v_id := 1; v_questId := "quest-swap"; v_validatedAt := 1699999900000;
     v_status := Pending;
     v_validationData := {| vd_criteria := criteria questSwap;
                            vd_startTime := 1699999900000 |};
     v_errorMessage := None;
     v_nextValidationAt := None;
     v_validAddresses := [];
     v_processingTime := 0 |}.

Definition w_tie : World :=
  {| clock := 1700000000000; net_log := []; sleeps := []; db_ops := 0;
     quests := [questSwap]; validations := [doneRow; openRow]; vresults := [] |}.

Definition env_pick_last : Env :=
  {| parseFloat := parse_digits;
     Date_getTime := time_table;
     isoFormat := show_ms;
     Array_sort := @Js.stableSort Transaction;
     fetch_txs := upstream_txs;
     fetch_prices := λ _ _, ok prices;
     db_fault := λ _, None;
     db_pick := λ _ rows, pred (length rows);
     latency := λ _, 5 |}.

(** Two more buyers of [TOKEN], and an upstream that reports four of them. *)
Definition swap4 : Transaction :=
  swap "0x07" "SP3CAROL" 30 "2024-01-01T00:20:00Z"
    [leg "STX" "10" "SP1TOKEN.wen" "1"].
Definition swap5 : Transaction :=
  swap "0x08" "SP4DAN" 31 "2024-01-01T00:20:00Z"
    [leg "STX" "10" "SP1TOKEN.wen" "1"].

Definition env_crowd : Env :=
  {| parseFloat := parse_digits;
     Date_getTime := time_table;
     isoFormat := show_ms;
     Array_sort := @Js.stableSort Transaction;
     fetch_txs := λ _ _, ok [swap5; swap1; swap4; swap3];
     fetch_prices := λ _ _, ok prices;
     db_fault := λ _, None;
     db_pick := λ _ _, 0%nat;
     latency := λ _, 5 |}.

(** The store fails on its third operation only (the creation of the first
    validation record of a sweep). *)
Definition env_create_fault : Env :=
  {| parseFloat := parse_digits;
     Date_getTime := time_table;
     isoFormat := show_ms;
     Array_sort := @Js.stableSort Transaction;
     fetch_txs := upstream_txs;
     fetch_prices := λ _ _, ok prices;
     db_fault := λ k, if (k =? 2)%nat then Some (JsError "Connection terminated") else None;
     db_pick := λ _ _, 0%nat;
     latency := λ _, 5 |}.

(** The store fails on its second operation only (the first lookup of a
    sweep, which follows the listing of the active quests). *)
Definition env_lookup_fault : Env :=
  {| parseFloat := parse_digits;
     Date_getTime := time_table;
     isoFormat := show_ms;
     Array_sort := @Js.stableSort Transaction;
     fetch_txs := upstream_txs;
     fetch_prices := λ _ _, ok prices;
     db_fault := λ k, if (k =? 1)%nat then Some (JsError "Connection terminated") else None;
     db_pick := λ _ _, 0%nat;
     latency := λ _, 5 |}.

(** The upstream rejects the very first attempt and answers afterwards. *)
Definition env_flaky : Env :=
  {| parseFloat := parse_digits;
     Date_getTime := time_table;
     isoFormat := show_ms;
     Array_sort := @Js.stableSort Transaction;
     fetch_txs := λ k rq,
       if (k =? 0)%nat then NetworkError (JsError "fetch failed")
       else upstream_txs k rq;
     fetch_prices := λ _ _, ok prices;
     db_fault := λ _, None;
     db_pick := λ _ _, 0%nat;
     latency := λ _, 5 |}.

(** The store fails on its first operation only. *)
Definition env_first_fault : Env :=
  {| parseFloat := parse_digits;
     Date_getTime := time_table;
     isoFormat := show_ms;
     Array_sort := @Js.stableSort Transaction;
     fetch_txs := upstream_txs;
     fetch_prices := λ _ _, ok prices;
     db_fault := λ k, if (k =? 0)%nat then Some (JsError "Connection terminated") else None;
     db_pick := λ _ _, 0%nat;
     latency := λ _, 5 |}.

End Demo.

(** The loop invariant of [addUniqueMatches] after the entries [done]:
    [seenTxIds] holds the non-empty ids met so far, and [combinedMatches]
    holds, in order, the first entry of each. *)
Record unique_upto (done : list Transaction)
    (st : gset string * list Transaction) : Prop := {
  seen_ids : ∀ x, x ∈ fst st ↔ x ≠ "" ∧ x ∈ map tx_id done;
  kept_ids : ∀ x, x ∈ map tx_id (snd st) ↔ x ∈ fst st;
  kept_nodup : NoDup (map tx_id (snd st));
  kept_sublist : sublist (snd st) done;
  kept_first : ∀ t, t ∈ snd st → Spec.first_with_its_id t done;
}.

(** ** Numbers by shape *)

Inductive Shape := IsNaN | IsZero | IsInf | IsNum.

Definition shape (x : float) : Shape :=
  match Prim2SF x with
  | S754_nan => IsNaN
  | S754_zero _ => IsZero
  | S754_infinity _ => IsInf
  | S754_finite _ _ _ => IsNum
  end.

Module SpecValue.







End SpecValue.

(** ** Numbers in order *)

Module SpecNumber.

(** A number that is not NaN, by class (negative infinity, negative, zero,
    positive, positive infinity), then exponent, then mantissa: the numbers
    compare as these triples do, lexicographically. *)
Definition key (x : spec_float) : Z * Z * Z :=
  match x with
  | S754_zero _ => (0, 0, 0)
  | S754_infinity negative => (if negative then -2 else 2, 0, 0)
  | S754_nan => (0, 0, 0)
  | S754_finite negative m e =>
      if negative then (-1, - e, - Z.pos m) else (1, e, Z.pos m)
  end.

Definition below (p q : Z * Z * Z) : Prop :=
  p.1.1 < q.1.1
  ∨ (p.1.1 = q.1.1 ∧ (p.1.2 < q.1.2 ∨ (p.1.2 = q.1.2 ∧ p.2 < q.2))).

End SpecNumber.

(** ** What ECMAScript asks of [Array.prototype.sort] *)

Module SpecEngine.

(** [cmp], as the sort reads it (NaN is read as 0), is a consistent
    comparator for the elements of [l]. *)
Definition consistent {A} (cmp : A → A → Z) (l : list A) : Prop :=
  ∀ a b c, a ∈ l → b ∈ l → c ∈ l →
    cmp a a = 0
    ∧ (cmp a b = 0 → cmp b a = 0)
    ∧ (cmp a b = 0 → cmp b c = 0 → cmp a c = 0)
    ∧ (cmp a b < 0 → cmp b c < 0 → cmp a c < 0)
    ∧ (0 < cmp a b → 0 < cmp b c → 0 < cmp a c).

(** The engine's sort returns a permutation of its argument; when the
    comparator is consistent the result is the sorted, stable one that
    ECMAScript prescribes.  With an inconsistent comparator the order is the
    engine's own. *)
Definition conforms (E : Env) : Prop :=
  ∀ cmp l,
    Array_sort E cmp l ≡ₚ l
    ∧ (consistent cmp l → Array_sort E cmp l = Js.stableSort cmp l).

End SpecEngine.

(** ** Predicates for [firstNBuyers] *)

Module SpecBuyers.

(** [t] is the first entry of [l] from its [user_address]. *)
Definition first_from_its_address (t : Transaction) (l : list Transaction) : Prop :=
  ∃ before after,
    l = before ++ t :: after ∧ user_address t ∉ map user_address before.

(** The first entry of each non-empty [user_address], in the order of the
    list; [seen] holds the addresses met before. *)
Fixpoint first_occurrences_from (seen : list string) (l : list Transaction) :
    list Transaction :=
  match l with
  | [] => []
  | t :: l' =>
      if bool_decide (user_address t ≠ "" ∧ user_address t ∉ seen)
      then t :: first_occurrences_from (seen ++ [user_address t]) l'
      else first_occurrences_from seen l'
  end.

Definition first_occurrences (l : list Transaction) : list Transaction :=
  first_occurrences_from [] l.

(** [k] unique addresses are what the requested number [n] asks for: a count
    is [>= n] exactly from [k] on.  For an integer [n], [k] is [n]; for a
    fractional [n], [k] is [n] rounded up. *)
Definition reached_at (n : float) (k : Z) : Prop :=
  ∀ len : nat, Js.geqLen len n = true ↔ k ≤ Z.of_nat len.

(** The block height is a number that compares: it is not NaN. *)
Definition has_height (t : Transaction) : Prop :=
  PrimFloat.is_nan (block_height t) = false.

Definition valid_time (E : Env) (t : Transaction) : Prop :=
  is_Some (Date_getTime E (block_time t)).

(** Block heights never decrease along the list. *)
Definition by_height (a b : Transaction) : Prop :=
  (block_height a <=? block_height b)%float = true.

(** [a] is not after [b] in (block height, block time) order; block times
    are compared as time values, so both must be valid dates. *)
Definition chronologically (E : Env) (a b : Transaction) : Prop :=
  (block_height a <? block_height b)%float = true
  ∨ ((block_height a =? block_height b)%float = true
     ∧ ∃ ta tb, Date_getTime E (block_time a) = Some ta
                ∧ Date_getTime E (block_time b) = Some tb ∧ ta ≤ tb).

(** The candidates that [firstNBuyers] selects from, and the world once they
    are gathered: the matches of [swappedFor] from [startTime] on, filtered
    by [minValueSwap] when a positive minimum value is asked for; [None]
    when [swappedFor], or the value filter, lets nothing through. *)
Definition candidates (E : Env) (tokenPrincipal : string) (minValueUsd startTime : float)
    (w : World) : option (list Transaction) * World :=
  match execute (swappedFor E tokenPrincipal startTime None) w with
  | (Ok swapped, w1) =>
      if bool_decide (satisfied swapped = false) then (None, w1)
      else if Js.gt minValueUsd PrimFloat.zero then
        match execute (minValueSwap E minValueUsd (ret (matches swapped))) w1 with
        | (Ok valued, w2) =>
            if bool_decide (satisfied valued = false) then (None, w2)
            else (Some (matches valued), w2)
        | (Throw _, w2) => (None, w2)
        end
      else (Some (matches swapped), w1)
  | (Throw _, w1) => (None, w1)
  end.

End SpecBuyers.

(** The loop invariant of [collectBuyers] after the entries [done]. *)
Record collected (done : list Transaction) (uniqueAddresses : list string)
    (buyers : list Transaction) : Prop := {
  col_addresses : uniqueAddresses = map user_address buyers;
  col_nodup : NoDup uniqueAddresses;
  col_sublist : sublist buyers done;
  col_first : ∀ t, t ∈ buyers →
    user_address t ≠ "" ∧ SpecBuyers.first_from_its_address t done;
  col_covers : ∀ t, t ∈ done → user_address t ≠ "" →
    user_address t ∈ uniqueAddresses;
}.

(** ** Predicates for the Data Client *)

Module SpecClient.

(** A [fetch] attempt with this outcome throws [e]: the network failed (or
    the request was aborted), the response was not 2xx, or its body was not
    JSON. *)
Inductive attempt_throws {T} : FetchOutcome T → Exn → Prop :=
| throws_network e :
    attempt_throws (NetworkError e) e
| throws_status code statusText body :
    attempt_throws (HttpResponse false code statusText body)
      (JsError ("API request failed: " +:+ pretty code +:+ " " +:+ statusText))
| throws_json code statusText e :
    attempt_throws (HttpResponse true code statusText (Throw e)) e.

(** The request that [request(endpoint, 'GET', params)] sends. *)
Definition request_of (cfg : KraxelConfig) (endpoint : string)
    (params : list (string * option string)) : HttpRequest :=
  {| req_path := apiUrl cfg +:+ endpoint;
     req_query := omap (λ kv, pair (fst kv) <$> snd kv) params |}.

(** The backoff delay slept after the failed attempt number [attempt]
    (counted from 1): [base * 2^attempt] with a base of 100 ms. *)
Definition backoff (attempt : nat) : Z := 100 * 2 ^ Z.of_nat attempt.

End SpecClient.

(** ** Predicates for [swappedFor] *)

Module SpecSwap.

(** The last leg of a swap, when it has legs. *)
Definition last_leg (t : Transaction) : option SwapDetail :=
  swap_details t ≫= last.

(** The asset a swap ends up buying: the [out_asset] of its last leg, cut
    before the first ["::"]. *)
Definition bought (t : Transaction) : option string :=
  (λ d, Js.splitHead "::" (out_asset d)) <$> last_leg t.

Definition buys (token : string) (t : Transaction) : Prop :=
  bought t = Some token.

#[global] Instance buys_dec token t : Decision (buys token t).
Proof. unfold buys. apply _. Defined.

(** [head] is [s] stripped of its ["::"] suffix, if it has one. *)
Definition stripped (s head : string) : Prop :=
  (s = head ∨ ∃ suffix, s = head +:+ "::" +:+ suffix)
  ∧ ∀ before after, head ≠ before +:+ "::" +:+ after.

(** The fetched swaps that buy [token]. *)
Definition hits (token : string) (fetched : option (list Transaction)) :
    list Transaction :=
  filter (buys token) (default [] fetched).

(** The end of the time window: [endTime] when it is given and truthy, else
    the current time in whole seconds. *)
Definition window_end (endTime : option float) (w : World) : float :=
  match endTime with
  | Some t => if Js.truthyNum t then t else Js.ofZ (clock w / 1000)
  | None => Js.ofZ (clock w / 1000)
  end.

(** What [swappedFor] resolves to, from the outcome of trying the variants:
    the matches found, or the empty result when a fetch failed. *)
Definition result_of (tokenPrincipal : string) (startTime stop : float)
    (outcome : Res (list Transaction)) : ValidationResult :=
  match outcome with
  | Ok found =>
      {| satisfied := bool_decide (found ≠ []);
         matches := found;
         metadata := Some (MetaSwappedFor tokenPrincipal startTime stop
                             (normalizeTokenPrincipal tokenPrincipal)
                             (length found)) |}
  | Throw _ => failed_result
  end.

(** Trying the variants in order from world [w]: the outcome is the hits of
    the first variant that has any, nothing when no variant has, and the
    error of the first fetch that fails; no variant after the first hit is
    fetched. *)
Inductive tries (E : Env) (startDate endDate : string) :
    list string → World → Res (list Transaction) → World → Prop :=
| tries_none w :
    tries E startDate endDate [] w (Ok []) w
| tries_fail variant rest w e w' :
    getSwapsByContract E variant 100 startDate endDate w = (Throw e, w') →
    tries E startDate endDate (variant :: rest) w (Throw e) w'
| tries_hit variant rest w resp w' :
    getSwapsByContract E variant 100 startDate endDate w = (Ok resp, w') →
    hits variant (data resp) ≠ [] →
    tries E startDate endDate (variant :: rest) w (Ok (hits variant (data resp))) w'
| tries_miss variant rest w resp w' out w'' :
    getSwapsByContract E variant 100 startDate endDate w = (Ok resp, w') →
    hits variant (data resp) = [] →
    tries E startDate endDate rest w' out w'' →
    tries E startDate endDate (variant :: rest) w out w''.

End SpecSwap.

(** ** Predicates for failures *)

Module SpecFailure.

(** The upstream is down: whatever is asked, every attempt throws. *)
Definition upstream_down (E : Env) : Prop :=
  (∀ k rq, ∃ e, SpecClient.attempt_throws (fetch_txs E k rq) e)
  ∧ (∀ k rq, ∃ e, SpecClient.attempt_throws (fetch_prices E k rq) e).

(** The query never rejects. *)
Definition resolves (q : ValidationQuery) : Prop :=
  ∀ w, ∃ r w', execute q w = (Ok r, w').

(** An error thrown by [body] is turned by [q] into the empty result. *)
Definition absorbs (body : M ValidationResult) (q : ValidationQuery) : Prop :=
  ∀ w e w', body w = (Throw e, w') → execute q w = (Ok failed_result, w').

(** The query resolves unsatisfied and without matches. *)
Definition comes_back_empty (q : ValidationQuery) : Prop :=
  ∀ w, ∃ r w', execute q w = (Ok r, w') ∧ satisfied r = false ∧ matches r = [].

End SpecFailure.

(** ** Predicates for the runner *)

Module SpecRunner.

(** The computation never changes the [QuestValidation] table. *)
Definition keeps_validations {A} (m : M A) : Prop :=
  ∀ w, validations (snd (m w)) = validations w.

(** What the inner [catch] block stores as [errorMessage]. *)
Definition message_of (error : Exn) : string :=
  match error with
  | JsError message => message
  | NonError => "Unknown error during validation"
  end.

(** The row that record creation appends, and the world right after it. *)
Definition pending_row (quest : Quest) (w : World) : QuestValidation :=
  {| v_id := length (validations w);
     v_questId := quest_id quest;
     v_validatedAt := clock w;
     v_status := Pending;
     v_validationData := {| vd_criteria := criteria quest; vd_startTime := clock w |};
     v_errorMessage := None;
     v_nextValidationAt := None;
     v_validAddresses := [];
     v_processingTime := 0 |}.

(** The row as the runner leaves it at the end of the attempt. *)
Definition final_row (quest : Quest) (w : World) (st : ValidationStatus)
    (errorMessage : option string) (validAddresses : list string)
    (finished nextValidationAt : Z) : QuestValidation :=
  {| v_id := length (validations w);
     v_questId := quest_id quest;
     v_validatedAt := clock w;
     v_status := st;
     v_validationData := {| vd_criteria := criteria quest; vd_startTime := clock w |};
     v_errorMessage := errorMessage;
     v_nextValidationAt := Some nextValidationAt;
     v_validAddresses := validAddresses;
     v_processingTime := finished - clock w |}.

(** No stored row already carries the key the next insertion will get. *)
Definition fresh_key (w : World) : Prop :=
  ∀ row, row ∈ validations w → v_id row ≠ length (validations w).

(** The criteria types the runner dispatches on. *)
Definition supported (criteriaType : string) : Prop :=
  criteriaType ∈ ["swappedFor"; "firstNBuyers"; "minValueSwap"; "holdsToken"].

(** [v] is the quest's latest validation among [rows]. *)
Definition latest (questId : string) (rows : list QuestValidation)
    (v : QuestValidation) : Prop :=
  v ∈ rows ∧ v_questId v = questId
  ∧ ∀ v', v' ∈ rows → v_questId v' = questId → v_validatedAt v' ≤ v_validatedAt v.

End SpecRunner.

(** ** Predicates for [holdsToken] *)

Module SpecHold.

(** Probing the variants in order from world [w] for transfers of
    [userAddress]: the outcome is the first variant that has any transfer,
    with all the transfers fetched for it; [None] when no variant has one;
    the error of the first fetch that fails.  No variant after the first
    one with transfers is fetched. *)
Inductive probes (E : Env) (userAddress : string) :
    list string → World → Res (option (string * list Transaction)) → World → Prop :=
| probes_none w :
    probes E userAddress [] w (Ok None) w
| probes_fail variant rest w e w' :
    getTokenTransfers E userAddress variant 100 w = (Throw e, w') →
    probes E userAddress (variant :: rest) w (Throw e) w'
| probes_hit variant rest w resp w' transfers :
    getTokenTransfers E userAddress variant 100 w = (Ok resp, w') →
    data resp = Some transfers →
    transfers ≠ [] →
    probes E userAddress (variant :: rest) w (Ok (Some (variant, transfers))) w'
| probes_miss variant rest w resp w' out w'' :
    getTokenTransfers E userAddress variant 100 w = (Ok resp, w') →
    default [] (data resp) = [] →
    probes E userAddress rest w' out w'' →
    probes E userAddress (variant :: rest) w out w''.

(** What [holdsToken] resolves to, from the outcome of the probes. *)
Definition result_of (userAddress tokenPrincipal : string)
    (outcome : Res (option (string * list Transaction))) : ValidationResult :=
  match outcome with
  | Ok (Some (variant, transfers)) =>
      {| satisfied := true; matches := transfers;
         metadata := Some (MetaHolds userAddress variant (length transfers)) |}
  | Ok None =>
      {| satisfied := false; matches := [];
         metadata := Some (MetaNoTransfers userAddress tokenPrincipal
                             "No transfers found") |}
  | Throw _ => failed_result
  end.

End SpecHold.

(** ** Upstream load *)

Module SpecCost.

Definition total (delays : list Z) : Z := foldr Z.add 0 delays.

(** From any world, [m] makes at most [a] fetch attempts and sleeps at most
    [s] milliseconds in backoff. *)
Definition within {A} (a : nat) (s : Z) (m : M A) : Prop :=
  ∀ w, (length (net_log (snd (m w))) ≤ length (net_log w) + a)%nat
       ∧ total (sleeps (snd (m w))) ≤ total (sleeps w) + s.

End SpecCost.

(** ** Predicates for what the runner stores *)

Module SpecStore.

(** The run of [m] leaves the field [f] of the world as it was. *)
Definition keeps {A X} (f : World → X) (m : M A) : Prop :=
  ∀ w, f (snd (m w)) = f w.

(** The result row [row] records the match [m] of [result] for the
    validation [validationId] under [criteriaType]. *)
Definition records (validationId : nat) (criteriaType : string)
    (result : ValidationResult) (m : Transaction) (row : QuestValidationResult) : Prop :=
  r_validationId row = validationId
  ∧ r_userAddress row = user_address m
  ∧ r_isValid row = true
  ∧ r_criteriaType row = criteriaType
  ∧ r_resultData row
    = {| rd_tx_id := tx_id m;
         rd_block_height := block_height m;
         rd_block_time := block_time m;
         rd_swap_details := swap_details m;
         rd_metadata := metadata result |}.

(** The validator that the runner builds for a supported criteria type
    (the arguments of the four [case] blocks of the [switch]). *)
Definition validator_of (E : Env) (criteria : Criteria) : ValidationQuery :=
  let ps := params criteria in
  if String.eqb (ctype criteria) "swappedFor" then
    swappedFor E (p_tokenPrincipal ps) (Js.orZero (p_startTime ps)) (p_endTime ps)
  else if String.eqb (ctype criteria) "firstNBuyers" then
    firstNBuyers E (p_tokenPrincipal ps)
      (match p_numUsers ps with
       | Some k => if Js.truthyNum k then k else 10
       | None => 10
       end)%float
      (Js.orZero (p_minValueUsd ps))
      (Js.orZero (p_startTime ps))
  else if String.eqb (ctype criteria) "minValueSwap" then
    minValueSwap E (Js.orZero (p_minValueUsd ps)) (recentSwaps E)
  else
    holdsToken E
      (match p_userAddress ps with
       | Some a => if Js.truthy a then a else ""
       | None => ""
       end)
      (p_tokenPrincipal ps).

End SpecStore.

(** * Part III: lemmas and theorems *)

(** ** Booleans of the code against propositions *)

Lemma truthy_spec (s : string) : Js.truthy s = true ↔ s ≠ "".
Proof.
  unfold Js.truthy. rewrite negb_true_iff.
  destruct (String.eqb_spec s ""); split; congruence.
Qed.

Lemma List_filter_stdpp {A} (f : A → bool) (P : A → Prop) `{!∀ x, Decision (P x)}
    (l : list A) :
  (∀ x, f x = true ↔ P x) → List.filter f l = filter P l.
Proof.
  intros Hf. induction l as [|x l IH]; [done|].
  cbn [List.filter]. rewrite filter_cons, IH.
  destruct (decide (P x)) as [HP|HP].
  - apply Hf in HP. by rewrite HP.
  - destruct (f x) eqn:Hfx; [|done]. by apply Hf in Hfx.
Qed.

Lemma existsb_Exists_iff {A} (f : A → bool) (P : A → Prop) (l : list A) :
  (∀ x, f x = true ↔ P x) → existsb f l = true ↔ Exists P l.
Proof.
  intros Hf. rewrite existsb_exists, Exists_exists.
  split; intros (x & Hin & Hx); exists x; (split; [|by apply Hf]).
  - by apply list_elem_of_In.
  - by apply list_elem_of_In.
Qed.

Lemma nonempty_length {A} (l : list A) :
  (0 <? length l)%nat = bool_decide (l ≠ []).
Proof. by destruct l. Qed.

(** ** The AND combinator *)

Lemma pairs_spec (l r : Transaction) :
  combinators.pairs l r = true ↔ Spec.paired l r.
Proof.
  unfold combinators.pairs, Spec.paired.
  rewrite orb_true_iff, !andb_true_iff, !truthy_spec, !String.eqb_eq.
  split.
  - intros [[[H1 _] H2]|[[H1 _] H2]]; [left|right]; done.
  - intros [[H1 H2]|[H1 H2]]; [left|right]; repeat split; congruence.
Qed.

Lemma Promise_all2_ok {A B} (l : M A) (r : M B) w a w1 b w2 :
  l w = (Ok a, w1) → r w1 = (Ok b, w2) → Promise_all2 l r w = (Ok (a, b), w2).
Proof. intros Hl Hr. unfold Promise_all2. by rewrite Hl, Hr. Qed.

(** C1 (as amended): when both operands resolve, [and(L, R).execute()]
    resolves with exactly those matches of [L], in order, that share a
    non-empty [tx_id] or a non-empty [user_address] with some match of [R]
    (whether or not the two carry a [tx_id]), and it is satisfied exactly when
    both operands are and that intersection is not empty. *)
Theorem and_intersects_on_tx_id_or_address
    (L R : ValidationQuery) (w w1 w2 : World) (l r : ValidationResult) :
  execute L w = (Ok l, w1) →
  execute R w1 = (Ok r, w2) →
  ∃ res,
    execute (combinators.and L R) w = (Ok res, w2)
    ∧ matches res = filter (λ lm, Exists (Spec.paired lm) (matches r)) (matches l)
    ∧ satisfied res = satisfied l && satisfied r && bool_decide (matches res ≠ []).
Proof.
  intros HL HR. eexists. split.
  - unfold combinators.and, createBaseValidator, bind; cbn [execute].
    by rewrite (Promise_all2_ok _ _ _ _ _ _ _ HL HR).
  - cbn [fst snd]. unfold combinators.and_result; cbn [matches satisfied]. split.
    + apply List_filter_stdpp. intros lm.
      apply existsb_Exists_iff. intros rm. apply pairs_spec.
    + by rewrite nonempty_length.
Qed.

Lemma and_intersects_on_tx_id_or_address_witness :
  ∃ res,
    execute (combinators.and (Demo.constant (Demo.result_of [Demo.txA; Demo.txNoId]))
               (Demo.constant (Demo.result_of [Demo.txB]))) Demo.w0
      = (Ok res, Demo.w0)
    ∧ matches res
      = filter (λ lm, Exists (Spec.paired lm) [Demo.txB]) [Demo.txA; Demo.txNoId]
    ∧ satisfied res = true && true && bool_decide (matches res ≠ []).
Proof.
  apply (and_intersects_on_tx_id_or_address
           (Demo.constant (Demo.result_of [Demo.txA; Demo.txNoId]))
           (Demo.constant (Demo.result_of [Demo.txB]))
           Demo.w0 Demo.w0 Demo.w0
           (Demo.result_of [Demo.txA; Demo.txNoId]) (Demo.result_of [Demo.txB]));
    reflexivity.
Defined.

(** C1 (counterexample): two matches with distinct non-empty [tx_id]s and the
    same [user_address] are paired, although the claimed pairing excludes
    them. *)
Lemma and_pairs_distinct_tx_ids_by_address :
  tx_id Demo.txA = "0xaaa" ∧ tx_id Demo.txB = "0xbbb"
  ∧ user_address Demo.txA = user_address Demo.txB
  ∧ fst (execute (combinators.and (Demo.constant (Demo.result_of [Demo.txA]))
                    (Demo.constant (Demo.result_of [Demo.txB]))) Demo.w0)
    = Ok {| satisfied := true; matches := [Demo.txA];
            metadata := Some (MetaCombined 1 1 1) |}
  ∧ filter (λ lm, Exists (Spec.paired_as_claimed lm) [Demo.txB]) [Demo.txA] = [].
Proof. repeat split; vm_compute; reflexivity. Qed.

(** ** The OR combinator *)

Lemma first_with_its_id_app t l l' :
  Spec.first_with_its_id t l → Spec.first_with_its_id t (l ++ l').
Proof.
  intros (before & after & -> & Hnot). exists before, (after ++ l').
  split; [|done]. by rewrite <- app_assoc.
Qed.

Lemma unique_upto_start : unique_upto [] (∅, []).
Proof.
  split; cbn.
  - intros x. split; [set_solver|]. intros [_ H]. by apply elem_of_nil in H.
  - intros x. set_solver.
  - constructor.
  - constructor.
  - intros t H. by apply elem_of_nil in H.
Qed.

Lemma addUniqueMatches_invariant ms : ∀ done st,
  unique_upto done st → unique_upto (done ++ ms) (combinators.addUniqueMatches ms st).
Proof.
  induction ms as [|m ms IH]; intros done st Hinv.
  { by rewrite app_nil_r. }
  unfold combinators.addUniqueMatches. cbn [fold_left].
  replace (done ++ m :: ms) with ((done ++ [m]) ++ ms) by (by rewrite <- app_assoc).
  apply IH. destruct Hinv as [Hseen Hids Hnodup Hsub Hfirst].
  destruct (Js.truthy (tx_id m)) eqn:Htruthy; cbn [andb].
  - apply truthy_spec in Htruthy.
    destruct (bool_decide (tx_id m ∈ fst st)) eqn:Hmem; cbn [negb].
    + apply bool_decide_eq_true in Hmem.
      split; cbn [fst snd]; try done.
      * intros x. rewrite Hseen, map_app, elem_of_app. cbn.
        split; [naive_solver|]. intros [Hx [Hin|Hin]]; [done|].
        apply list_elem_of_singleton in Hin as ->. by apply Hseen.
      * by apply sublist_inserts_r.
      * intros t Ht. by apply first_with_its_id_app, Hfirst.
    + apply bool_decide_eq_false in Hmem.
      split; cbn [fst snd].
      * intros x. rewrite elem_of_union, elem_of_singleton, Hseen, map_app, elem_of_app.
        cbn. rewrite list_elem_of_singleton. naive_solver.
      * intros x. rewrite map_app, elem_of_app, Hids, elem_of_union, elem_of_singleton.
        cbn. rewrite list_elem_of_singleton. naive_solver.
      * rewrite map_app. cbn. apply NoDup_app. split; [done|]. split.
        -- intros x Hx ->%list_elem_of_singleton. by apply Hmem, Hids.
        -- apply NoDup_singleton.
      * by apply sublist_app.
      * intros t [Ht| ->%list_elem_of_singleton]%elem_of_app.
        -- by apply first_with_its_id_app, Hfirst.
        -- exists done, []. split; [done|]. intros Hin. apply Hmem, Hseen. done.
  - assert (tx_id m = "") as Hempty.
    { destruct (decide (tx_id m = "")) as [|Hne]; [done|].
      apply truthy_spec in Hne. congruence. }
    split; cbn [fst snd]; try done.
    + intros x. rewrite Hseen, map_app, elem_of_app. cbn.
      rewrite list_elem_of_singleton. naive_solver.
    + by apply sublist_inserts_r.
    + intros t Ht. by apply first_with_its_id_app, Hfirst.
Qed.




(** ** Floating-point facts behind [minValueSwap] *)













Lemma nan_shape : shape PrimFloat.nan = IsNaN.
Proof. reflexivity. Qed.









Section MinValue.

Variable E : Env.
Variable priceData : gmap string float.














End MinValue.




(** ** Numbers in order *)

Lemma SFcompare_keys (x y : spec_float) :
  x ≠ S754_nan → y ≠ S754_nan →
  match SFcompare x y with
  | Some Lt => SpecNumber.below (SpecNumber.key x) (SpecNumber.key y)
  | Some Gt => SpecNumber.below (SpecNumber.key y) (SpecNumber.key x)
  | Some Eq => SpecNumber.key x = SpecNumber.key y
  | None => False
  end.
Proof.
  intros Hx Hy. unfold SpecNumber.below.
  destruct x as [sx|sx| |sx mx ex], y as [sy|sy| |sy my ey]; try done;
    cbn [SFcompare SpecNumber.key];
    try (destruct sx; cbn; lia); try (destruct sy; cbn; lia);
    try (destruct sx, sy; cbn; first [lia|done]).
  change (PosDef.Pos.compare_cont Eq mx my) with (Pos.compare mx my).
  destruct sx, sy; cbn [fst snd]; try lia;
    destruct (Z.compare_spec ex ey) as [->| |]; try lia;
    destruct (Pos.compare_spec mx my) as [->| |]; cbn [CompOpp]; first [done|lia].
Qed.

Lemma triple_eq (p q : Z * Z * Z) :
  p = q ↔ p.1.1 = q.1.1 ∧ p.1.2 = q.1.2 ∧ p.2 = q.2.
Proof.
  destruct p as [[p1 p2] p3], q as [[q1 q2] q3]; cbn.
  split; [by intros [= -> -> ->]|by intros (-> & -> & ->)].
Qed.

Lemma not_nan_Prim2SF (x : float) :
  PrimFloat.is_nan x = false → Prim2SF x ≠ S754_nan.
Proof.
  unfold PrimFloat.is_nan. rewrite FloatAxioms.eqb_spec.
  intros H Hnan. by rewrite Hnan in H.
Qed.

(** How the numbers that are not NaN compare. *)
Lemma number_order (x y : float) :
  PrimFloat.is_nan x = false → PrimFloat.is_nan y = false →
  let kx := SpecNumber.key (Prim2SF x) in
  let ky := SpecNumber.key (Prim2SF y) in
  (Js.strictNeq x y = false ↔ kx = ky)
  ∧ (Js.signOfDifference x y < 0 ↔ SpecNumber.below kx ky)
  ∧ (0 < Js.signOfDifference x y ↔ SpecNumber.below ky kx)
  ∧ ((x <? y)%float = true ↔ SpecNumber.below kx ky)
  ∧ ((x =? y)%float = true ↔ kx = ky)
  ∧ ((x <=? y)%float = true ↔ SpecNumber.below kx ky ∨ kx = ky).
Proof.
  intros Hx%not_nan_Prim2SF Hy%not_nan_Prim2SF kx ky.
  pose proof (SFcompare_keys _ _ Hx Hy) as Hkeys. fold kx ky in Hkeys.
  unfold Js.strictNeq, Js.signOfDifference.
  rewrite FloatAxioms.compare_spec, FloatAxioms.eqb_spec, FloatAxioms.ltb_spec,
    FloatAxioms.leb_spec.
  unfold SFeqb, SFltb, SFleb.
  rewrite (triple_eq kx ky). unfold SpecNumber.below in *.
  destruct (SFcompare (Prim2SF x) (Prim2SF y)) as [[| |]|]; [| | |done];
    [apply triple_eq in Hkeys| |]; cbn; intuition (try done; try lia).
Qed.

(** ** The sorted, stable order, and when the engine's sort gives it *)

Lemma sort_insert_Permutation {A} (cmp : A → A → Z) x l :
  Js.sort_insert cmp x l ≡ₚ x :: l.
Proof.
  induction l as [|y l IH]; cbn; [done|].
  destruct (cmp x y <=? 0); [done|]. rewrite IH. apply Permutation_swap.
Qed.

Lemma stableSort_Permutation {A} (cmp : A → A → Z) l : Js.stableSort cmp l ≡ₚ l.
Proof.
  induction l as [|x l IH]; cbn; [done|].
  rewrite sort_insert_Permutation. by constructor.
Qed.

Section Sorting.

Context {A : Type} (cmp : A → A → Z) (R : A → A → Prop) (P : A → Prop).
Hypothesis R_before : ∀ x y, P x → P y → cmp x y ≤ 0 → R x y.
Hypothesis R_after : ∀ x y, P x → P y → 0 < cmp x y → R y x.
Hypothesis R_trans : ∀ x y z, P x → P y → P z → R x y → R y z → R x z.

Lemma sort_insert_Forall (Q : A → Prop) x l :
  Q x → Forall Q l → Forall Q (Js.sort_insert cmp x l).
Proof.
  intros Hx Hl. induction Hl as [|y l Hy Hl IH]; cbn.
  - by repeat constructor.
  - destruct (cmp x y <=? 0); repeat constructor; done.
Qed.

Lemma sort_insert_sorted x l :
  P x → Forall P l → StronglySorted R l → StronglySorted R (Js.sort_insert cmp x l).
Proof.
  intros Hx HP Hsorted. induction Hsorted as [|y l Hsorted IH Hall]; cbn.
  - by repeat constructor.
  - apply Forall_cons in HP as [Hy HP].
    destruct (cmp x y <=? 0) eqn:Hcmp.
    + apply Z.leb_le in Hcmp. constructor; [by constructor|].
      constructor; [by apply R_before|].
      rewrite Forall_forall in Hall, HP |- *. intros z Hz.
      apply (R_trans x y z); auto.
    + apply Z.leb_gt in Hcmp. constructor; [by apply IH|].
      apply sort_insert_Forall; [by apply R_after|done].
Qed.

Lemma stableSort_sorted l : Forall P l → StronglySorted R (Js.stableSort cmp l).
Proof.
  induction 1 as [|x l Hx Hl IH]; cbn; [constructor|].
  apply sort_insert_sorted; [done| |done].
  clear -Hl. induction Hl; cbn; [done|]. by apply sort_insert_Forall.
Qed.

End Sorting.

Lemma consistent_opposite {A} (cmp : A → A → Z) (l : list A) a b :
  SpecEngine.consistent cmp l → a ∈ l → b ∈ l →
  (0 < cmp a b → cmp b a < 0) ∧ (cmp a b < 0 → 0 < cmp b a).
Proof.
  intros Hc Ha Hb.
  destruct (Hc a b a Ha Hb Ha) as (Haa & Hsym & _ & Hlt & Hgt).
  destruct (Hc b a b Hb Ha Hb) as (_ & Hsym' & _ & _ & _).
  lia.
Qed.

(** With a consistent comparator no element of the stable sort compares
    after a later one. *)
Lemma stableSort_consistent {A} (cmp : A → A → Z) (l : list A) :
  SpecEngine.consistent cmp l →
  StronglySorted (λ a b, cmp a b ≤ 0) (Js.stableSort cmp l).
Proof.
  intros Hc. apply (stableSort_sorted cmp _ (λ x, x ∈ l)).
  - done.
  - intros x y Hx Hy Hxy. destruct (consistent_opposite cmp l x y Hc Hx Hy). lia.
  - intros x y z Hx Hy Hz Hxy Hyz.
    destruct (Hc x y z Hx Hy Hz) as (_ & _ & Heq & Hlt & _).
    destruct (Hc z x y Hz Hx Hy) as (_ & _ & _ & Hlt' & _).
    destruct (Hc y z x Hy Hz Hx) as (_ & _ & _ & Hlt'' & _).
    destruct (Hc x y x Hx Hy Hx) as (_ & Hsym & _).
    destruct (consistent_opposite cmp l x z Hc Hx Hz).
    destruct (consistent_opposite cmp l z y Hc Hz Hy).
    destruct (consistent_opposite cmp l y x Hc Hy Hx).
    lia.
  - by apply Forall_forall.
Qed.

Lemma StronglySorted_weaken {A} (R R' : A → A → Prop) (l : list A) :
  (∀ a b, a ∈ l → b ∈ l → R a b → R' a b) →
  StronglySorted R l → StronglySorted R' l.
Proof.
  intros Himpl Hsorted. induction Hsorted as [|x l Hsorted IH Hall].
  - constructor.
  - constructor.
    + apply IH. intros a b Ha Hb. apply Himpl; by right.
    + rewrite Forall_forall in Hall |- *. intros y Hy.
      apply Himpl; [by left|by right|by apply Hall].
Qed.

(** An engine that sorts stably whatever the comparator conforms. *)
Lemma stable_engine_conforms (E : Env) :
  Array_sort E = @Js.stableSort Transaction → SpecEngine.conforms E.
Proof.
  intros Heq cmp l. rewrite Heq. split; [apply stableSort_Permutation|done].
Qed.

(** ** The comparator of [firstNBuyers] *)

Lemma chronological_order (E : Env) (a b : Transaction) (ta tb : Z) :
  SpecBuyers.has_height a → SpecBuyers.has_height b →
  Date_getTime E (block_time a) = Some ta →
  Date_getTime E (block_time b) = Some tb →
  let ka := SpecNumber.key (Prim2SF (block_height a)) in
  let kb := SpecNumber.key (Prim2SF (block_height b)) in
  (chronological E a b < 0 ↔ SpecNumber.below ka kb ∨ (ka = kb ∧ ta < tb))
  ∧ (chronological E a b = 0 ↔ ka = kb ∧ ta = tb)
  ∧ (0 < chronological E a b ↔ SpecNumber.below kb ka ∨ (ka = kb ∧ tb < ta)).
Proof.
  intros Ha Hb Hta Htb ka kb.
  destruct (number_order _ _ Ha Hb) as (Hneq & Hlt & Hgt & _).
  fold ka kb in Hneq, Hlt, Hgt.
  unfold chronological. rewrite Hta, Htb.
  rewrite (triple_eq ka kb) in *. unfold SpecNumber.below in *.
  destruct (Js.strictNeq (block_height a) (block_height b)); lia.
Qed.

(** A comparator that follows a strict order of keys is consistent. *)
Lemma consistent_of_order {A K} (cmp : A → A → Z) (l : list A) (key : A → K)
    (lt : K → K → Prop) :
  (∀ x y z, lt x y → lt y z → lt x z) →
  (∀ a b, a ∈ l → b ∈ l →
     (cmp a b < 0 ↔ lt (key a) (key b))
     ∧ (cmp a b = 0 ↔ key a = key b)
     ∧ (0 < cmp a b ↔ lt (key b) (key a))) →
  SpecEngine.consistent cmp l.
Proof.
  intros Htrans Hcmp a b c Ha Hb Hc.
  destruct (Hcmp a a Ha Ha) as (_ & Haa & _).
  destruct (Hcmp a b Ha Hb) as (Hab1 & Hab2 & Hab3).
  destruct (Hcmp b a Hb Ha) as (_ & Hba2 & _).
  destruct (Hcmp b c Hb Hc) as (Hbc1 & Hbc2 & Hbc3).
  destruct (Hcmp a c Ha Hc) as (Hac1 & Hac2 & Hac3).
  split; [by apply Haa|].
  split; [intros ?%Hab2; by apply Hba2|].
  split; [intros ?%Hab2 ?%Hbc2; apply Hac2; congruence|].
  split; [intros ?%Hab1 ?%Hbc1; apply Hac1; eauto|].
  intros ?%Hab3 ?%Hbc3; apply Hac3; eauto.
Qed.

Lemma below_trans (p q r : Z * Z * Z) :
  SpecNumber.below p q → SpecNumber.below q r → SpecNumber.below p r.
Proof. unfold SpecNumber.below. lia. Qed.

Lemma chronological_consistent (E : Env) (l : list Transaction) :
  Forall SpecBuyers.has_height l → Forall (SpecBuyers.valid_time E) l →
  SpecEngine.consistent (chronological E) l.
Proof.
  rewrite !Forall_forall. intros Hheight Htime.
  apply (consistent_of_order _ _
           (λ t, (SpecNumber.key (Prim2SF (block_height t)),
                  default 0 (Date_getTime E (block_time t))))
           (λ p q, SpecNumber.below p.1 q.1 ∨ (p.1 = q.1 ∧ p.2 < q.2))).
  - intros [p tp] [q tq] [r tr]; cbn [fst snd].
    intros [Hpq|[-> Hpq]] [Hqr|[-> Hqr]].
    + left. by apply (below_trans p q r).
    + by left.
    + by left.
    + right. split; [done|lia].
  - intros a b Ha Hb. cbn [fst snd].
    destruct (Htime a Ha) as [ta Hta], (Htime b Hb) as [tb Htb].
    destruct (chronological_order E a b ta tb (Hheight a Ha) (Hheight b Hb) Hta Htb)
      as (Hlt & Heq & Hgt).
    rewrite Hta, Htb. cbn [default].
    split; [done|]. split.
    + rewrite Heq. split; [by intros [-> ->]|by intros [= -> ->]].
    + rewrite Hgt. split; (intros [?|[? ?]]; [by left|by right]).
Qed.

Lemma chronological_before (E : Env) (a b : Transaction) :
  SpecBuyers.has_height a → SpecBuyers.has_height b →
  SpecBuyers.valid_time E a → SpecBuyers.valid_time E b →
  chronological E a b ≤ 0 →
  SpecBuyers.chronologically E a b ∧ SpecBuyers.by_height a b.
Proof.
  intros Ha Hb [ta Hta] [tb Htb] Hle.
  destruct (chronological_order E a b ta tb Ha Hb Hta Htb) as (Hlt & Heq & _).
  destruct (number_order _ _ Ha Hb) as (_ & _ & _ & Hltb & Heqb & Hleb).
  unfold SpecBuyers.chronologically, SpecBuyers.by_height.
  rewrite Hltb, Heqb, Hleb.
  assert (chronological E a b < 0 ∨ chronological E a b = 0) as [H|H] by lia.
  - apply Hlt in H as [H|[H Ht]].
    + split; [by left|by left].
    + split; [right|by right]. split; [done|]. exists ta, tb. repeat split; [done..|lia].
  - apply Heq in H as [H Ht].
    split; [right|by right]. split; [done|]. exists ta, tb. repeat split; [done..|lia].
Qed.

(** What a conforming engine makes of candidates whose heights and times
    all compare. *)
Lemma sorted_chronologically (E : Env) (l : list Transaction) :
  SpecEngine.conforms E →
  Forall SpecBuyers.has_height l → Forall (SpecBuyers.valid_time E) l →
  Array_sort E (chronological E) l = Js.stableSort (chronological E) l
  ∧ StronglySorted (SpecBuyers.chronologically E) (Array_sort E (chronological E) l)
  ∧ StronglySorted SpecBuyers.by_height (Array_sort E (chronological E) l).
Proof.
  intros Hengine Hheight Htime.
  pose proof (chronological_consistent E l Hheight Htime) as Hc.
  destruct (Hengine (chronological E) l) as [_ Hstable].
  rewrite (Hstable Hc). split; [done|].
  pose proof (stableSort_consistent _ _ Hc) as Hsorted.
  assert (∀ a, a ∈ Js.stableSort (chronological E) l → a ∈ l) as Hin.
  { intros a. by rewrite stableSort_Permutation. }
  rewrite Forall_forall in Hheight, Htime.
  split; refine (StronglySorted_weaken _ _ _ _ Hsorted); intros a b Ha Hb Hle;
    apply Hin in Ha, Hb;
    by apply (chronological_before E a b (Hheight a Ha) (Hheight b Hb)
                (Htime a Ha) (Htime b Hb)).
Qed.

(** ** [firstNBuyers]: the collecting loop *)

Lemma Set_has_spec (s : list string) (x : string) : Js.Set_has s x = true ↔ x ∈ s.
Proof.
  unfold Js.Set_has. rewrite existsb_exists. split.
  - intros (y & Hin & ->%String.eqb_eq). by apply list_elem_of_In.
  - intros Hin. exists x. split; [by apply list_elem_of_In|apply String.eqb_refl].
Qed.

Lemma first_from_its_address_app t l l' :
  SpecBuyers.first_from_its_address t l → SpecBuyers.first_from_its_address t (l ++ l').
Proof.
  intros (before & after & -> & Hnot). exists before, (after ++ l').
  split; [|done]. by rewrite <- app_assoc.
Qed.

Lemma collected_start : collected [] [] [].
Proof.
  split; cbn.
  - done.
  - constructor.
  - constructor.
  - intros t H. by apply elem_of_nil in H.
  - intros t H. by apply elem_of_nil in H.
Qed.

Lemma collected_skip done u b swap :
  collected done u b →
  Js.truthy (user_address swap) && negb (Js.Set_has u (user_address swap)) = false →
  collected (done ++ [swap]) u b.
Proof.
  intros [Haddr Hnodup Hsub Hfirst Hcovers] Hcond. split; try done.
  - by apply sublist_inserts_r.
  - intros t Ht. destruct (Hfirst t Ht) as [Hne Hf].
    split; [done|by apply first_from_its_address_app].
  - intros t [Ht| ->%list_elem_of_singleton]%elem_of_app Hne; [by apply Hcovers|].
    apply truthy_spec in Hne. rewrite Hne in Hcond. cbn in Hcond.
    apply negb_false_iff in Hcond. by apply Set_has_spec.
Qed.

Lemma collected_push done u b swap :
  collected done u b →
  Js.truthy (user_address swap) && negb (Js.Set_has u (user_address swap)) = true →
  collected (done ++ [swap]) (Js.Set_add u (user_address swap)) (b ++ [swap]).
Proof.
  intros [Haddr Hnodup Hsub Hfirst Hcovers] [Hne Hnot]%andb_true_iff.
  apply truthy_spec in Hne. apply negb_true_iff in Hnot.
  assert (user_address swap ∉ u) as Hfresh.
  { intros Hin%Set_has_spec. congruence. }
  unfold Js.Set_add. rewrite Hnot. split.
  - by rewrite map_app, Haddr.
  - apply NoDup_app. split; [done|]. split; [|apply NoDup_singleton].
    by intros x Hx ->%list_elem_of_singleton.
  - by apply sublist_app.
  - intros t [Ht| ->%list_elem_of_singleton]%elem_of_app.
    + destruct (Hfirst t Ht) as [Hne' Hf].
      split; [done|by apply first_from_its_address_app].
    + split; [done|]. exists done, []. split; [done|].
      intros (t & Heq & Ht)%list_elem_of_fmap. apply Hfresh.
      rewrite Heq. apply Hcovers; [done|by rewrite <- Heq].
  - intros t [Ht| ->%list_elem_of_singleton]%elem_of_app Hne'.
    + apply elem_of_app. left. by apply Hcovers.
    + apply elem_of_app. right. by apply list_elem_of_singleton.
Qed.

Lemma reached_at_stop (n : float) (k : Z) (len : nat) :
  SpecBuyers.reached_at n k →
  Js.geqLen len n = bool_decide (k ≤ Z.of_nat len).
Proof.
  intros Hk. destruct (Js.geqLen len n) eqn:Hstop.
  - apply Hk in Hstop. by rewrite bool_decide_eq_true_2.
  - rewrite bool_decide_eq_false_2; [done|]. intros Hle%Hk. congruence.
Qed.

Lemma collectBuyers_spec (n : float) (k : Z) swaps :
  SpecBuyers.reached_at n k →
  ∀ done u b,
    collected done u b →
    Z.of_nat (length b) < k →
    ∃ pre post,
      done ++ swaps = pre ++ post
      ∧ collected pre (fst (collectBuyers n swaps u b)) (snd (collectBuyers n swaps u b))
      ∧ ((post = [] ∧ Z.of_nat (length (snd (collectBuyers n swaps u b))) < k)
         ∨ Z.of_nat (length (snd (collectBuyers n swaps u b))) = k).
Proof.
  intros Hk. induction swaps as [|swap rest IH]; intros done u b Hinv Hlen.
  { exists done, []. cbn. split; [done|]. split; [done|]. by left. }
  cbn [collectBuyers].
  destruct (Js.truthy (user_address swap)
            && negb (Js.Set_has u (user_address swap))) eqn:Hcond.
  - pose proof (collected_push _ _ _ _ Hinv Hcond) as Hinv'.
    rewrite (reached_at_stop n k _ Hk).
    destruct (decide (k ≤ Z.of_nat (length (b ++ [swap])))) as [Hstop|Hstop].
    + rewrite bool_decide_eq_true_2 by done.
      exists (done ++ [swap]), rest. cbn [fst snd].
      split; [by rewrite <- app_assoc|]. split; [done|]. right.
      rewrite length_app in *. cbn in *. lia.
    + rewrite bool_decide_eq_false_2 by done.
      destruct (IH _ _ _ Hinv') as (pre & post & Heq & Hfinal & Hend); [lia|].
      exists pre, post. split; [|done]. by rewrite <- Heq, <- app_assoc.
  - pose proof (collected_skip _ _ _ _ Hinv Hcond) as Hinv'.
    destruct (IH _ _ _ Hinv' Hlen) as (pre & post & Heq & Hfinal & Hend).
    exists pre, post. split; [|done]. by rewrite <- Heq, <- app_assoc.
Qed.

Lemma first_occurrence_test (u : list string) (t : Transaction) :
  Js.truthy (user_address t) && negb (Js.Set_has u (user_address t))
  = bool_decide (user_address t ≠ "" ∧ user_address t ∉ u).
Proof.
  destruct (Js.truthy (user_address t)) eqn:Hne; cbn [andb].
  - apply truthy_spec in Hne.
    destruct (Js.Set_has u (user_address t)) eqn:Hhas; cbn [negb].
    + apply Set_has_spec in Hhas. rewrite bool_decide_eq_false_2; [done|]. by intros [_ ?].
    + rewrite bool_decide_eq_true_2; [done|]. split; [done|].
      intros Hin%Set_has_spec. congruence.
  - rewrite bool_decide_eq_false_2; [done|]. intros [Hne' _].
    apply truthy_spec in Hne'. congruence.
Qed.

(** The loop computes the first [k] first occurrences. *)
Lemma collectBuyers_exact (n : float) (k : Z) swaps :
  SpecBuyers.reached_at n k →
  ∀ u b,
    Z.of_nat (length b) < k →
    snd (collectBuyers n swaps u b)
    = b ++ take (Z.to_nat k - length b) (SpecBuyers.first_occurrences_from u swaps).
Proof.
  intros Hk. induction swaps as [|swap rest IH]; intros u b Hlen.
  { cbn. by rewrite take_nil, app_nil_r. }
  cbn [collectBuyers SpecBuyers.first_occurrences_from].
  rewrite first_occurrence_test.
  destruct (bool_decide (user_address swap ≠ "" ∧ user_address swap ∉ u)) eqn:Hcond.
  - apply bool_decide_eq_true in Hcond as [_ Hfresh].
    assert (Js.Set_add u (user_address swap) = u ++ [user_address swap]) as ->.
    { unfold Js.Set_add. destruct (Js.Set_has u (user_address swap)) eqn:Hhas; [|done].
      by apply Set_has_spec in Hhas. }
    rewrite (reached_at_stop n k _ Hk).
    assert (Z.to_nat k - length b = S (Z.to_nat k - length (b ++ [swap])))%nat as ->.
    { rewrite length_app. cbn. lia. }
    cbn [take].
    destruct (decide (k ≤ Z.of_nat (length (b ++ [swap])))) as [Hstop|Hstop].
    + rewrite bool_decide_eq_true_2 by done. cbn [snd].
      replace (Z.to_nat k - length (b ++ [swap]))%nat with 0%nat by lia.
      by rewrite take_0.
    + rewrite bool_decide_eq_false_2 by done.
      rewrite IH by lia. by rewrite <- app_assoc.
  - by apply IH.
Qed.

Lemma selectFirstBuyers_walk (E : Env) tokenPrincipal (n : float) (k : Z) minValueUsd
    found :
  SpecBuyers.reached_at n k → 1 ≤ k →
  let sorted := Array_sort E (chronological E) found in
  let r := selectFirstBuyers E tokenPrincipal n minValueUsd found in
  matches r = take (Z.to_nat k) (SpecBuyers.first_occurrences sorted)
  ∧ (∃ walked rest,
       sorted = walked ++ rest
       ∧ collected walked (map user_address (matches r)) (matches r)
       ∧ (rest = [] ∨ Z.of_nat (length (matches r)) = k))
  ∧ Z.of_nat (length (matches r)) ≤ k
  ∧ satisfied r = bool_decide (Z.of_nat (length (matches r)) = k).
Proof.
  intros Hk Hpos sorted r.
  destruct (collectBuyers_spec n k sorted Hk [] [] [] collected_start)
    as (walked & rest & Heq & Hcol & Hend); [cbn; lia|].
  pose proof (collectBuyers_exact n k sorted Hk [] []) as Hexact.
  subst r. unfold selectFirstBuyers. fold sorted.
  destruct (collectBuyers n sorted [] []) as [u b]. cbn [fst snd] in *.
  cbn [matches satisfied].
  split. { rewrite Hexact by (cbn; lia). cbn. by rewrite Nat.sub_0_r. }
  split.
  { exists walked, rest. split; [done|]. split.
    - by rewrite <- (col_addresses _ _ _ Hcol).
    - destruct Hend as [[? ?]|?]; auto. }
  assert (Z.of_nat (length b) ≤ k) as Hlen by (destruct Hend as [[? ?]|?]; lia).
  split; [done|].
  rewrite (reached_at_stop n k _ Hk). apply bool_decide_ext. lia.
Qed.

(** [firstNBuyers] gathers its candidates, then selects among them. *)
Lemma firstNBuyers_selects (E : Env) tokenPrincipal (n minValueUsd startTime : float) w :
  ∃ r,
    execute (firstNBuyers E tokenPrincipal n minValueUsd startTime) w
    = (Ok r, snd (SpecBuyers.candidates E tokenPrincipal minValueUsd startTime w))
    ∧ match fst (SpecBuyers.candidates E tokenPrincipal minValueUsd startTime w) with
      | None => satisfied r = false ∧ matches r = []
      | Some found => r = selectFirstBuyers E tokenPrincipal n minValueUsd found
      end.
Proof.
  unfold firstNBuyers, createBaseValidator, try_catch; cbn [execute].
  unfold SpecBuyers.candidates, firstNBuyers_body, bind, ret.
  destruct (execute (swappedFor E tokenPrincipal startTime None) w)
    as [[swapResult|e] w1]; [|by eexists].
  destruct (satisfied swapResult); cbn [negb bool_decide]; [|by eexists].
  rewrite bool_decide_eq_false_2 by done.
  destruct (Js.gt minValueUsd PrimFloat.zero); [|by eexists].
  destruct (execute (minValueSwap E minValueUsd (λ w0, (Ok (matches swapResult), w0))) w1)
    as [[valueResult|e] w2]; [|by eexists].
  destruct (satisfied valueResult); cbn [negb]; [|by eexists].
  rewrite bool_decide_eq_false_2 by done. by eexists.
Qed.

Lemma collectBuyers_two_of_three (a b c : Transaction) :
  user_address a ≠ "" → user_address b = user_address a →
  user_address c ≠ "" → user_address c ≠ user_address a →
  snd (collectBuyers 2 [a; b; c] [] []) = [a; c].
Proof.
  intros Ha Hb Hc Hca. cbn [collectBuyers].
  apply truthy_spec in Ha, Hc. rewrite Hb, Ha, Hc.
  unfold Js.Set_add, Js.Set_has. cbn [existsb app length orb andb negb].
  rewrite String.eqb_refl. cbn [existsb app length orb andb negb].
  apply String.eqb_neq in Hca. rewrite Hca.
  cbn [existsb app length orb andb negb].
  change (Js.geqLen 1 2) with false. change (Js.geqLen 2 2) with true. done.
Qed.

(** On sample lengths and numbers, [Js.geqLen] is the comparison of the
    length, as a number, with the requested number. *)
Example geqLen_is_the_comparison_of_numbers :
  forallb
    (λ len,
       forallb
         (λ n, Bool.eqb (Js.geqLen (Z.to_nat len) n) (n <=? Js.ofZ len)%float)
         [0; 0.5; 1; 1.5; 2; 2.5; 3; 10; 99.5; 100; 100.25; 4294967295.5;
          0x1p+1000; 0x1p-1074; (-0); (-1); (-2.5); infinity; neg_infinity; nan]%float)
    [0; 1; 2; 3; 4; 9; 10; 99; 100; 101]
  = true.
Proof. vm_compute. reflexivity. Qed.

Lemma two_is_reached_at_two : SpecBuyers.reached_at 2 2.
Proof.
  intros len. unfold Js.geqLen.
  change (Prim2SF 2) with (S754_finite false 4503599627370496 (-51)).
  cbn [orb]. change (0 <=? -51) with false. cbv iota.
  change (2 ^ (- -51)) with 2251799813685248. rewrite Z.leb_le. lia.
Qed.

Lemma two_and_a_half_is_reached_at_three : SpecBuyers.reached_at 2.5 3.
Proof.
  intros len. unfold Js.geqLen.
  change (Prim2SF 2.5) with (S754_finite false 5629499534213120 (-51)).
  cbn [orb]. change (0 <=? -51) with false. cbv iota.
  change (2 ^ (- -51)) with 2251799813685248. rewrite Z.leb_le. lia.
Qed.

(** Every requested number that no empty list reaches, and that some list
    does reach (a positive finite number), asks for some count [k >= 1]. *)
Lemma reached_at_exists (n : float) :
  Js.geqLen 0 n = false → (∃ len, Js.geqLen len n = true) →
  ∃ k, 1 ≤ k ∧ SpecBuyers.reached_at n k.
Proof.
  unfold SpecBuyers.reached_at, Js.geqLen.
  destruct (Prim2SF n) as [[|]|[|]| |[|] m e]; cbn [orb];
    try done; try (by intros _ [len Hlen]).
  intros _ _. destruct (0 <=? e) eqn:He.
  - exists (Z.pos m * 2 ^ e). apply Z.leb_le in He. split.
    + pose proof (Z.pow_pos_nonneg 2 e). nia.
    + intros len. by rewrite Z.leb_le.
  - apply Z.leb_gt in He.
    assert (0 < 2 ^ (- e)) as Hd by (apply Z.pow_pos_nonneg; lia).
    set (d := 2 ^ (- e)) in *.
    exists ((Z.pos m + d - 1) / d).
    pose proof (Z.div_mod (Z.pos m + d - 1) d ltac:(lia)) as Hdiv.
    pose proof (Z.mod_pos_bound (Z.pos m + d - 1) d Hd) as Hmod.
    split; [apply Z.div_le_lower_bound; lia|].
    intros len. rewrite Z.leb_le. split.
    + intros Hle. apply Z.lt_succ_r, Z.div_lt_upper_bound; [done|]. nia.
    + intros Hle. nia.
Qed.

(** Heights 10, 10 and 20: whatever the block times, the comparator is
    consistent, and the third entry sorts last. *)
Lemma heights_10_10_20 (E : Env) (t1 t2 t3 : Transaction) :
  SpecEngine.conforms E →
  block_height t1 = 10%float → block_height t2 = 10%float →
  block_height t3 = 20%float →
  Array_sort E (chronological E) [t1; t2; t3]
  = if chronological E t1 t2 <=? 0 then [t1; t2; t3] else [t2; t1; t3].
Proof.
  intros Hengine H1 H2 H3.
  assert (chronological E t1 t3 = -1 ∧ chronological E t3 t1 = 1
          ∧ chronological E t2 t3 = -1 ∧ chronological E t3 t2 = 1)
    as (H13 & H31 & H23 & H32).
  { unfold chronological. rewrite H1, H2, H3. done. }
  assert (∀ t, chronological E t t = 0) as Hrefl.
  { intros t. unfold chronological.
    destruct (Js.strictNeq (block_height t) (block_height t)) eqn:Hneq.
    - unfold Js.strictNeq in Hneq. unfold Js.signOfDifference.
      rewrite FloatAxioms.compare_spec. rewrite FloatAxioms.eqb_spec in Hneq.
      unfold SFeqb in Hneq.
      destruct (SFcompare (Prim2SF (block_height t)) (Prim2SF (block_height t)))
        as [[| |]|] eqn:Hcmp; try done.
      + exfalso. revert Hcmp.
        destruct (Prim2SF (block_height t)) as [s|s| |s m e]; cbn; try done.
        * by destruct s.
        * rewrite Z.compare_refl, Pos.compare_cont_refl. by destruct s.
      + exfalso. revert Hcmp.
        destruct (Prim2SF (block_height t)) as [s|s| |s m e]; cbn; try done.
        * by destruct s.
        * rewrite Z.compare_refl, Pos.compare_cont_refl. by destruct s.
    - destruct (Date_getTime E (block_time t)); lia. }
  assert (chronological E t2 t1 = - chronological E t1 t2) as H21.
  { unfold chronological. rewrite H1, H2.
    change (Js.strictNeq 10 10) with false. cbv iota.
    destruct (Date_getTime E (block_time t1)), (Date_getTime E (block_time t2)); lia. }
  destruct (Hengine (chronological E) [t1; t2; t3]) as [_ Hstable].
  rewrite Hstable.
  - unfold Js.stableSort. cbn [foldr Js.sort_insert].
    rewrite H23. cbn [Z.leb Z.compare Js.sort_insert].
    destruct (chronological E t1 t2 <=? 0); [done|].
    rewrite H13. done.
  - intros a b c Ha Hb Hc.
    pose proof (Hrefl a) as Haa. revert Haa.
    set_unfold in Ha. set_unfold in Hb. set_unfold in Hc.
    destruct Ha as [->|[->|[->|[]]]], Hb as [->|[->|[->|[]]]], Hc as [->|[->|[->|[]]]];
      rewrite ?Hrefl, ?H13, ?H31, ?H23, ?H32, ?H21; lia.
Qed.

(** C3 (as amended).  [firstNBuyers] gathers its candidates (the matches of
    [swappedFor], filtered by [minValueSwap] when a positive minimum value
    is asked for), sorts them with the engine's sort under its (block
    height, block time) comparator, walks the sorted list keeping the first
    entry of each non-empty [user_address], and stops once the number of
    entries kept is [>= n]; [satisfied] tells whether it got there.

    Let [k >= 1] be the count that [n] asks for ([k = n] for an integer [n],
    [n] rounded up otherwise).  Then the returned matches are exactly the
    first [k] first occurrences of the sorted candidates: at most [k], with
    pairwise distinct, non-empty addresses, and [satisfied] holds exactly
    when there are [k].  The sorted list is a permutation of the candidates;
    when no block height is NaN and every block time is a valid date, it is
    the stable sort of the candidates, in ascending (block height, block
    time) order.  With block heights 10, 10, 20, addresses X, X, Y and [n =
    2], the result is the one of X's transactions that sorts first, followed
    by Y's. *)
Theorem firstNBuyers_keeps_first_n_unique_buyers
    (E : Env) (tokenPrincipal : string) (n : float) (k : Z)
    (minValueUsd startTime : float) (w : World) :
  SpecBuyers.reached_at n k →
  1 ≤ k →
  let gathered := SpecBuyers.candidates E tokenPrincipal minValueUsd startTime w in
  ∃ r,
    execute (firstNBuyers E tokenPrincipal n minValueUsd startTime) w = (Ok r, snd gathered)
    ∧ Z.of_nat (length (matches r)) ≤ k
    ∧ NoDup (map user_address (matches r))
    ∧ (∀ t, t ∈ matches r → user_address t ≠ "")
    ∧ satisfied r = Js.geqLen (length (matches r)) n
    ∧ satisfied r = bool_decide (Z.of_nat (length (matches r)) = k)
    ∧ match fst gathered with
      | None => matches r = []
      | Some found =>
          let sorted := Array_sort E (chronological E) found in
          matches r = take (Z.to_nat k) (SpecBuyers.first_occurrences sorted)
          ∧ (∃ walked rest,
               sorted = walked ++ rest
               ∧ sublist (matches r) walked
               ∧ (∀ t, t ∈ matches r → SpecBuyers.first_from_its_address t sorted)
               ∧ (∀ t, t ∈ walked → user_address t ≠ "" →
                    user_address t ∈ map user_address (matches r))
               ∧ (rest = [] ∨ Z.of_nat (length (matches r)) = k))
          ∧ (SpecEngine.conforms E → sorted ≡ₚ found)
          ∧ (SpecEngine.conforms E →
             Forall SpecBuyers.has_height found →
             Forall (SpecBuyers.valid_time E) found →
             sorted = Js.stableSort (chronological E) found
             ∧ StronglySorted (SpecBuyers.chronologically E) sorted
             ∧ StronglySorted SpecBuyers.by_height sorted)
          ∧ (∀ t1 t2 t3,
               SpecEngine.conforms E → found = [t1; t2; t3] → n = 2%float →
               block_height t1 = 10%float → block_height t2 = 10%float →
               block_height t3 = 20%float →
               user_address t1 ≠ "" → user_address t2 = user_address t1 →
               user_address t3 ≠ "" → user_address t3 ≠ user_address t1 →
               matches r = [if chronological E t1 t2 <=? 0 then t1 else t2; t3])
      end.
Proof.
  intros Hk Hpos gathered.
  destruct (firstNBuyers_selects E tokenPrincipal n minValueUsd startTime w)
    as (r & Hrun & Hselect). fold gathered in Hrun, Hselect.
  exists r. split; [done|].
  destruct (fst gathered) as [found|].
  2:{ destruct Hselect as [Hsat Hnone]. rewrite Hnone, Hsat. cbn.
      split; [lia|]. split; [constructor|].
      split; [intros t Ht; by apply elem_of_nil in Ht|].
      split.
      { rewrite (reached_at_stop n k 0 Hk). rewrite bool_decide_eq_false_2; [done|lia]. }
      split; [|done]. rewrite bool_decide_eq_false_2; [done|lia]. }
  destruct (selectFirstBuyers_walk E tokenPrincipal n k minValueUsd found Hk Hpos)
    as (Hexact & (walked & rest & Heq & Hcol & Hend) & Hlen & Hsat).
  rewrite <- Hselect in Hexact, Hcol, Hend, Hlen, Hsat.
  split; [done|]. split; [exact (col_nodup _ _ _ Hcol)|].
  split; [intros t Ht; by apply (col_first _ _ _ Hcol t Ht)|].
  split.
  { rewrite Hsat, (reached_at_stop n k _ Hk). apply bool_decide_ext. lia. }
  split; [done|]. cbv zeta.
  split; [done|]. split.
  { exists walked, rest. split; [done|].
    split; [exact (col_sublist _ _ _ Hcol)|].
    split.
    - intros t Ht. destruct (col_first _ _ _ Hcol t Ht) as [_ Hfirst].
      rewrite Heq. by apply first_from_its_address_app.
    - split; [exact (col_covers _ _ _ Hcol)|done]. }
  split; [intros Hengine; apply Hengine|].
  split; [intros Hengine Hheight Htime; by apply sorted_chronologically|].
  intros t1 t2 t3 Hengine -> -> H1 H2 H3 Ha1 Ha2 Ha3 Hne.
  rewrite Hselect. unfold selectFirstBuyers.
  rewrite (heights_10_10_20 E t1 t2 t3 Hengine H1 H2 H3).
  destruct (chronological E t1 t2 <=? 0).
  - pose proof (collectBuyers_two_of_three t1 t2 t3 Ha1 Ha2 Ha3 Hne) as Hres.
    destruct (collectBuyers 2 [t1; t2; t3] [] []) as [u b].
    cbn [snd] in Hres. by subst b.
  - assert (user_address t2 ≠ "") as Ha2' by congruence.
    assert (user_address t3 ≠ user_address t2) as Hne' by congruence.
    pose proof (collectBuyers_two_of_three t2 t1 t3 Ha2' (eq_sym Ha2) Ha3 Hne') as Hres.
    destruct (collectBuyers 2 [t2; t1; t3] [] []) as [u b].
    cbn [snd] in Hres. by subst b.
Qed.

Lemma firstNBuyers_keeps_first_n_unique_buyers_witness :
  SpecBuyers.reached_at 2 2
  ∧ 1 ≤ 2
  ∧ fst (SpecBuyers.candidates Demo.env_up Demo.TOKEN 0 0 Demo.w0)
    = Some [Demo.swap2; Demo.swap3; Demo.swap1]
  ∧ ∃ r w',
      execute (firstNBuyers Demo.env_up Demo.TOKEN 2 0 0) Demo.w0 = (Ok r, w')
      ∧ matches r
        = take 2 (SpecBuyers.first_occurrences
                    (Js.stableSort (chronological Demo.env_up)
                       [Demo.swap2; Demo.swap3; Demo.swap1]))
      ∧ matches r = [Demo.swap1; Demo.swap3]
      ∧ satisfied r = true
      ∧ SpecBuyers.reached_at 2.5 3
      ∧ ∃ r' w'',
          execute (firstNBuyers Demo.env_crowd Demo.TOKEN 2.5 0 0) Demo.w0 = (Ok r', w'')
          ∧ length (matches r') = 3%nat
          ∧ satisfied r' = true.
Proof.
  split; [exact two_is_reached_at_two|]. split; [lia|].
  split; [vm_compute; reflexivity|].
  destruct (firstNBuyers_keeps_first_n_unique_buyers Demo.env_up Demo.TOKEN 2 2 0 0
              Demo.w0 two_is_reached_at_two)
    as (r & Hrun & _ & _ & _ & _ & Hsat & Hfound); [lia|].
  exists r, (snd (SpecBuyers.candidates Demo.env_up Demo.TOKEN 0 0 Demo.w0)).
  split; [exact Hrun|].
  change (fst (SpecBuyers.candidates Demo.env_up Demo.TOKEN 0 0 Demo.w0))
    with (Some [Demo.swap2; Demo.swap3; Demo.swap1]) in Hfound.
  destruct Hfound as (Hexact & _).
  split; [exact Hexact|].
  assert (matches r = [Demo.swap1; Demo.swap3]) as Hmatches.
  { rewrite Hexact. vm_compute. reflexivity. }
  split; [exact Hmatches|]. split; [rewrite Hsat, Hmatches; reflexivity|].
  split; [exact two_and_a_half_is_reached_at_three|].
  destruct (firstNBuyers_keeps_first_n_unique_buyers Demo.env_crowd Demo.TOKEN 2.5 3 0 0
              Demo.w0 two_and_a_half_is_reached_at_three)
    as (r' & Hrun' & _ & _ & _ & _ & Hsat' & Hfound'); [lia|].
  exists r', (snd (SpecBuyers.candidates Demo.env_crowd Demo.TOKEN 0 0 Demo.w0)).
  split; [exact Hrun'|].
  change (fst (SpecBuyers.candidates Demo.env_crowd Demo.TOKEN 0 0 Demo.w0))
    with (Some [Demo.swap5; Demo.swap1; Demo.swap4; Demo.swap3]) in Hfound'.
  destruct Hfound' as (Hexact' & _).
  assert (matches r' = [Demo.swap1; Demo.swap3; Demo.swap4]) as Hmatches'.
  { rewrite Hexact'. vm_compute. reflexivity. }
  rewrite Hsat', Hmatches'. split; reflexivity.
Defined.

(** C3 (counterexample): asked for the first 0 buyers, [firstNBuyers]
    returns one match, which is more than [n]; asked for the first 2.5
    buyers of a token that four addresses bought, it returns three. *)
Lemma firstNBuyers_returns_a_match_for_n_zero :
  (∃ r, fst (execute (firstNBuyers Demo.env_up Demo.TOKEN 0 0 0) Demo.w0) = Ok r
        ∧ matches r = [Demo.swap1]
        ∧ satisfied r = true
        ∧ (0 <? Z.of_nat (length (matches r))) = true)
  ∧ ∃ r, fst (execute (firstNBuyers Demo.env_crowd Demo.TOKEN 2.5 0 0) Demo.w0) = Ok r
         ∧ matches r = [Demo.swap1; Demo.swap3; Demo.swap4]
         ∧ satisfied r = true
         ∧ (2 <? Z.of_nat (length (matches r))) = true.
Proof.
  split; (eexists; split; [vm_compute; reflexivity|]; repeat split).
Qed.

(** ** The Data Client's retry loop *)

Lemma replicate_app_cons {A} (n : nat) (x : A) (l : list A) :
  replicate n x ++ x :: l = replicate (S n) x ++ l.
Proof. induction n as [|n IH]; cbn; [done|]. by rewrite IH. Qed.

Section Retry.

Variable E : Env.
Context {T : Type}.
Variable cfg : KraxelConfig.
Variable oracle : nat → HttpRequest → FetchOutcome T.
Variable rq : HttpRequest.

Lemma fetch_attempt_throws w e :
  SpecClient.attempt_throws (oracle (length (net_log w)) rq) e →
  fetch_attempt E oracle rq w
  = (Throw e, log_fetch rq (set_clock (clock w + latency E (ticks w)) w)).
Proof. unfold fetch_attempt. by intros []. Qed.

Lemma fetch_attempt_logs w :
  net_log (snd (fetch_attempt E oracle rq w)) = rq :: net_log w
  ∧ sleeps (snd (fetch_attempt E oracle rq w)) = sleeps w.
Proof.
  unfold fetch_attempt.
  destruct (oracle _ rq) as [e|[|] code txt [d|e]]; done.
Qed.

Lemma request_loop_exhausts : ∀ remaining attempts w (errs : nat → Exn),
  (remaining + attempts = maxRetries cfg)%nat →
  (0 < remaining)%nat →
  (∀ i, (i < remaining)%nat →
     SpecClient.attempt_throws (oracle (length (net_log w) + i)%nat rq) (errs i)) →
  ∃ w',
    request_loop E cfg oracle rq remaining attempts w
    = (Throw (errs (remaining - 1)%nat), w')
    ∧ net_log w' = replicate remaining rq ++ net_log w
    ∧ sleeps w'
      = rev (map SpecClient.backoff (seq (S attempts) (remaining - 1))) ++ sleeps w.
Proof.
  induction remaining as [|remaining IH]; intros attempts w errs Hsum Hpos Hthrows;
    [lia|].
  cbn [request_loop]. unfold try_catch.
  rewrite (fetch_attempt_throws w (errs 0%nat)).
  2:{ specialize (Hthrows 0%nat). rewrite Nat.add_0_r in Hthrows. apply Hthrows. lia. }
  set (w1 := log_fetch rq _).
  destruct (maxRetries cfg <=? S attempts)%nat eqn:Hmax.
  - apply Nat.leb_le in Hmax. assert (remaining = 0%nat) as -> by lia.
    exists w1. done.
  - apply Nat.leb_gt in Hmax.
    unfold bind, sleep.
    destruct (IH (S attempts) (log_sleep (2 ^ Z.of_nat (S attempts) * 100) w1)
                (λ i, errs (S i)))
      as (w' & Hrun & Hlog & Hsleeps); [lia|lia| |].
    { intros i Hi. subst w1. cbn [log_sleep net_log log_fetch set_clock length].
      replace (S (length (net_log w)) + i)%nat with (length (net_log w) + S i)%nat by lia.
      apply Hthrows. lia. }
    exists w'. rewrite Hrun. split; [|split].
    + do 2 f_equal. f_equal. lia.
    + rewrite Hlog. subst w1. cbn [log_sleep net_log log_fetch set_clock].
      apply replicate_app_cons.
    + rewrite Hsleeps. subst w1. cbn [log_sleep sleeps log_fetch set_clock].
      destruct remaining as [|r]; [lia|].
      replace (S (S r) - 1)%nat with (S (S r - 1)) by lia.
      cbn [seq map rev]. rewrite <- app_assoc. cbn [app].
      unfold SpecClient.backoff at 3. do 2 f_equal. lia.
Qed.

Lemma request_loop_bounded : ∀ remaining attempts w,
  ∃ k, (k ≤ remaining)%nat
       ∧ net_log (snd (request_loop E cfg oracle rq remaining attempts w))
         = replicate k rq ++ net_log w.
Proof.
  induction remaining as [|remaining IH]; intros attempts w.
  { by exists 0%nat. }
  cbn [request_loop]. unfold try_catch.
  destruct (fetch_attempt_logs w) as [Hlog _].
  destruct (fetch_attempt E oracle rq w) as [[d|e] w1]; cbn [snd] in *.
  { exists 1%nat. split; [lia|done]. }
  destruct (maxRetries cfg <=? S attempts)%nat.
  { exists 1%nat. split; [lia|done]. }
  unfold bind, sleep.
  destruct (IH (S attempts) (log_sleep (2 ^ Z.of_nat (S attempts) * 100) w1))
    as (k & Hk & Hnet).
  exists (S k). split; [lia|]. rewrite Hnet. cbn [log_sleep net_log]. rewrite Hlog.
  apply replicate_app_cons.
Qed.

End Retry.

(** C7: a request makes at most 3 attempts whatever the upstream does; when
    each attempt throws (network failure, non-2xx response or unreadable
    body), exactly 3 attempts are made, the delay slept after the failed
    attempt number [a] is [100 * 2^a] milliseconds (200 then 400), and the
    request fails with the error of the last attempt. *)
Theorem request_retries_three_times_then_fails
    (E : Env) {T : Type} (oracle : nat → HttpRequest → FetchOutcome T)
    (endpoint : string) (params : list (string * option string)) (w : World)
    (errs : nat → Exn) :
  let rq := SpecClient.request_of DEFAULT_CONFIG endpoint params in
  (∀ i, (i < 3)%nat →
     SpecClient.attempt_throws (oracle (length (net_log w) + i)%nat rq) (errs i)) →
  (∀ (oracle' : nat → HttpRequest → FetchOutcome T) (w0 : World), ∃ k,
     (k ≤ 3)%nat
     ∧ net_log (snd (request E DEFAULT_CONFIG oracle' endpoint params w0))
       = replicate k rq ++ net_log w0)
  ∧ ∃ w',
      request E DEFAULT_CONFIG oracle endpoint params w = (Throw (errs 2%nat), w')
      ∧ net_log w' = [rq; rq; rq] ++ net_log w
      ∧ sleeps w' = [SpecClient.backoff 2; SpecClient.backoff 1] ++ sleeps w
      ∧ SpecClient.backoff 1 = 200 ∧ SpecClient.backoff 2 = 400.
Proof.
  intros rq Hthrows. split.
  { intros oracle' w0. apply (request_loop_bounded E DEFAULT_CONFIG oracle' rq 3 0 w0). }
  destruct (request_loop_exhausts E DEFAULT_CONFIG oracle rq 3 0 w errs)
    as (w' & Hrun & Hlog & Hsleeps); [done|lia|done|].
  exists w'. done.
Qed.

Lemma request_retries_three_times_then_fails_witness :
  ∃ w',
    getRecentSwaps Demo.env_down 100 Demo.w0 = (Throw (JsError "fetch failed"), w')
    ∧ length (net_log w') = 3%nat
    ∧ sleeps w' = [400; 200].
Proof.
  destruct (request_retries_three_times_then_fails Demo.env_down
              (fetch_txs Demo.env_down) "/swaps" [("limit", Some (pretty 100))]
              Demo.w0 (λ _, JsError "fetch failed"))
    as [_ (w' & Hrun & Hlog & Hsleeps & _)].
  { intros i _. constructor. }
  exists w'. split; [exact Hrun|]. split; [by rewrite Hlog|exact Hsleeps].
Defined.

(** ** [swappedFor]: the last-leg test and the loop over variants *)

Lemma prefix_separator (s : string) :
  String.prefix "::" s = true ↔ ∃ rest, s = String ":" (String ":" rest).
Proof.
  destruct s as [|a [|b rest]]; cbn [String.prefix].
  - split; [done|]. by intros [? ?].
  - destruct (ascii_dec ":" a); (split; [done|]); intros [? H]; inversion H.
  - destruct (ascii_dec ":" a) as [<-|Ha], (ascii_dec ":" b) as [<-|Hb].
    + split; [by exists rest|]. intros _. by destruct rest.
    + split; [done|]. intros [? H]. inversion H. congruence.
    + split; [done|]. intros [? H]. inversion H. congruence.
    + split; [done|]. intros [? H]. inversion H. congruence.
Qed.

Lemma append_cons c (s1 s2 : string) : String c s1 +:+ s2 = String c (s1 +:+ s2).
Proof. reflexivity. Qed.

Lemma append_empty (s : string) : "" +:+ s = s.
Proof. reflexivity. Qed.

Lemma splitHead_head_char c r c' h :
  Js.splitHead "::" (String c r) = String c' h → c' = c.
Proof. cbn -[String.prefix]. destruct (String.prefix _ _); congruence. Qed.

Lemma splitHead_stripped (s : string) : SpecSwap.stripped s (Js.splitHead "::" s).
Proof.
  split.
  - induction s as [|c r IH]; [by left|].
    cbn -[String.prefix]. destruct (String.prefix "::" (String c r)) eqn:Hp.
    + right. apply prefix_separator in Hp as [rest ->]. by exists rest.
    + destruct IH as [<-|[suffix Hs]]; [by left|].
      right. exists suffix. by rewrite append_cons, <- Hs.
  - induction s as [|c r IH]; intros before after.
    + destruct before as [|? before]; [done|]. by rewrite append_cons.
    + cbn -[String.prefix]. destruct (String.prefix "::" (String c r)) eqn:Hp.
      { destruct before as [|? before]; [done|]. by rewrite append_cons. }
      destruct before as [|c' before'].
      * rewrite append_empty, !append_cons, append_empty. intros [= -> Hrest].
        assert (String.prefix "::" (String ":" r) = true) as Hp'; [|congruence].
        apply prefix_separator. destruct r as [|c2 r2]; [done|].
        apply splitHead_head_char in Hrest as ->. by exists r2.
      * rewrite append_cons. intros [= _ Hrest]. by apply IH in Hrest.
Qed.

Lemma some_last_leg (g : SwapDetail → bool) (array : list SwapDetail) :
  ∀ rest index,
    (index + length rest = length array)%nat →
    Js.some_from
      (λ detail index array,
         (Z.of_nat index =? Z.of_nat (length array) - 1) && g detail)
      array index rest = true
    ↔ ∃ d, last rest = Some d ∧ g d = true.
Proof.
  induction rest as [|x rest IH]; intros index Hlen; cbn [Js.some_from].
  { split; [done|]. by intros (d & Hd & _). }
  cbn [length] in Hlen. rewrite orb_true_iff, andb_true_iff, Z.eqb_eq.
  destruct rest as [|y rest].
  - cbn. split.
    + intros [[_ Hg]|Hf]; [by exists x|done].
    + intros (d & [= <-] & Hg). left. split; [cbn in Hlen; lia|done].
  - rewrite (IH (S index)) by (cbn [length] in *; lia).
    rewrite last_cons_cons. split.
    + intros [[Hidx _]|H]; [cbn [length] in *; lia|done].
    + intros H. by right.
Qed.

Lemma lastLegBuys_spec (token : string) (t : Transaction) :
  lastLegBuys token t = true ↔ SpecSwap.buys token t.
Proof.
  unfold lastLegBuys, SpecSwap.buys, SpecSwap.bought, SpecSwap.last_leg, Js.some.
  destruct (swap_details t) as [legs|]; cbn; [|done].
  rewrite (some_last_leg
             (λ d, String.eqb (Js.splitHead "::" (out_asset d)) token) legs legs 0)
    by done.
  destruct (last legs) as [d|]; cbn.
  - split.
    + intros (d' & [= <-] & Hd). apply String.eqb_eq in Hd. by rewrite Hd.
    + intros [= Hd]. exists d. split; [done|]. by apply String.eqb_eq.
  - split; [by intros (d & Hd & _)|done].
Qed.

Lemma swappedFor_filter (token : string) (fetched : list Transaction) :
  List.filter (lastLegBuys token) fetched = SpecSwap.hits token (Some fetched).
Proof. apply List_filter_stdpp. intros t. apply lastLegBuys_spec. Qed.

Lemma swappedFor_loop_tries (E : Env) (startDate endDate : string) variants :
  ∀ w,
    SpecSwap.tries E startDate endDate variants w
      (fst (swappedFor_loop E startDate endDate variants [] w))
      (snd (swappedFor_loop E startDate endDate variants [] w)).
Proof.
  induction variants as [|variant rest IH]; intros w; [constructor|].
  cbn [swappedFor_loop]. unfold bind.
  destruct (getSwapsByContract E variant 100 startDate endDate w)
    as [[resp|e] w'] eqn:Hfetch; [|by constructor].
  destruct (data resp) as [fetched|] eqn:Hdata.
  - destruct fetched as [|t fetched]; cbn [length Nat.ltb Nat.leb].
    { eapply SpecSwap.tries_miss; [done|by rewrite Hdata|apply IH]. }
    change (0 <? S (length fetched))%nat with true. cbv iota.
    rewrite swappedFor_filter.
    destruct (SpecSwap.hits variant (Some (t :: fetched))) as [|m ms] eqn:Hhits.
    + cbn. eapply SpecSwap.tries_miss; [done|by rewrite Hdata|apply IH].
    + cbn. rewrite <- Hhits, <- Hdata.
      eapply SpecSwap.tries_hit; [done|]. by rewrite Hdata, Hhits.
  - eapply SpecSwap.tries_miss; [done|by rewrite Hdata|apply IH].
Qed.

Lemma tries_single_variant (E : Env) startDate endDate variants w ms w' :
  SpecSwap.tries E startDate endDate variants w (Ok ms) w' →
  ms = [] ∨ ∃ variant, variant ∈ variants ∧ ∀ t, t ∈ ms → SpecSwap.buys variant t.
Proof.
  intros Htries. remember (Ok ms) as out eqn:Hout.
  induction Htries as [w|variant rest w e w' Hfetch|variant rest w resp w' Hfetch Hhit
                       |variant rest w resp w' out w'' Hfetch Hmiss Htries IH].
  - injection Hout as <-. by left.
  - done.
  - injection Hout as <-. right. exists variant. split; [by left|].
    intros t Ht. unfold SpecSwap.hits in Ht. by apply list_elem_of_filter in Ht as [? _].
  - destruct (IH Hout) as [->|(v & Hv & Hall)]; [by left|].
    right. exists v. split; [by right|done].
Qed.

Lemma normalizeTokenPrincipal_head (tokenPrincipal : string) :
  Js.trim tokenPrincipal ∈ normalizeTokenPrincipal tokenPrincipal.
Proof.
  unfold normalizeTokenPrincipal. destruct (Js.includes _ _); [|by left].
  apply elem_of_app. left. by left.
Qed.

Lemma swappedFor_body_spec (E : Env) tokenPrincipal startTime endTime w :
  let stop := SpecSwap.window_end endTime w in
  swappedFor_body E tokenPrincipal startTime endTime w
  = if Js.validTime (startTime * 1000) && Js.validTime (stop * 1000) then
      match swappedFor_loop E (isoFormat E (startTime * 1000)%float)
              (isoFormat E (stop * 1000)%float)
              (normalizeTokenPrincipal tokenPrincipal) [] w with
      | (Ok found, w') =>
          (Ok (SpecSwap.result_of tokenPrincipal startTime stop (Ok found)), w')
      | (Throw e, w') => (Throw e, w')
      end
    else (Throw (JsError "Invalid time value"), w).
Proof.
  intros stop. unfold swappedFor_body, bind, Date_now, toISOString.
  fold (SpecSwap.window_end endTime w). fold stop.
  destruct (Js.validTime (startTime * 1000)); [|done]. cbn [ret andb].
  destruct (Js.validTime (stop * 1000)); [|done]. cbn [ret].
  destruct (swappedFor_loop E _ _ _ [] w) as [[found|e] w']; [|done].
  unfold SpecSwap.result_of. by rewrite nonempty_length.
Qed.

(** The variants are tried in one way only. *)
Lemma tries_functional (E : Env) startDate endDate variants w out1 w1 out2 w2 :
  SpecSwap.tries E startDate endDate variants w out1 w1 →
  SpecSwap.tries E startDate endDate variants w out2 w2 →
  out1 = out2 ∧ w1 = w2.
Proof.
  intros Hone. revert out2 w2.
  induction Hone as [w|variant rest w e w' Hfetch|variant rest w resp w' Hfetch Hhit
                     |variant rest w resp w' out w'' Hfetch Hmiss Hone IH];
    intros out2 w2 Htwo; inversion Htwo; subst; try done;
    match goal with
    | H : getSwapsByContract _ _ _ _ _ _ = _ |- _ => rewrite Hfetch in H; injection H as ? ?
    end; subst; try done.
  by apply IH.
Qed.

(** C5: [swappedFor] always resolves; a transaction is tested by the last
    leg of its [swap_details] only, whose [out_asset] cut before the first
    ["::"] must equal the variant under test; the variants are fetched in
    order and the walk ends at the first variant with a match, whose matches
    alone are returned (nothing when no variant has one, and the empty
    result when a fetch throws); [satisfied] tells whether there is a match.

    The result is the one result that trying the variants in order gives,
    over the window from [startTime] to [endTime] (the current time when no
    end is given), and the calls made are the calls of these tries; when
    either end of the window is not a valid time, no variant is fetched and
    the result is the empty one. *)
Theorem swappedFor_matches_last_leg_of_first_hit
    (E : Env) (tokenPrincipal : string) (startTime : float) (endTime : option float)
    (w : World) :
  let stop := SpecSwap.window_end endTime w in
  let variants := normalizeTokenPrincipal tokenPrincipal in
  (∀ token t, lastLegBuys token t = true ↔ SpecSwap.buys token t)
  ∧ (∀ s, SpecSwap.stripped s (Js.splitHead "::" s))
  ∧ ∃ r w',
      execute (swappedFor E tokenPrincipal startTime endTime) w = (Ok r, w')
      ∧ satisfied r = bool_decide (matches r ≠ [])
      ∧ (∃ variant, variant ∈ variants ∧ ∀ t, t ∈ matches r → SpecSwap.buys variant t)
      ∧ if Js.validTime (startTime * 1000) && Js.validTime (stop * 1000) then
          ∃ outcome,
            SpecSwap.tries E (isoFormat E (startTime * 1000)%float)
              (isoFormat E (stop * 1000)%float) variants w outcome w'
            ∧ r = SpecSwap.result_of tokenPrincipal startTime stop outcome
            ∧ ∀ outcome' w'',
                SpecSwap.tries E (isoFormat E (startTime * 1000)%float)
                  (isoFormat E (stop * 1000)%float) variants w outcome' w'' →
                outcome' = outcome ∧ w'' = w'
        else r = failed_result ∧ w' = w.
Proof.
  intros stop variants.
  split; [apply lastLegBuys_spec|]. split; [apply splitHead_stripped|].
  assert (∃ variant, variant ∈ variants
                     ∧ ∀ t, t ∈ matches failed_result → SpecSwap.buys variant t) as Hfailed.
  { exists (Js.trim tokenPrincipal). split; [apply normalizeTokenPrincipal_head|].
    intros t Ht. by apply elem_of_nil in Ht. }
  unfold swappedFor, createBaseValidator, try_catch; cbn [execute].
  rewrite swappedFor_body_spec. fold stop variants.
  destruct (Js.validTime (startTime * 1000) && Js.validTime (stop * 1000)).
  2:{ exists failed_result, w. by repeat split. }
  pose proof (swappedFor_loop_tries E (isoFormat E (startTime * 1000)%float)
                (isoFormat E (stop * 1000)%float) variants w) as Htries.
  destruct (swappedFor_loop E _ _ variants [] w) as [[found|e] w']; cbn [fst snd] in Htries.
  - eexists _, w'. split; [done|]. cbn [SpecSwap.result_of satisfied matches].
    split; [done|]. split.
    + destruct (tries_single_variant _ _ _ _ _ _ _ Htries) as [->|(v & Hv & Hall)].
      * exact Hfailed.
      * by exists v.
    + exists (Ok found). split; [done|]. split; [done|].
      intros outcome' w'' Htries'.
      by destruct (tries_functional _ _ _ _ _ _ _ _ _ Htries Htries').
  - exists failed_result, w'. split; [done|]. split; [done|]. split; [done|].
    exists (Throw e). split; [done|]. split; [done|].
    intros outcome' w'' Htries'.
    by destruct (tries_functional _ _ _ _ _ _ _ _ _ Htries Htries').
Qed.


(** ** The primitives absorb every error *)

Lemma try_catch_never_rejects (body : M ValidationResult) :
  SpecFailure.resolves (createBaseValidator (try_catch body (λ error, ret failed_result))).
Proof.
  intros w. cbn [execute createBaseValidator]. unfold try_catch, ret.
  destruct (body w) as [[r|e] w']; eauto.
Qed.

Lemma try_catch_absorbs (body : M ValidationResult) :
  SpecFailure.absorbs body
    (createBaseValidator (try_catch body (λ error, ret failed_result))).
Proof.
  intros w e w' Hbody. cbn [execute createBaseValidator]. unfold try_catch.
  by rewrite Hbody.
Qed.

Lemma thrown_comes_back_empty (body : M ValidationResult) :
  (∀ w, ∃ e w', body w = (Throw e, w')) →
  SpecFailure.comes_back_empty
    (createBaseValidator (try_catch body (λ error, ret failed_result))).
Proof.
  intros Hthrows w. destruct (Hthrows w) as (e & w' & Hbody).
  exists failed_result, w'. split; [|done]. by apply try_catch_absorbs in Hbody.
Qed.

Section UpstreamDown.

Variable E : Env.

Lemma request_loop_fails_when_down {T} (cfg : KraxelConfig)
    (oracle : nat → HttpRequest → FetchOutcome T) (rq : HttpRequest) :
  (∀ k, ∃ e, SpecClient.attempt_throws (oracle k rq) e) →
  ∀ remaining attempts w,
    ∃ e w', request_loop E cfg oracle rq remaining attempts w = (Throw e, w').
Proof.
  intros Hdown. induction remaining as [|remaining IH]; intros attempts w.
  { cbn. unfold throw. eauto. }
  cbn [request_loop]. unfold try_catch.
  destruct (Hdown (length (net_log w))) as [e He].
  rewrite (fetch_attempt_throws E oracle rq w e He).
  destruct (maxRetries cfg <=? S attempts)%nat.
  - unfold throw. eauto.
  - unfold bind, sleep. apply IH.
Qed.

Lemma request_fails_when_down {T} (oracle : nat → HttpRequest → FetchOutcome T)
    endpoint params w :
  (∀ k rq, ∃ e, SpecClient.attempt_throws (oracle k rq) e) →
  ∃ e w', request E DEFAULT_CONFIG oracle endpoint params w = (Throw e, w').
Proof. intros Hdown. unfold request. by apply request_loop_fails_when_down. Qed.

Hypothesis Hdown : SpecFailure.upstream_down E.

Lemma swappedFor_body_throws_when_down tokenPrincipal startTime endTime w :
  ∃ e w', swappedFor_body E tokenPrincipal startTime endTime w = (Throw e, w').
Proof.
  rewrite swappedFor_body_spec.
  destruct (Js.validTime _ && Js.validTime _); [|eauto].
  unfold normalizeTokenPrincipal.
  match goal with |- context [swappedFor_loop E ?sd ?ed ?vs [] w] =>
    assert (∃ e w', swappedFor_loop E sd ed vs [] w = (Throw e, w')) as (e & w' & ->)
  end; [|eauto].
  destruct (Js.includes _ _); cbn [app swappedFor_loop]; unfold bind, getSwapsByContract;
    match goal with |- context [request E ?c ?o ?ep ?ps w] =>
      destruct (request_fails_when_down o ep ps w (proj1 Hdown)) as (e & w' & ->)
    end; eauto.
Qed.

Lemma minValueSwap_body_throws_when_down minValueUsd getTransactions w :
  ∃ e w', minValueSwap_body E minValueUsd getTransactions w = (Throw e, w').
Proof.
  unfold minValueSwap_body, bind.
  destruct (getTransactions w) as [[transactions|e] w1]; [|eauto].
  unfold getLatestPrices.
  destruct (request_fails_when_down (fetch_prices E) "/prices/latest" [] w1 (proj2 Hdown))
    as (e & w' & ->).
  eauto.
Qed.

Lemma holdsToken_body_throws_when_down userAddress tokenPrincipal w :
  ∃ e w', holdsToken_body E userAddress tokenPrincipal w = (Throw e, w').
Proof.
  unfold holdsToken_body, bind, normalizeTokenPrincipal.
  match goal with |- context [holdsToken_loop E ?a ?vs w] =>
    assert (∃ e w', holdsToken_loop E a vs w = (Throw e, w')) as (e & w' & ->)
  end; [|eauto].
  destruct (Js.includes _ _); cbn [app holdsToken_loop]; unfold bind, getTokenTransfers;
    match goal with |- context [request E ?c ?o ?ep ?ps w] =>
      destruct (request_fails_when_down o ep ps w (proj1 Hdown)) as (e & w' & ->)
    end; eauto.
Qed.

Lemma firstNBuyers_comes_back_empty_when_down tokenPrincipal n minValueUsd startTime :
  SpecFailure.comes_back_empty (firstNBuyers E tokenPrincipal n minValueUsd startTime).
Proof.
  intros w. unfold firstNBuyers, createBaseValidator, try_catch, firstNBuyers_body, bind;
    cbn [execute].
  destruct (thrown_comes_back_empty _
              (swappedFor_body_throws_when_down tokenPrincipal startTime None) w)
    as (r & w' & Hrun & Hsat & Hmatches).
  unfold swappedFor. rewrite Hrun, Hsat. cbn [negb ret]. eauto.
Qed.

End UpstreamDown.

Lemma primitives_come_back_empty_when_down (E : Env) :
  SpecFailure.upstream_down E →
  (∀ tokenPrincipal startTime endTime,
     SpecFailure.comes_back_empty (swappedFor E tokenPrincipal startTime endTime))
  ∧ (∀ minValueUsd getTransactions,
       SpecFailure.comes_back_empty (minValueSwap E minValueUsd getTransactions))
  ∧ (∀ tokenPrincipal n minValueUsd startTime,
       SpecFailure.comes_back_empty
         (firstNBuyers E tokenPrincipal n minValueUsd startTime))
  ∧ (∀ userAddress tokenPrincipal,
       SpecFailure.comes_back_empty (holdsToken E userAddress tokenPrincipal)).
Proof.
  intros Hdown. split; [|split; [|split]].
  - intros. apply thrown_comes_back_empty.
    intros w. by apply swappedFor_body_throws_when_down.
  - intros. apply thrown_comes_back_empty.
    intros w. by apply minValueSwap_body_throws_when_down.
  - intros. by apply firstNBuyers_comes_back_empty_when_down.
  - intros. apply thrown_comes_back_empty.
    intros w. by apply holdsToken_body_throws_when_down.
Qed.

(** C10: each of the four primitive validators never rejects; an error
    thrown inside its [try] block makes it resolve with [satisfied = false],
    no matches (and no metadata); in particular, when the Data Client fails
    after exhausting its retries, each primitive resolves unsatisfied and
    without matches. *)
Theorem primitives_never_reject (E : Env) :
  (∀ tokenPrincipal startTime endTime,
     SpecFailure.resolves (swappedFor E tokenPrincipal startTime endTime)
     ∧ SpecFailure.absorbs (swappedFor_body E tokenPrincipal startTime endTime)
         (swappedFor E tokenPrincipal startTime endTime))
  ∧ (∀ minValueUsd getTransactions,
       SpecFailure.resolves (minValueSwap E minValueUsd getTransactions)
       ∧ SpecFailure.absorbs (minValueSwap_body E minValueUsd getTransactions)
           (minValueSwap E minValueUsd getTransactions))
  ∧ (∀ tokenPrincipal n minValueUsd startTime,
       SpecFailure.resolves (firstNBuyers E tokenPrincipal n minValueUsd startTime)
       ∧ SpecFailure.absorbs (firstNBuyers_body E tokenPrincipal n minValueUsd startTime)
           (firstNBuyers E tokenPrincipal n minValueUsd startTime))
  ∧ (∀ userAddress tokenPrincipal,
       SpecFailure.resolves (holdsToken E userAddress tokenPrincipal)
       ∧ SpecFailure.absorbs (holdsToken_body E userAddress tokenPrincipal)
           (holdsToken E userAddress tokenPrincipal))
  ∧ (SpecFailure.upstream_down E →
     (∀ tokenPrincipal startTime endTime,
        SpecFailure.comes_back_empty (swappedFor E tokenPrincipal startTime endTime))
     ∧ (∀ minValueUsd getTransactions,
          SpecFailure.comes_back_empty (minValueSwap E minValueUsd getTransactions))
     ∧ (∀ tokenPrincipal n minValueUsd startTime,
          SpecFailure.comes_back_empty
            (firstNBuyers E tokenPrincipal n minValueUsd startTime))
     ∧ (∀ userAddress tokenPrincipal,
          SpecFailure.comes_back_empty (holdsToken E userAddress tokenPrincipal))).
Proof.
  split; [intros; split; [apply try_catch_never_rejects|apply try_catch_absorbs]|].
  split; [intros; split; [apply try_catch_never_rejects|apply try_catch_absorbs]|].
  split; [intros; split; [apply try_catch_never_rejects|apply try_catch_absorbs]|].
  split; [intros; split; [apply try_catch_never_rejects|apply try_catch_absorbs]|].
  apply primitives_come_back_empty_when_down.
Qed.

Lemma upstream_down_demo : SpecFailure.upstream_down Demo.env_down.
Proof. split; intros k rq; eexists; constructor. Defined.

Lemma primitives_never_reject_witness :
  SpecFailure.upstream_down Demo.env_down
  ∧ SpecFailure.comes_back_empty (swappedFor Demo.env_down Demo.TOKEN 0 None)
  ∧ SpecFailure.comes_back_empty (minValueSwap Demo.env_down 1 (recentSwaps Demo.env_down))
  ∧ SpecFailure.comes_back_empty (firstNBuyers Demo.env_down Demo.TOKEN 2 0 0)
  ∧ SpecFailure.comes_back_empty (holdsToken Demo.env_down "SP1ALICE" Demo.TOKEN).
Proof.
  split; [exact upstream_down_demo|].
  destruct (primitives_never_reject Demo.env_down) as (_ & _ & _ & _ & Hdown).
  destruct (Hdown upstream_down_demo) as (Hswapped & Hvalue & Hfirst & Hholds).
  split; [apply Hswapped|]. split; [apply Hvalue|]. split; [apply Hfirst|apply Hholds].
Defined.

(** ** Frame: what never touches the [QuestValidation] table *)

Create HintDb keeps.

Lemma keeps_ret {A} (a : A) : SpecRunner.keeps_validations (ret a).
Proof. by intros w. Qed.

Lemma keeps_throw {A} (e : Exn) : SpecRunner.keeps_validations (@throw A e).
Proof. by intros w. Qed.

Lemma keeps_bind {A B} (m : M A) (k : A → M B) :
  SpecRunner.keeps_validations m → (∀ a, SpecRunner.keeps_validations (k a)) →
  SpecRunner.keeps_validations (bind m k).
Proof.
  intros Hm Hk w. unfold bind. specialize (Hm w).
  destruct (m w) as [[a|e] w']; cbn [snd] in *; [|done]. by rewrite Hk.
Qed.

Lemma keeps_try_catch {A} (m : M A) (h : Exn → M A) :
  SpecRunner.keeps_validations m → (∀ e, SpecRunner.keeps_validations (h e)) →
  SpecRunner.keeps_validations (try_catch m h).
Proof.
  intros Hm Hh w. unfold try_catch. specialize (Hm w).
  destruct (m w) as [[a|e] w']; cbn [snd] in *; [done|]. by rewrite Hh.
Qed.

Lemma keeps_Promise_all2 {A B} (l : M A) (r : M B) :
  SpecRunner.keeps_validations l → SpecRunner.keeps_validations r →
  SpecRunner.keeps_validations (Promise_all2 l r).
Proof.
  intros Hl Hr w. unfold Promise_all2. specialize (Hl w).
  destruct (l w) as [ra w1]. specialize (Hr w1). destruct (r w1) as [rb w2].
  cbn [snd] in *. destruct ra, rb; cbn [snd]; congruence.
Qed.

Lemma keeps_Date_now : SpecRunner.keeps_validations Date_now.
Proof. by intros w. Qed.

Lemma keeps_sleep ms : SpecRunner.keeps_validations (sleep ms).
Proof. by intros w. Qed.

Lemma keeps_forEachM {A} (f : A → M unit) (xs : list A) :
  (∀ x, SpecRunner.keeps_validations (f x)) →
  SpecRunner.keeps_validations (forEachM f xs).
Proof.
  intros Hf. induction xs as [|x xs IH]; cbn [forEachM].
  - apply keeps_ret.
  - by apply keeps_bind.
Qed.

#[global] Hint Resolve keeps_ret keeps_throw keeps_bind keeps_try_catch
  keeps_Promise_all2 keeps_Date_now keeps_sleep keeps_forEachM : keeps.

Section Frame.

Variable E : Env.

Lemma keeps_fetch_attempt {T} (oracle : nat → HttpRequest → FetchOutcome T) rq :
  SpecRunner.keeps_validations (fetch_attempt E oracle rq).
Proof.
  intros w. unfold fetch_attempt.
  destruct (oracle _ rq) as [e|[|] code txt [d|e]]; done.
Qed.

Lemma keeps_request_loop {T} cfg (oracle : nat → HttpRequest → FetchOutcome T) rq :
  ∀ remaining attempts,
    SpecRunner.keeps_validations (request_loop E cfg oracle rq remaining attempts).
Proof.
  induction remaining as [|remaining IH]; intros attempts; cbn [request_loop].
  - apply keeps_throw.
  - apply keeps_try_catch; [apply keeps_fetch_attempt|].
    intros e. destruct (maxRetries cfg <=? S attempts)%nat; auto with keeps.
Qed.

Lemma keeps_request {T} cfg (oracle : nat → HttpRequest → FetchOutcome T) endpoint params :
  SpecRunner.keeps_validations (request E cfg oracle endpoint params).
Proof. apply keeps_request_loop. Qed.

Lemma keeps_toISOString ms : SpecRunner.keeps_validations (toISOString E ms).
Proof. unfold toISOString. destruct (Js.validTime ms); auto with keeps. Qed.

Hint Resolve keeps_request keeps_toISOString : keeps.

Lemma keeps_swappedFor_loop startDate endDate variants :
  ∀ acc, SpecRunner.keeps_validations (swappedFor_loop E startDate endDate variants acc).
Proof.
  induction variants as [|variant rest IH]; intros acc; cbn [swappedFor_loop].
  - apply keeps_ret.
  - apply keeps_bind; [apply keeps_request|]. intros swaps.
    destruct (data swaps) as [fetched|]; [|done].
    destruct (0 <? length fetched)%nat; [|done].
    destruct (0 <? length _)%nat; auto with keeps.
Qed.

Lemma keeps_swappedFor tokenPrincipal startTime endTime :
  SpecRunner.keeps_validations (execute (swappedFor E tokenPrincipal startTime endTime)).
Proof.
  cbn [execute swappedFor createBaseValidator]. unfold swappedFor_body.
  pose proof keeps_swappedFor_loop. auto 8 with keeps.
Qed.

Lemma keeps_recentSwaps : SpecRunner.keeps_validations (recentSwaps E).
Proof. unfold recentSwaps, getRecentSwaps. auto with keeps. Qed.

Lemma keeps_minValueSwap minValueUsd getTransactions :
  SpecRunner.keeps_validations getTransactions →
  SpecRunner.keeps_validations (execute (minValueSwap E minValueUsd getTransactions)).
Proof.
  intros Hget. cbn [execute minValueSwap createBaseValidator].
  unfold minValueSwap_body, getLatestPrices. auto 6 with keeps.
Qed.

Hint Resolve keeps_swappedFor keeps_minValueSwap keeps_recentSwaps : keeps.

Lemma keeps_firstNBuyers tokenPrincipal n minValueUsd startTime :
  SpecRunner.keeps_validations
    (execute (firstNBuyers E tokenPrincipal n minValueUsd startTime)).
Proof.
  cbn [execute firstNBuyers createBaseValidator]. unfold firstNBuyers_body.
  apply keeps_try_catch; [|auto with keeps].
  apply keeps_bind; [auto with keeps|]. intros swapResult.
  destruct (negb (satisfied swapResult)); [auto with keeps|].
  destruct (Js.gt _ _); [|auto with keeps].
  apply keeps_bind; [auto with keeps|]. intros valueResult.
  destruct (negb (satisfied valueResult)); auto with keeps.
Qed.

Lemma keeps_holdsToken_loop userAddress variants :
  SpecRunner.keeps_validations (holdsToken_loop E userAddress variants).
Proof.
  induction variants as [|variant rest IH]; cbn [holdsToken_loop].
  - apply keeps_ret.
  - apply keeps_bind; [apply keeps_request|]. intros transfers.
    destruct (data transfers) as [fetched|]; [|done].
    destruct (0 <? length fetched)%nat; auto with keeps.
Qed.

Lemma keeps_holdsToken userAddress tokenPrincipal :
  SpecRunner.keeps_validations (execute (holdsToken E userAddress tokenPrincipal)).
Proof.
  cbn [execute holdsToken createBaseValidator]. unfold holdsToken_body.
  apply keeps_try_catch; [|auto with keeps].
  apply keeps_bind; [apply keeps_holdsToken_loop|].
  intros [result|]; auto with keeps.
Qed.

Lemma keeps_createQuestValidationResult validationId userAddress valid resultData criteriaType :
  SpecRunner.keeps_validations
    (createQuestValidationResult E validationId userAddress valid resultData criteriaType).
Proof.
  intros w. unfold createQuestValidationResult, db_op.
  by destruct (db_fault E (db_ops w)).
Qed.

Hint Resolve keeps_firstNBuyers keeps_holdsToken keeps_createQuestValidationResult
  : keeps.

Lemma keeps_runValidator validationId criteriaType validator :
  SpecRunner.keeps_validations (execute validator) →
  SpecRunner.keeps_validations (runValidator E validationId criteriaType validator).
Proof. intros Hv. unfold runValidator. auto 6 with keeps. Qed.

Lemma keeps_dispatch validationId criteria :
  SpecRunner.keeps_validations (dispatch E validationId criteria).
Proof.
  unfold dispatch.
  repeat (destruct (String.eqb _ _); [apply keeps_runValidator; auto with keeps|]).
  apply keeps_throw.
Qed.

End Frame.

(** ** The runner *)

Lemma newest_spec (rows : list QuestValidation) (v : QuestValidation) :
  v ∈ newest rows
  ↔ v ∈ rows ∧ ∀ v', v' ∈ rows → v_validatedAt v' ≤ v_validatedAt v.
Proof.
  unfold newest. rewrite list_elem_of_In, filter_In, forallb_forall, <- list_elem_of_In.
  split; intros [Hin Hmax]; (split; [done|]).
  - intros v' Hv'%list_elem_of_In. by apply Z.leb_le, Hmax.
  - intros v' Hv'%list_elem_of_In. by apply Z.leb_le, Hmax.
Qed.

Lemma newest_of_quest questId rows v :
  v ∈ newest (List.filter (λ v, String.eqb (v_questId v) questId) rows)
  ↔ SpecRunner.latest questId rows v.
Proof.
  rewrite newest_spec. unfold SpecRunner.latest.
  rewrite list_elem_of_In, filter_In, <- list_elem_of_In, String.eqb_eq.
  split.
  - intros [[Hin Hq] Hmax]. split; [done|]. split; [done|].
    intros v' Hv' Hq'. apply Hmax, list_elem_of_In, filter_In.
    split; [by apply list_elem_of_In|by apply String.eqb_eq].
  - intros (Hin & Hq & Hmax). split; [done|].
    intros v' [Hv' Hq']%list_elem_of_In%filter_In.
    apply Hmax; [by apply list_elem_of_In|by apply String.eqb_eq].
Qed.

(** Whatever row the store picks, it is one of the quest's latest. *)
Lemma latestOf_spec (E : Env) questId rows op v :
  latestOf E questId rows op = Some v → SpecRunner.latest questId rows v.
Proof.
  unfold latestOf. intros Hpick%list_elem_of_lookup_2. by apply newest_of_quest.
Qed.

(** The store returns a row as soon as the quest has a latest one. *)
Lemma latestOf_some (E : Env) questId rows op v :
  SpecRunner.latest questId rows v → is_Some (latestOf E questId rows op).
Proof.
  intros Hlatest%newest_of_quest. unfold latestOf.
  apply lookup_lt_is_Some_2, Nat.mod_upper_bound.
  destruct (newest _); [by apply elem_of_nil in Hlatest|done].
Qed.


Section RunnerFacts.

Variable E : Env.

Lemma createQuestValidation_ok quest w :
  db_fault E (db_ops w) = None →
  createQuestValidation E (quest_id quest)
    {| vd_criteria := criteria quest; vd_startTime := clock w |} w
  = (Ok [SpecRunner.pending_row quest w],
     set_validations (validations w ++ [SpecRunner.pending_row quest w])
       (count_db_op (set_clock (clock w + latency E (ticks w)) w))).
Proof. intros Hok. unfold createQuestValidation, db_op. by rewrite Hok. Qed.

Lemma update_pending_row quest w st errorMessage validAddresses finished next :
  SpecRunner.fresh_key w →
  map (λ v, if (v_id v =? length (validations w))%nat
            then apply_updates (Some st) errorMessage (Some validAddresses)
                   (Some (finished - clock w)) (Some next) v
            else v)
    (validations w ++ [SpecRunner.pending_row quest w])
  = validations w
    ++ [SpecRunner.final_row quest w st errorMessage validAddresses finished next].
Proof.
  intros Hfresh. rewrite map_app. f_equal.
  - rewrite <- (map_id (validations w)) at 2. apply map_ext_in.
    intros row Hrow%list_elem_of_In. apply Hfresh in Hrow.
    apply Nat.eqb_neq in Hrow. by rewrite Hrow.
  - cbn [map SpecRunner.pending_row v_id]. rewrite Nat.eqb_refl.
    unfold apply_updates, SpecRunner.final_row. cbn. by destruct errorMessage.
Qed.

Lemma update_pending_row_error quest w message finished next :
  SpecRunner.fresh_key w →
  map (λ v, if (v_id v =? length (validations w))%nat
            then apply_updates (Some Failed) (Some message) None
                   (Some (finished - clock w)) (Some next) v
            else v)
    (validations w ++ [SpecRunner.pending_row quest w])
  = validations w
    ++ [SpecRunner.final_row quest w Failed (Some message) [] finished next].
Proof.
  intros Hfresh. rewrite map_app. f_equal.
  - rewrite <- (map_id (validations w)) at 2. apply map_ext_in.
    intros row Hrow%list_elem_of_In. apply Hfresh in Hrow.
    apply Nat.eqb_neq in Hrow. by rewrite Hrow.
  - cbn [map SpecRunner.pending_row v_id]. by rewrite Nat.eqb_refl.
Qed.

Lemma evaluate_throw_keeps validationId criteria startTime w e w' :
  evaluate E validationId criteria startTime w = (Throw e, w') →
  validations w' = validations w.
Proof.
  unfold evaluate, bind, Date_now.
  pose proof (keeps_dispatch E validationId criteria w) as Hkeep.
  destruct (dispatch E validationId criteria w) as [[outcome|e'] w1]; cbn [snd] in Hkeep.
  - unfold updateQuestValidation, db_op.
    destruct (db_fault E (db_ops w1)); [|done]. by intros [= _ <-].
  - by intros [= _ <-].
Qed.



End RunnerFacts.

Section RunnerTheorems.

Variable E : Env.




(** What [validateSingleQuest] does once the lookup of the latest validation
    has come back. *)
Lemma validateSingleQuest_after_lookup quest w :
  db_fault E (db_ops w) = None →
  validateSingleQuest E quest w
  = let w1 := count_db_op (set_clock (clock w + latency E (ticks w)) w) in
    match latestOf E (quest_id quest) (validations w) (db_ops w) with
    | Some last =>
        match v_nextValidationAt last with
        | Some next =>
            if clock w + latency E (ticks w) <? next then (Ok tt, w1)
            else validateNow E quest w1
        | None => validateNow E quest w1
        end
    | None => validateNow E quest w1
    end.
Proof.
  intros Hlookup.
  unfold validateSingleQuest, bind, getLatestQuestValidation, db_op, Date_now.
  rewrite Hlookup. cbn [count_db_op set_clock validations clock]. cbv zeta.
  destruct (latestOf _ _ _ _) as [last|]; [|done].
  destruct (v_nextValidationAt last) as [next|]; [|done].
  by destruct (_ <? _).
Qed.

(** The skip rule: with a latest validation whose [nextValidationAt] is
    still ahead when the lookup returns, [validateSingleQuest] returns at
    once. *)
Lemma validateSingleQuest_skips quest w last next :
  latestOf E (quest_id quest) (validations w) (db_ops w) = Some last →
  v_nextValidationAt last = Some next →
  db_fault E (db_ops w) = None →
  clock w + latency E (ticks w) < next →
  validateSingleQuest E quest w
  = (Ok tt, count_db_op (set_clock (clock w + latency E (ticks w)) w)).
Proof.
  intros Hlatest Hnext Hlookup Hnow.
  rewrite validateSingleQuest_after_lookup by done. cbv zeta.
  rewrite Hlatest, Hnext. apply Z.ltb_lt in Hnow. by rewrite Hnow.
Qed.


(** After a successful lookup, [validateSingleQuest] never rejects. *)
Lemma validateSingleQuest_resolves_after_lookup quest w :
  db_fault E (db_ops w) = None →
  ∃ w', validateSingleQuest E quest w = (Ok tt, w').
Proof.
  intros Hlookup.
  assert (∀ w1, ∃ w', validateNow E quest w1 = (Ok tt, w')) as Hnow.
  { intros w1. unfold validateNow, bind, Date_now, try_catch, ret.
    destruct (createQuestValidation _ _ _ w1) as [[[|validation created]|e] w2];
      [unfold throw; eauto| |eauto].
    match goal with |- context [evaluate ?a ?b ?c ?d ?w] =>
      destruct (evaluate a b c d w) as [[[]|e] w3]; [eauto|]
    end.
    match goal with |- context [recordError ?a ?b ?c ?e ?w] =>
      destruct (recordError a b c e w) as [[[]|e'] w4]; eauto
    end. }
  unfold validateSingleQuest, bind, getLatestQuestValidation, db_op, Date_now.
  rewrite Hlookup.
  destruct (latestOf _ _ _ _) as [last|]; [|apply Hnow].
  destruct (v_nextValidationAt last) as [next|]; [|apply Hnow].
  destruct (_ <? _); [unfold ret; eauto|apply Hnow].
Qed.

End RunnerTheorems.

Lemma fresh_key_empty w : validations w = [] → SpecRunner.fresh_key w.
Proof. intros Hempty row Hrow. rewrite Hempty in Hrow. by apply elem_of_nil in Hrow. Qed.



(** C9: for a quest whose latest validation record (the row with the
    greatest [validatedAt] that the store returns for the quest) has a
    [nextValidationAt] that is still in the future when the lookup returns,
    [validateSingleQuest] is a no-op: it returns normally, makes no Data
    Client call, sleeps no backoff, and leaves the validation and result
    tables as they were.  The returned row is always one of the quest's
    latest; when several rows share the greatest [validatedAt] and all of
    them have a [nextValidationAt] in the future, the quest is skipped
    whichever of them the store returns.  When the store returns no row, or
    a row without a [nextValidationAt] in the future, the quest is
    validated. *)
Theorem sweep_skips_quest_not_yet_due (E : Env) (quest : Quest) (w : World) :
  db_fault E (db_ops w) = None →
  let now := clock w + latency E (ticks w) in
  let returned := latestOf E (quest_id quest) (validations w) (db_ops w) in
  let skipped :=
    ∃ w',
      validateSingleQuest E quest w = (Ok tt, w')
      ∧ net_log w' = net_log w
      ∧ sleeps w' = sleeps w
      ∧ validations w' = validations w
      ∧ vresults w' = vresults w
      ∧ quests w' = quests w in
  (∀ last, returned = Some last →
     SpecRunner.latest (quest_id quest) (validations w) last)
  ∧ (∀ last next,
       returned = Some last → v_nextValidationAt last = Some next → now < next →
       skipped)
  ∧ ((∃ last, SpecRunner.latest (quest_id quest) (validations w) last) →
     (∀ last, SpecRunner.latest (quest_id quest) (validations w) last →
        ∃ next, v_nextValidationAt last = Some next ∧ now < next) →
     skipped)
  ∧ (match returned with
     | Some last =>
         match v_nextValidationAt last with
         | Some next => next ≤ now
         | None => True
         end
     | None => True
     end →
     validateSingleQuest E quest w
     = validateNow E quest (count_db_op (set_clock now w))).
Proof.
  intros Hlookup now returned skipped.
  assert (∀ last next,
            returned = Some last → v_nextValidationAt last = Some next → now < next →
            skipped) as Hskip.
  { intros last next Hlatest Hnext Hnow.
    eexists. split; [by eapply validateSingleQuest_skips|done]. }
  split; [intros last; apply latestOf_spec|]. split; [exact Hskip|]. split.
  - intros [v Hv] Hall.
    destruct (latestOf_some E _ _ (db_ops w) _ Hv) as [last Hlast].
    destruct (Hall last (latestOf_spec E _ _ _ _ Hlast)) as (next & Hnext & Hnow).
    by apply (Hskip last next).
  - intros Hdue. rewrite validateSingleQuest_after_lookup by done. cbv zeta.
    fold returned now. destruct returned as [last|]; [|done].
    destruct (v_nextValidationAt last) as [next|]; [|done].
    apply Z.ltb_ge in Hdue. by rewrite Hdue.
Qed.

Lemma sweep_skips_quest_not_yet_due_witness :
  db_fault Demo.env_up (db_ops Demo.w_recent) = None
  ∧ latestOf Demo.env_up "quest-swap" (validations Demo.w_recent) 0 = Some Demo.doneRow
  ∧ 1700000000005 < 1700000500000
  ∧ (∃ w',
       validateSingleQuest Demo.env_up Demo.questSwap Demo.w_recent = (Ok tt, w')
       ∧ net_log w' = []
       ∧ validations w' = [Demo.doneRow]
       ∧ vresults w' = [])
  ∧ ∃ w',
      validateAllActiveQuests Demo.env_up Demo.w_recent = (Ok tt, w')
      ∧ net_log w' = []
      ∧ validations w' = [Demo.doneRow]
      ∧ vresults w' = [].
Proof.
  split; [reflexivity|]. split; [reflexivity|]. split; [lia|]. split.
  - destruct (sweep_skips_quest_not_yet_due Demo.env_up Demo.questSwap Demo.w_recent
                eq_refl) as (_ & Hskip & _).
    destruct (Hskip Demo.doneRow 1700000500000)
      as (w' & Hrun & Hnet & _ & Hvalidations & Hresults & _);
      [reflexivity|reflexivity|reflexivity|].
    exists w'. by repeat split.
  - eexists. split; [vm_compute; reflexivity|]. by repeat split.
Defined.

(** Two rows of a quest with the same [validatedAt], one of them without a
    [nextValidationAt]: the store settles which one is the latest, and with
    it whether the quest is skipped or validated. *)
Example tie_is_settled_by_the_store :
  SpecRunner.latest "quest-swap" (validations Demo.w_tie) Demo.doneRow
  ∧ SpecRunner.latest "quest-swap" (validations Demo.w_tie) Demo.openRow
  ∧ (∃ w',
       validateSingleQuest Demo.env_up Demo.questSwap Demo.w_tie = (Ok tt, w')
       ∧ net_log w' = []
       ∧ validations w' = validations Demo.w_tie)
  ∧ ∃ w',
      validateSingleQuest Demo.env_pick_last Demo.questSwap Demo.w_tie = (Ok tt, w')
      ∧ length (net_log w') = 1%nat
      ∧ length (validations w') = 3%nat.
Proof.
  split; [|split]; [apply (latestOf_spec Demo.env_up _ _ 0); reflexivity
                   |apply (latestOf_spec Demo.env_pick_last _ _ 0); reflexivity|].
  split; eexists; (split; [vm_compute; reflexivity|]); by repeat split.
Qed.


(** C8 (the failing input): the latest-validation lookup of the first quest
    of a sweep fails; the error leaves [validateSingleQuest] and the sweep
    ends there, before the second quest is looked at.  When it is the
    creation of the first quest's record that fails, the error is caught and
    the second quest is validated; and with a healthy store the sweep
    validates both quests, the unsupported one included. *)
Theorem sweep_aborts_when_a_lookup_fails :
  (∃ w',
     validateAllActiveQuests Demo.env_lookup_fault Demo.w_two
     = (Throw (JsError "Connection terminated"), w')
     ∧ db_ops w' = 2%nat
     ∧ validations w' = []
     ∧ net_log w' = [])
  ∧ (∃ w',
       validateAllActiveQuests Demo.env_create_fault Demo.w_two = (Ok tt, w')
       ∧ map v_questId (validations w') = ["quest-swap"]
       ∧ map v_status (validations w') = [Success])
  ∧ ∃ w',
      validateAllActiveQuests Demo.env_up Demo.w_two = (Ok tt, w')
      ∧ map v_questId (validations w') = ["quest-odd"; "quest-swap"]
      ∧ map v_status (validations w') = [Failed; Success].
Proof.
  split; [|split]; eexists; (split; [vm_compute; reflexivity|]); by repeat split.
Qed.

(** ** Further properties of the runner and the combinators *)

Lemma dispatch_unsupported (E : Env) validationId criteria w :
  ¬ SpecRunner.supported (ctype criteria) →
  dispatch E validationId criteria w
  = (Throw (JsError ("Unsupported criteria type: " +:+ ctype criteria)), w).
Proof.
  intros Hnot. unfold dispatch, SpecRunner.supported in *.
  repeat match goal with
         | |- context [String.eqb (ctype criteria) ?s] =>
             destruct (String.eqb_spec (ctype criteria) s) as [Heq|_];
             [exfalso; apply Hnot; rewrite Heq; set_solver|]
         end.
  done.
Qed.

(** An unsupported [criteria.type] takes the error path of the runner: the
    validation record ends [failed], with the message naming the type and
    the error backoff, and no Data Client call is made. *)
Theorem unsupported_criteria_type_is_recorded_as_failed
    (E : Env) (quest : Quest) (w : World) :
  SpecRunner.fresh_key w →
  ¬ SpecRunner.supported (ctype (criteria quest)) →
  db_fault E (db_ops w) = None →
  db_fault E (S (db_ops w)) = None →
  ∃ w3,
    validateNow E quest w = (Ok tt, w3)
    ∧ validations w3
      = validations w
        ++ [SpecRunner.final_row quest w Failed
              (Some ("Unsupported criteria type: " +:+ ctype (criteria quest))) []
              (clock w + latency E (ticks w))
              (clock w + latency E (ticks w) + VALIDATION_FREQUENCY.ERROR)]
    ∧ net_log w3 = net_log w
    ∧ vresults w3 = vresults w.
Proof.
  intros Hfresh Hnot Hcreate Hupdate.
  unfold validateNow, bind, Date_now, try_catch.
  rewrite (createQuestValidation_ok E quest w Hcreate). cbn [snd fst].
  unfold evaluate, bind. rewrite dispatch_unsupported by done.
  unfold recordError, bind, Date_now, updateQuestValidation, db_op.
  cbn [set_validations validations count_db_op set_clock db_ops clock].
  rewrite Hupdate. eexists. split; [reflexivity|].
  cbn [set_validations validations count_db_op set_clock net_log vresults].
  split; [|done]. by apply update_pending_row_error.
Qed.

Lemma unsupported_criteria_type_is_recorded_as_failed_witness :
  ¬ SpecRunner.supported "balanceAbove"
  ∧ ∃ w3,
      validateNow Demo.env_up Demo.questOdd Demo.w0 = (Ok tt, w3)
      ∧ validations w3
        = [SpecRunner.final_row Demo.questOdd Demo.w0 Failed
             (Some "Unsupported criteria type: balanceAbove") []
             1700000000005 (1700000000005 + VALIDATION_FREQUENCY.ERROR)]
      ∧ net_log w3 = []
      ∧ vresults w3 = [].
Proof.
  assert (¬ SpecRunner.supported "balanceAbove") as Hnot.
  { unfold SpecRunner.supported. intros Hin.
    repeat (apply elem_of_cons in Hin as [Heq|Hin]; [discriminate Heq|]).
    by apply elem_of_nil in Hin. }
  split; [exact Hnot|].
  apply (unsupported_criteria_type_is_recorded_as_failed Demo.env_up Demo.questOdd
           Demo.w0 (fresh_key_empty Demo.w0 eq_refl) Hnot eq_refl eq_refl).
Defined.

(** Errors are caught per quest once the lookup of the latest validation has
    succeeded: whatever the upstream, the criteria and the later store
    operations do, [validateSingleQuest] then returns normally. *)
Theorem quest_validation_never_rejects_after_lookup
    (E : Env) (quest : Quest) (w : World) :
  db_fault E (db_ops w) = None →
  ∃ w', validateSingleQuest E quest w = (Ok tt, w').
Proof. apply validateSingleQuest_resolves_after_lookup. Qed.

Lemma quest_validation_never_rejects_after_lookup_witness :
  ∃ w', validateSingleQuest Demo.env_down Demo.questSwap Demo.w0 = (Ok tt, w').
Proof.
  apply (quest_validation_never_rejects_after_lookup Demo.env_down Demo.questSwap Demo.w0).
  reflexivity.
Defined.

Lemma forEachM_resolves {A} (f : A → M unit) (xs : list A) :
  (∀ x w, ∃ w', f x w = (Ok tt, w')) →
  ∀ w, ∃ w', forEachM f xs w = (Ok tt, w').
Proof.
  intros Hf. induction xs as [|x xs IH]; intros w; cbn [forEachM].
  - unfold ret. eauto.
  - unfold bind. destruct (Hf x w) as [w1 ->]. apply IH.
Qed.

(** With a store that answers every operation, a sweep runs to its end
    whatever the upstream does and whatever criteria the quests carry. *)
Theorem sweep_completes_when_the_store_is_healthy (E : Env) (w : World) :
  (∀ k, db_fault E k = None) →
  ∃ w', validateAllActiveQuests E w = (Ok tt, w').
Proof.
  intros Hstore. unfold validateAllActiveQuests, bind, getActiveQuests, db_op.
  rewrite Hstore. apply forEachM_resolves.
  intros quest w1. by apply validateSingleQuest_resolves_after_lookup.
Qed.

Lemma sweep_completes_when_the_store_is_healthy_witness :
  ∃ w', validateAllActiveQuests Demo.env_down Demo.w_two = (Ok tt, w').
Proof.
  apply (sweep_completes_when_the_store_is_healthy Demo.env_down Demo.w_two).
  reflexivity.
Defined.

(** The NOT combinator returns no matches and negates [satisfied]. *)
Theorem not_negates_and_returns_no_matches
    (V : ValidationQuery) (w w' : World) (r : ValidationResult) :
  execute V w = (Ok r, w') →
  ∃ res,
    execute (combinators.not V) w = (Ok res, w')
    ∧ matches res = []
    ∧ satisfied res = negb (satisfied r).
Proof.
  intros HV. eexists. split.
  - unfold combinators.not, createBaseValidator, bind; cbn [execute]. by rewrite HV.
  - done.
Qed.

Lemma not_negates_and_returns_no_matches_witness :
  ∃ res,
    execute (combinators.not (Demo.constant (Demo.result_of [Demo.txA]))) Demo.w0
    = (Ok res, Demo.w0)
    ∧ matches res = []
    ∧ satisfied res = negb true.
Proof.
  apply (not_negates_and_returns_no_matches
           (Demo.constant (Demo.result_of [Demo.txA])) Demo.w0 Demo.w0
           (Demo.result_of [Demo.txA])).
  reflexivity.
Defined.

(** ** The Data Client: attempts, backoff and the first good answer *)

Section RetryOutcome.

Variable E : Env.
Context {T : Type}.
Variable cfg : KraxelConfig.
Variable oracle : nat → HttpRequest → FetchOutcome T.
Variable rq : HttpRequest.

Lemma fetch_attempt_ok w code statusText d :
  oracle (length (net_log w)) rq = HttpResponse true code statusText (Ok d) →
  fetch_attempt E oracle rq w
  = (Ok d, log_fetch rq (set_clock (clock w + latency E (ticks w)) w)).
Proof. unfold fetch_attempt. by intros ->. Qed.

Lemma request_loop_attempts : ∀ remaining attempts w,
  (remaining + attempts = maxRetries cfg)%nat →
  let out := request_loop E cfg oracle rq remaining attempts w in
  ∃ k, (k ≤ remaining)%nat
       ∧ ((0 < remaining)%nat → (1 ≤ k)%nat)
       ∧ net_log (snd out) = replicate k rq ++ net_log w
       ∧ sleeps (snd out)
         = rev (map SpecClient.backoff (seq (S attempts) (k - 1))) ++ sleeps w
       ∧ (∀ e, fst out = Throw e → k = remaining).
Proof.
  induction remaining as [|remaining IH]; intros attempts w Hsum out; subst out.
  { exists 0%nat. cbn. done. }
  cbn [request_loop]. unfold try_catch.
  destruct (fetch_attempt_logs E oracle rq w) as [Hlog Hsl].
  destruct (fetch_attempt E oracle rq w) as [[d|e] w1]; cbn [snd fst] in *.
  { exists 1%nat. rewrite Hlog, Hsl. cbn. split; [lia|]. done. }
  destruct (maxRetries cfg <=? S attempts)%nat eqn:Hmax.
  { apply Nat.leb_le in Hmax. exists 1%nat. cbn [snd fst throw].
    rewrite Hlog, Hsl. cbn. split; [lia|]. split; [done|]. split; [done|].
    split; [done|]. intros _ _. lia. }
  apply Nat.leb_gt in Hmax. unfold bind, sleep.
  set (w2 := log_sleep _ w1).
  destruct (IH (S attempts) w2) as (k & Hk & Hpos & Hnet & Hsleeps & Hthrow); [lia|].
  specialize (Hpos ltac:(lia)).
  exists (S k). split; [lia|]. split; [lia|]. split; [|split].
  - rewrite Hnet. subst w2. cbn [log_sleep net_log]. rewrite Hlog.
    apply replicate_app_cons.
  - rewrite Hsleeps. subst w2. cbn [log_sleep sleeps]. rewrite Hsl.
    destruct k as [|k]; [lia|].
    replace (S (S k) - 1)%nat with (S (S k - 1)) by lia.
    cbn [seq map rev]. rewrite <- app_assoc. cbn [app].
    unfold SpecClient.backoff at 3. do 2 f_equal. lia.
  - intros e' He'. rewrite (Hthrow e' He'). done.
Qed.

Lemma request_loop_first_success : ∀ j remaining attempts w (errs : nat → Exn)
    code statusText d,
  (remaining + attempts = maxRetries cfg)%nat →
  (j < remaining)%nat →
  (∀ i, (i < j)%nat →
     SpecClient.attempt_throws (oracle (length (net_log w) + i)%nat rq) (errs i)) →
  oracle (length (net_log w) + j)%nat rq = HttpResponse true code statusText (Ok d) →
  ∃ w',
    request_loop E cfg oracle rq remaining attempts w = (Ok d, w')
    ∧ net_log w' = replicate (S j) rq ++ net_log w
    ∧ sleeps w' = rev (map SpecClient.backoff (seq (S attempts) j)) ++ sleeps w.
Proof.
  induction j as [|j IH]; intros remaining attempts w errs code statusText d
    Hsum Hlt Hthrows Hok.
  - destruct remaining as [|remaining]; [lia|].
    cbn [request_loop]. unfold try_catch.
    rewrite Nat.add_0_r in Hok. rewrite (fetch_attempt_ok w code statusText d Hok).
    eexists. split; [done|]. done.
  - destruct remaining as [|remaining]; [lia|].
    cbn [request_loop]. unfold try_catch.
    rewrite (fetch_attempt_throws E oracle rq w (errs 0%nat)).
    2:{ specialize (Hthrows 0%nat). rewrite Nat.add_0_r in Hthrows. apply Hthrows. lia. }
    set (w1 := log_fetch rq _).
    destruct (maxRetries cfg <=? S attempts)%nat eqn:Hmax.
    { apply Nat.leb_le in Hmax. lia. }
    unfold bind, sleep.
    destruct (IH remaining (S attempts) (log_sleep (2 ^ Z.of_nat (S attempts) * 100) w1)
                (λ i, errs (S i)) code statusText d)
      as (w' & Hrun & Hlog & Hsleeps); [lia|lia| | |].
    { intros i Hi. subst w1. cbn [log_sleep net_log log_fetch set_clock length].
      replace (S (length (net_log w)) + i)%nat with (length (net_log w) + S i)%nat by lia.
      apply Hthrows. lia. }
    { subst w1. cbn [log_sleep net_log log_fetch set_clock length].
      replace (S (length (net_log w)) + j)%nat with (length (net_log w) + S j)%nat by lia.
      exact Hok. }
    exists w'. rewrite Hrun. split; [done|]. split.
    + rewrite Hlog. subst w1. cbn [log_sleep net_log log_fetch set_clock].
      apply replicate_app_cons.
    + rewrite Hsleeps. subst w1. cbn [log_sleep sleeps log_fetch set_clock].
      cbn [seq map rev]. rewrite <- app_assoc. cbn [app].
      unfold SpecClient.backoff at 3. do 2 f_equal. lia.
Qed.

End RetryOutcome.


(** When the first [j] attempts of a request throw and the next one is
    answered, with [j] below the three attempts of the Data Client, the
    request returns that answer after exactly [j + 1] attempts, having slept
    the backoff delays of the failed attempts [1..j] (200 ms, 400 ms). *)
Theorem request_returns_the_first_good_answer
    (E : Env) {T : Type} (oracle : nat → HttpRequest → FetchOutcome T)
    (endpoint : string) (params : list (string * option string)) (w : World)
    (j : nat) (errs : nat → Exn) (code : Z) (statusText : string)
    (d : KraxelResponse T) :
  let rq := SpecClient.request_of DEFAULT_CONFIG endpoint params in
  (j < 3)%nat →
  (∀ i, (i < j)%nat →
     SpecClient.attempt_throws (oracle (length (net_log w) + i)%nat rq) (errs i)) →
  oracle (length (net_log w) + j)%nat rq = HttpResponse true code statusText (Ok d) →
  ∃ w',
    request E DEFAULT_CONFIG oracle endpoint params w = (Ok d, w')
    ∧ net_log w' = replicate (S j) rq ++ net_log w
    ∧ sleeps w' = rev (map SpecClient.backoff (seq 1 j)) ++ sleeps w.
Proof.
  intros rq Hj Hthrows Hok.
  apply (request_loop_first_success E DEFAULT_CONFIG oracle rq j 3 0 w errs
           code statusText d); [done|done|done|done].
Qed.

Lemma request_returns_the_first_good_answer_witness :
  ∃ w',
    getRecentSwaps Demo.env_flaky 100 Demo.w0
    = (Ok {| status := "success";
             data := Some [Demo.swap1; Demo.swap2; Demo.swap3; Demo.swapThrough;
                           Demo.swapUnparsed] |}, w')
    ∧ length (net_log w') = 2%nat
    ∧ sleeps w' = [200].
Proof.
  destruct (request_returns_the_first_good_answer Demo.env_flaky
              (fetch_txs Demo.env_flaky) "/swaps" [("limit", Some (pretty 100))]
              Demo.w0 1 (λ _, JsError "fetch failed") 200 "OK"
              {| status := "success";
                 data := Some [Demo.swap1; Demo.swap2; Demo.swap3; Demo.swapThrough;
                               Demo.swapUnparsed] |})
    as (w' & Hrun & Hlog & Hsleeps).
  { lia. }
  { intros i Hi. assert (i = 0%nat) as -> by lia. constructor. }
  { reflexivity. }
  exists w'. split; [exact Hrun|]. split; [by rewrite Hlog|exact Hsleeps].
Defined.

(** ** Combinators: what composition gives *)

Lemma and_result_needs_matches_on_both_sides (l r : ValidationResult) :
  matches l = [] ∨ matches r = [] →
  satisfied (combinators.and_result l r) = false
  ∧ matches (combinators.and_result l r) = [].
Proof.
  intros Hempty. unfold combinators.and_result. cbn [satisfied matches].
  assert (List.filter
            (λ leftMatch, existsb (λ rightMatch, combinators.pairs leftMatch rightMatch)
                            (matches r)) (matches l) = []) as ->.
  { destruct Hempty as [-> | ->]; [done|].
    induction (matches l) as [|t ts IH]; [done|]. cbn. exact IH. }
  cbn. by rewrite andb_false_r.
Qed.

(** The AND of two queries has no match and is not satisfied as soon as
    one operand comes back without matches, even when both operands are
    satisfied.  A negated operand never has matches, so an AND with a NOT on
    either side is never satisfied, whatever the queries answer. *)
Theorem and_with_a_negated_operand_is_never_satisfied
    (A B : ValidationQuery) (w w1 w2 : World) (a b : ValidationResult) :
  execute A w = (Ok a, w1) →
  execute B w1 = (Ok b, w2) →
  (matches a = [] ∨ matches b = [] →
   ∃ res, execute (combinators.and A B) w = (Ok res, w2)
          ∧ satisfied res = false ∧ matches res = [])
  ∧ (∃ res, execute (combinators.and (combinators.not A) B) w = (Ok res, w2)
            ∧ satisfied res = false ∧ matches res = [])
  ∧ (∃ res, execute (combinators.and A (combinators.not B)) w = (Ok res, w2)
            ∧ satisfied res = false ∧ matches res = []).
Proof.
  intros HA HB. split; [|split].
  - intros Hempty. eexists. split.
    { cbn. unfold bind. by rewrite (Promise_all2_ok _ _ _ _ _ _ _ HA HB). }
    by apply and_result_needs_matches_on_both_sides.
  - eexists. split.
    { cbn. unfold bind at 1.
      erewrite Promise_all2_ok; [done| |exact HB]. unfold bind. by rewrite HA. }
    apply and_result_needs_matches_on_both_sides. by left.
  - eexists. split.
    { cbn. unfold bind at 1.
      erewrite Promise_all2_ok; [done|exact HA|]. unfold bind. by rewrite HB. }
    apply and_result_needs_matches_on_both_sides. by right.
Qed.

Lemma and_with_a_negated_operand_is_never_satisfied_witness :
  ∃ res,
    execute (combinators.and
               (combinators.not (Demo.constant {| satisfied := false; matches := [];
                                                  metadata := None |}))
               (Demo.constant (Demo.result_of [Demo.txA]))) Demo.w0
    = (Ok res, Demo.w0)
    ∧ satisfied res = false ∧ matches res = [].
Proof.
  apply (and_with_a_negated_operand_is_never_satisfied
           (Demo.constant {| satisfied := false; matches := []; metadata := None |})
           (Demo.constant (Demo.result_of [Demo.txA]))
           Demo.w0 Demo.w0 Demo.w0
           {| satisfied := false; matches := []; metadata := None |}
           (Demo.result_of [Demo.txA])); reflexivity.
Defined.

Lemma addUniqueMatches_fresh ms : ∀ (seen : gset string) acc,
  NoDup (map tx_id ms) →
  (∀ x, x ∈ map tx_id ms → x ≠ "" ∧ x ∉ seen) →
  combinators.addUniqueMatches ms (seen, acc)
  = (list_to_set (map tx_id ms) ∪ seen, acc ++ ms).
Proof.
  unfold combinators.addUniqueMatches.
  induction ms as [|m ms IH]; intros seen acc Hnodup Hnew.
  { cbn. f_equal; [set_solver|by rewrite app_nil_r]. }
  cbn [fold_left fst snd].
  apply NoDup_cons in Hnodup as [Hm Hnodup].
  destruct (Hnew (tx_id m)) as [Hid Hseen]; [cbn; set_solver|].
  apply truthy_spec in Hid. rewrite Hid. rewrite bool_decide_false by done.
  cbn [negb andb]. rewrite IH; [|done|].
  - f_equal; [cbn; set_solver|]. by rewrite <- app_assoc.
  - intros x Hx. destruct (Hnew x) as [Hx1 Hx2]; [cbn; set_solver|].
    split; [done|]. set_solver.
Qed.

Lemma addUniqueMatches_seen ms : ∀ (seen : gset string) acc,
  (∀ x, x ∈ map tx_id ms → x = "" ∨ x ∈ seen) →
  combinators.addUniqueMatches ms (seen, acc) = (seen, acc).
Proof.
  unfold combinators.addUniqueMatches.
  induction ms as [|m ms IH]; intros seen acc Hold; [done|].
  cbn [fold_left fst snd].
  assert (Js.truthy (tx_id m) && negb (bool_decide (tx_id m ∈ seen)) = false) as ->.
  { destruct (Hold (tx_id m)) as [Hid | Hid]; [cbn; set_solver| |].
    - rewrite Hid. done.
    - rewrite bool_decide_true by done. by rewrite andb_false_r. }
  apply IH. intros x Hx. apply Hold. cbn. set_solver.
Qed.

Lemma or_result_of_distinct_ids (l r : ValidationResult) :
  NoDup (map tx_id (matches l)) → "" ∉ map tx_id (matches l) →
  (∀ x, x ∈ map tx_id (matches r) → x = "" ∨ x ∈ map tx_id (matches l)) →
  matches (combinators.or_result l r) = matches l.
Proof.
  intros Hnodup Hids Hsub. unfold combinators.or_result. cbn [matches].
  rewrite addUniqueMatches_fresh; [|done|].
  2:{ intros x Hx. split; [by intros ->|set_solver]. }
  rewrite addUniqueMatches_seen; [done|].
  intros x Hx. destruct (Hsub x Hx) as [->|Hl]; [by left|right].
  apply elem_of_union_l. by apply elem_of_list_to_set.
Qed.

Lemma or_result_ids (l r : ValidationResult) :
  NoDup (map tx_id (matches (combinators.or_result l r)))
  ∧ "" ∉ map tx_id (matches (combinators.or_result l r)).
Proof.
  pose proof (addUniqueMatches_invariant (matches l) [] (∅, []) unique_upto_start) as Hl.
  pose proof (addUniqueMatches_invariant (matches r) _ _ Hl) as Hr.
  destruct Hr as [Hseen Hkept Hnodup _ _]. cbn [app] in *.
  unfold combinators.or_result. cbn [matches]. split; [done|].
  intros Hin. apply Hkept, Hseen in Hin. by destruct Hin.
Qed.

(** OR adds nothing that is already matched.  The matches of an OR carry
    pairwise distinct, non-empty [tx_id]s.  When the left operand's matches
    already do, and the right operand brings no [tx_id] that the left one
    lacks, the OR returns the left operand's matches as they are; so the OR
    of a query with a query of the same matches, or with one that matches
    nothing, changes nothing.  When the left operand matches nothing, the
    OR returns the right operand's matches, if their [tx_id]s are distinct
    and non-empty. *)
Theorem or_adds_nothing_already_matched
    (L R : ValidationQuery) (w w1 w2 : World) (l r : ValidationResult) :
  execute L w = (Ok l, w1) →
  execute R w1 = (Ok r, w2) →
  ∃ res,
    execute (combinators.or L R) w = (Ok res, w2)
    ∧ satisfied res = satisfied l || satisfied r
    ∧ NoDup (map tx_id (matches res))
    ∧ ("" ∉ map tx_id (matches res))
    ∧ (NoDup (map tx_id (matches l)) → "" ∉ map tx_id (matches l) →
       (∀ x, x ∈ map tx_id (matches r) → x = "" ∨ x ∈ map tx_id (matches l)) →
       matches res = matches l)
    ∧ (matches l = [] → NoDup (map tx_id (matches r)) → "" ∉ map tx_id (matches r) →
       matches res = matches r).
Proof.
  intros HL HR. exists (combinators.or_result l r).
  split. { cbn. unfold bind. by rewrite (Promise_all2_ok _ _ _ _ _ _ _ HL HR). }
  split; [done|].
  destruct (or_result_ids l r) as [Hnodup Hids].
  split; [done|]. split; [done|]. split.
  - apply or_result_of_distinct_ids.
  - intros Hl Hnodupr Hidsr. unfold combinators.or_result. cbn [matches]. rewrite Hl.
    change (combinators.addUniqueMatches [] (∅, [])) with
      ((∅ : gset string), @nil Transaction).
    rewrite addUniqueMatches_fresh; [done|done|].
    intros x Hx. split; [by intros ->|set_solver].
Qed.

Lemma or_adds_nothing_already_matched_witness :
  ∃ res,
    execute (combinators.or (Demo.constant (Demo.result_of [Demo.txA; Demo.txB]))
               (Demo.constant (Demo.result_of [Demo.txB; Demo.txNoId; Demo.txA])))
      Demo.w0
    = (Ok res, Demo.w0)
    ∧ matches res = [Demo.txA; Demo.txB].
Proof.
  destruct (or_adds_nothing_already_matched
              (Demo.constant (Demo.result_of [Demo.txA; Demo.txB]))
              (Demo.constant (Demo.result_of [Demo.txB; Demo.txNoId; Demo.txA]))
              Demo.w0 Demo.w0 Demo.w0
              (Demo.result_of [Demo.txA; Demo.txB])
              (Demo.result_of [Demo.txB; Demo.txNoId; Demo.txA]) eq_refl eq_refl)
    as (res & Hrun & _ & _ & _ & Hsame & _).
  exists res. split; [exact Hrun|]. apply Hsame.
  - vm_compute. repeat constructor; set_solver.
  - vm_compute. set_solver.
  - intros x Hx. vm_compute in Hx. vm_compute. set_solver.
Defined.

(** ** [holdsToken]: the first variant with a transfer *)

Lemma holdsToken_loop_probes (E : Env) (userAddress : string) variants :
  ∀ w,
    ∃ outcome,
      SpecHold.probes E userAddress variants w outcome
        (snd (holdsToken_loop E userAddress variants w))
      ∧ fst (holdsToken_loop E userAddress variants w)
        = match outcome with
          | Ok (Some (variant, transfers)) =>
              Ok (Some {| satisfied := true; matches := transfers;
                          metadata := Some (MetaHolds userAddress variant
                                              (length transfers)) |})
          | Ok None => Ok None
          | Throw e => Throw e
          end.
Proof.
  induction variants as [|variant rest IH]; intros w.
  { exists (Ok None). split; [constructor|done]. }
  cbn [holdsToken_loop]. unfold bind.
  destruct (getTokenTransfers E userAddress variant 100 w)
    as [[resp|e] w'] eqn:Hfetch.
  2:{ exists (Throw e). split; [by constructor|done]. }
  destruct (data resp) as [transfers|] eqn:Hdata.
  - destruct transfers as [|t transfers]; cbn [length Nat.ltb Nat.leb].
    { destruct (IH w') as (outcome & Hprobes & Hout). exists outcome.
      split; [|done]. eapply SpecHold.probes_miss; [done|by rewrite Hdata|done]. }
    change (0 <? S (length transfers))%nat with true. cbv iota.
    exists (Ok (Some (variant, t :: transfers))).
    split; [by eapply SpecHold.probes_hit|done].
  - destruct (IH w') as (outcome & Hprobes & Hout). exists outcome.
    split; [|done]. eapply SpecHold.probes_miss; [done|by rewrite Hdata|done].
Qed.

Lemma probes_functional (E : Env) userAddress variants w out1 w1 out2 w2 :
  SpecHold.probes E userAddress variants w out1 w1 →
  SpecHold.probes E userAddress variants w out2 w2 →
  out1 = out2 ∧ w1 = w2.
Proof.
  intros Hone. revert out2 w2.
  induction Hone as [w|variant rest w e w' Hfetch
                     |variant rest w resp w' transfers Hfetch Hdata Hsome
                     |variant rest w resp w' out w'' Hfetch Hmiss Hone IH];
    intros out2 w2 Htwo; inversion Htwo; subst; try done;
    match goal with
    | H : getTokenTransfers _ _ _ _ _ = _ |- _ => rewrite Hfetch in H; injection H as ? ?
    end; subst; try done;
    try (split; [repeat f_equal; congruence|done]);
    try (exfalso;
         match goal with
         | Hd : data _ = Some ?t, Hm : default [] (data _) = [] |- _ =>
             rewrite Hd in Hm; cbn in Hm; done
         end).
  by apply IH.
Qed.

Lemma probes_found_transfers (E : Env) userAddress variants w variant transfers w' :
  SpecHold.probes E userAddress variants w (Ok (Some (variant, transfers))) w' →
  variant ∈ variants ∧ transfers ≠ [].
Proof.
  intros Hprobes. remember (Ok (Some (variant, transfers))) as out eqn:Hout.
  induction Hprobes as [w|v rest w e w' Hfetch
                        |v rest w resp w' ts Hfetch Hdata Hsome
                        |v rest w resp w' out w'' Hfetch Hmiss Hprobes IH]; try done.
  - injection Hout as -> ->. split; [by left|done].
  - destruct (IH Hout) as [Hin Hne]. split; [by right|done].
Qed.

(** [holdsToken] always resolves.  It asks for the address's transfers of
    each token variant in turn and stops at the first variant for which the
    upstream returns at least one transfer: it is then satisfied, its
    matches are all the transfers returned for that variant (direction and
    amount are not looked at) and its metadata names the variant.  When no
    variant has a transfer it is unsatisfied with reason [No transfers
    found]; when a fetch fails it comes back as the empty result.  The
    fetches made are those of the probes, and no others. *)
Theorem holdsToken_reports_the_first_variant_with_transfers
    (E : Env) (userAddress tokenPrincipal : string) (w : World) :
  ∃ outcome w',
    SpecHold.probes E userAddress (normalizeTokenPrincipal tokenPrincipal) w outcome w'
    ∧ execute (holdsToken E userAddress tokenPrincipal) w
      = (Ok (SpecHold.result_of userAddress tokenPrincipal outcome), w')
    ∧ (∀ outcome' w'',
         SpecHold.probes E userAddress (normalizeTokenPrincipal tokenPrincipal) w
           outcome' w'' →
         outcome' = outcome ∧ w'' = w')
    ∧ satisfied (SpecHold.result_of userAddress tokenPrincipal outcome)
      = bool_decide (matches (SpecHold.result_of userAddress tokenPrincipal outcome) ≠ []).
Proof.
  destruct (holdsToken_loop_probes E userAddress
              (normalizeTokenPrincipal tokenPrincipal) w) as (outcome & Hprobes & Hout).
  exists outcome, (snd (holdsToken_loop E userAddress
                          (normalizeTokenPrincipal tokenPrincipal) w)).
  split; [done|]. split; [|split].
  - unfold holdsToken, createBaseValidator, try_catch; cbn [execute].
    unfold holdsToken_body, bind.
    destruct (holdsToken_loop E userAddress (normalizeTokenPrincipal tokenPrincipal) w)
      as [res w']; cbn [fst snd] in *. subst res.
    by destruct outcome as [[[variant transfers]|]|e].
  - intros outcome' w'' Hprobes'.
    by destruct (probes_functional _ _ _ _ _ _ _ _ Hprobes Hprobes').
  - destruct outcome as [[[variant transfers]|]|e]; cbn; [|done|done].
    rewrite bool_decide_true; [done|].
    by destruct (probes_found_transfers _ _ _ _ _ _ _ Hprobes).
Qed.

(** ** Upstream load: attempts and backoff are bounded *)

Ltac world_simpl :=
  cbn [snd fst ret throw Date_now net_log sleeps clock db_ops quests validations
       vresults count_db_op set_clock set_validations set_vresults log_fetch
       log_sleep] in *.

Lemma total_app (l l' : list Z) :
  SpecCost.total (l ++ l') = SpecCost.total l + SpecCost.total l'.
Proof. unfold SpecCost.total. induction l as [|x l IH]; cbn; lia. Qed.

Lemma within_weaken {A} (a a' : nat) (s s' : Z) (m : M A) :
  SpecCost.within a s m → (a ≤ a')%nat → s ≤ s' → SpecCost.within a' s' m.
Proof. intros Hm Ha Hs w. destruct (Hm w). split; lia. Qed.

Lemma within_ret {A} (x : A) : SpecCost.within 0 0 (ret x).
Proof. intros w. world_simpl. lia. Qed.

Lemma within_throw {A} (e : Exn) : SpecCost.within 0 0 (@throw A e).
Proof. intros w. world_simpl. lia. Qed.

Lemma within_Date_now : SpecCost.within 0 0 Date_now.
Proof. intros w. world_simpl. lia. Qed.

Lemma within_bind {A B} (a1 a2 : nat) (s1 s2 : Z) (m : M A) (k : A → M B) :
  SpecCost.within a1 s1 m → (∀ x, SpecCost.within a2 s2 (k x)) → 0 ≤ s2 →
  SpecCost.within (a1 + a2) (s1 + s2) (bind m k).
Proof.
  intros Hm Hk Hs w. unfold bind. destruct (Hm w) as [Ha1 Hs1].
  destruct (m w) as [[x|e] w1]; cbn [snd] in *; [|lia].
  destruct (Hk x w1). lia.
Qed.

Lemma within_try_catch {A} (a1 a2 : nat) (s1 s2 : Z) (m : M A) (h : Exn → M A) :
  SpecCost.within a1 s1 m → (∀ e, SpecCost.within a2 s2 (h e)) → 0 ≤ s2 →
  SpecCost.within (a1 + a2) (s1 + s2) (try_catch m h).
Proof.
  intros Hm Hh Hs w. unfold try_catch. destruct (Hm w) as [Ha1 Hs1].
  destruct (m w) as [[x|e] w1]; cbn [snd] in *; [lia|].
  destruct (Hh e w1). lia.
Qed.

Lemma within_forEachM {A} (a : nat) (s : Z) (f : A → M unit) (xs : list A) :
  (∀ x, SpecCost.within a s (f x)) → 0 ≤ s →
  SpecCost.within (length xs * a) (Z.of_nat (length xs) * s) (forEachM f xs).
Proof.
  intros Hf Hs. induction xs as [|x xs IH]; [apply within_ret|].
  cbn [forEachM length]. 
  eapply within_weaken; [apply (within_bind _ _ _ _ _ _ (Hf x) (λ _, IH))| |]; nia.
Qed.

Section Load.

Variable E : Env.

Lemma within_request {T} (oracle : nat → HttpRequest → FetchOutcome T) endpoint params :
  SpecCost.within 3 600 (request E DEFAULT_CONFIG oracle endpoint params).
Proof.
  intros w. unfold request. change (maxRetries DEFAULT_CONFIG) with 3%nat.
  destruct (request_loop_attempts E DEFAULT_CONFIG oracle
              (SpecClient.request_of DEFAULT_CONFIG endpoint params) 3 0 w eq_refl)
    as (k & Hk & _ & Hnet & Hsleeps & _).
  unfold SpecClient.request_of in *. rewrite Hnet, Hsleeps.
  rewrite length_app, length_replicate. split; [lia|].
  assert (k = 0 ∨ k = 1 ∨ k = 2 ∨ k = 3)%nat as Hcases by lia.
  rewrite total_app.
  assert (SpecCost.total (rev (map SpecClient.backoff (seq 1 (k - 1)))) ≤ 600)
    as Hsum; [|lia].
  destruct Hcases as [Hk0|[Hk0|[Hk0|Hk0]]]; subst k; by vm_compute.
Qed.

Lemma within_db_op {A} (body : M A) :
  SpecCost.within 0 0 body → SpecCost.within 0 0 (db_op E body).
Proof.
  intros Hbody w. unfold db_op. destruct (db_fault E (db_ops w)); [world_simpl; lia|].
  destruct (Hbody (count_db_op (set_clock (clock w + latency E (ticks w)) w))).
  world_simpl. lia.
Qed.

Lemma within_toISOString ms : SpecCost.within 0 0 (toISOString E ms).
Proof. unfold toISOString. destruct (Js.validTime ms); [apply within_ret|apply within_throw]. Qed.

Lemma normalizeTokenPrincipal_length tokenPrincipal :
  (length (normalizeTokenPrincipal tokenPrincipal) ≤ 2)%nat.
Proof. unfold normalizeTokenPrincipal. destruct (Js.includes _ _); cbn; lia. Qed.

Lemma within_swappedFor_loop startDate endDate variants : ∀ acc,
  SpecCost.within (length variants * 3) (Z.of_nat (length variants) * 600)
    (swappedFor_loop E startDate endDate variants acc).
Proof.
  induction variants as [|variant rest IH]; intros acc; [apply within_ret|].
  cbn [swappedFor_loop length].
  eapply within_weaken.
  - apply (within_bind 3 (length rest * 3) 600 (Z.of_nat (length rest) * 600));
      [apply within_request| |lia].
    intros swaps. destruct (data swaps) as [swapData|]; [|apply IH].
    destruct (0 <? length swapData)%nat; [|apply IH].
    destruct (0 <? length (List.filter (lastLegBuys variant) swapData))%nat; [|apply IH].
    eapply within_weaken; [apply within_ret|lia|lia].
  - lia.
  - lia.
Qed.

Lemma within_swappedFor tokenPrincipal startTime endTime :
  SpecCost.within 6 1200 (execute (swappedFor E tokenPrincipal startTime endTime)).
Proof.
  unfold swappedFor, createBaseValidator; cbn [execute].
  apply (within_try_catch 6 0 1200 0); [|intros; apply within_ret|lia].
  unfold swappedFor_body.
  apply (within_bind 0 6 0 1200); [apply within_Date_now| |lia]. intros clk.
  apply (within_bind 0 6 0 1200); [apply within_toISOString| |lia]. intros startDate.
  apply (within_bind 0 6 0 1200); [apply within_toISOString| |lia]. intros endDate.
  apply (within_bind 6 0 1200 0); [|intros; apply within_ret|lia].
  pose proof (normalizeTokenPrincipal_length tokenPrincipal).
  eapply within_weaken; [apply within_swappedFor_loop|lia|lia].
Qed.

Lemma within_recentSwaps : SpecCost.within 3 600 (recentSwaps E).
Proof.
  unfold recentSwaps.
  apply (within_bind 3 0 600 0); [apply within_request|intros; apply within_ret|lia].
Qed.

Lemma within_minValueSwap (a : nat) (s : Z) minValueUsd getTransactions :
  SpecCost.within a s getTransactions →
  SpecCost.within (a + 3) (s + 600)
    (execute (minValueSwap E minValueUsd getTransactions)).
Proof.
  intros Hget. unfold minValueSwap, createBaseValidator; cbn [execute].
  eapply within_weaken;
    [apply (within_try_catch (a + 3) 0 (s + 600) 0); [|intros; apply within_ret|lia]
    |lia|lia].
  unfold minValueSwap_body.
  apply (within_bind a 3 s 600); [done| |lia]. intros transactions.
  apply (within_bind 3 0 600 0); [apply within_request|intros; apply within_ret|lia].
Qed.

Lemma within_firstNBuyers tokenPrincipal n minValueUsd startTime :
  SpecCost.within 9 1800
    (execute (firstNBuyers E tokenPrincipal n minValueUsd startTime)).
Proof.
  unfold firstNBuyers, createBaseValidator; cbn [execute].
  apply (within_try_catch 9 0 1800 0); [|intros; apply within_ret|lia].
  unfold firstNBuyers_body.
  apply (within_bind 6 3 1200 600); [apply within_swappedFor| |lia]. intros swapResult.
  destruct (negb (satisfied swapResult)).
  { eapply within_weaken; [apply within_ret|lia|lia]. }
  destruct (Js.gt minValueUsd PrimFloat.zero).
  - apply (within_bind 3 0 600 0); [|intros valueResult|lia].
    + apply (within_minValueSwap 0 0). apply within_ret.
    + destruct (negb (satisfied valueResult)); apply within_ret.
  - eapply within_weaken; [apply within_ret|lia|lia].
Qed.

Lemma within_holdsToken_loop userAddress variants :
  SpecCost.within (length variants * 3) (Z.of_nat (length variants) * 600)
    (holdsToken_loop E userAddress variants).
Proof.
  induction variants as [|variant rest IH]; [apply within_ret|].
  cbn [holdsToken_loop length].
  eapply within_weaken.
  - apply (within_bind 3 (length rest * 3) 600 (Z.of_nat (length rest) * 600));
      [apply within_request| |lia].
    intros transfers. destruct (data transfers) as [transferData|]; [|apply IH].
    destruct (0 <? length transferData)%nat; [|apply IH].
    eapply within_weaken; [apply within_ret|lia|lia].
  - lia.
  - lia.
Qed.

Lemma within_holdsToken userAddress tokenPrincipal :
  SpecCost.within 6 1200 (execute (holdsToken E userAddress tokenPrincipal)).
Proof.
  unfold holdsToken, createBaseValidator; cbn [execute].
  apply (within_try_catch 6 0 1200 0); [|intros; apply within_ret|lia].
  unfold holdsToken_body.
  apply (within_bind 6 0 1200 0); [|intros [r|]; apply within_ret|lia].
  pose proof (normalizeTokenPrincipal_length tokenPrincipal).
  eapply within_weaken; [apply within_holdsToken_loop|lia|lia].
Qed.

Lemma within_createQuestValidationResult validationId userAddress valid resultData
    criteriaType :
  SpecCost.within 0 0
    (createQuestValidationResult E validationId userAddress valid resultData criteriaType).
Proof.
  intros w. unfold createQuestValidationResult.
  apply (within_db_op (λ w1, (Ok tt, set_vresults _ w1))). intros w1. world_simpl. lia.
Qed.

Lemma within_updateQuestValidation id st errorMessage addrs processingTime next :
  SpecCost.within 0 0
    (updateQuestValidation E id st errorMessage addrs processingTime next).
Proof.
  unfold updateQuestValidation. apply within_db_op. intros w1. world_simpl. lia.
Qed.

Lemma within_runValidator (a : nat) (s : Z) validationId criteriaType validator :
  SpecCost.within a s (execute validator) →
  SpecCost.within a s (runValidator E validationId criteriaType validator).
Proof.
  intros Hv. unfold runValidator.
  eapply within_weaken; [apply (within_bind a 0 s 0); [done| |lia]|lia|lia].
  intros validationResult.
  apply (within_bind 0 0 0 0); [|intros; apply within_ret|lia].
  eapply within_weaken;
    [apply (within_forEachM 0 0); [|lia]|lia|lia].
  intros x. apply within_createQuestValidationResult.
Qed.

Lemma within_dispatch validationId criteria :
  SpecCost.within 9 1800 (dispatch E validationId criteria).
Proof.
  unfold dispatch.
  destruct (String.eqb (ctype criteria) "swappedFor").
  { apply within_runValidator.
    eapply within_weaken; [apply within_swappedFor|lia|lia]. }
  destruct (String.eqb (ctype criteria) "firstNBuyers").
  { apply within_runValidator. apply within_firstNBuyers. }
  destruct (String.eqb (ctype criteria) "minValueSwap").
  { apply within_runValidator.
    eapply within_weaken;
      [apply (within_minValueSwap 3 600); apply within_recentSwaps|lia|lia]. }
  destruct (String.eqb (ctype criteria) "holdsToken").
  { apply within_runValidator.
    eapply within_weaken; [apply within_holdsToken|lia|lia]. }
  eapply within_weaken; [apply within_throw|lia|lia].
Qed.

Lemma within_validateNow quest : SpecCost.within 9 1800 (validateNow E quest).
Proof.
  unfold validateNow.
  apply (within_bind 0 9 0 1800); [apply within_Date_now| |lia]. intros startTime.
  apply (within_try_catch 9 0 1800 0); [|intros; apply within_ret|lia].
  apply (within_bind 0 9 0 1800); [| |lia].
  { intros w. unfold createQuestValidation.
    apply (within_db_op (λ w1, (Ok [_], set_validations _ w1))). intros w1. world_simpl. lia. }
  intros [|validation rest].
  { eapply within_weaken; [apply within_throw|lia|lia]. }
  apply (within_try_catch 9 0 1800 0); [| |lia].
  - unfold evaluate.
    apply (within_bind 9 0 1800 0); [apply within_dispatch| |lia]. intros outcome.
    apply (within_bind 0 0 0 0); [apply within_Date_now| |lia]. intros now.
    apply (within_bind 0 0 0 0); [apply within_Date_now| |lia]. intros finished.
    apply within_updateQuestValidation.
  - intros error. unfold recordError.
    apply (within_bind 0 0 0 0); [apply within_Date_now| |lia]. intros now.
    apply (within_bind 0 0 0 0); [apply within_Date_now| |lia]. intros finished.
    apply within_updateQuestValidation.
Qed.

Lemma within_validateSingleQuest quest :
  SpecCost.within 9 1800 (validateSingleQuest E quest).
Proof.
  unfold validateSingleQuest.
  apply (within_bind 0 9 0 1800); [| |lia].
  { intros w. unfold getLatestQuestValidation.
    apply (within_db_op (λ w1, (Ok (latestOf E _ (validations w1) (db_ops w)), w1))).
    intros w1. world_simpl. lia. }
  intros lastValidation.
  apply (within_bind 0 9 0 1800); [apply within_Date_now| |lia]. intros now.
  destruct lastValidation as [last|]; [|apply within_validateNow].
  destruct (v_nextValidationAt last) as [next|]; [|apply within_validateNow].
  destruct (now <? next); [|apply within_validateNow].
  eapply within_weaken; [apply within_ret|lia|lia].
Qed.

End Load.

(** The upstream load of the validators is bounded whatever the
    upstream answers: [swappedFor] and [holdsToken] make at most 6 fetch
    attempts (two token variants, three attempts each) and sleep at most
    1200 ms in backoff; [minValueSwap] over the recent swaps makes at most 6
    attempts; [firstNBuyers] at most 9, with at most 1800 ms of backoff. *)
Theorem primitives_make_a_bounded_number_of_attempts (E : Env) :
  (∀ tokenPrincipal startTime endTime,
     SpecCost.within 6 1200 (execute (swappedFor E tokenPrincipal startTime endTime)))
  ∧ (∀ userAddress tokenPrincipal,
       SpecCost.within 6 1200 (execute (holdsToken E userAddress tokenPrincipal)))
  ∧ (∀ minValueUsd,
       SpecCost.within 6 1200 (execute (minValueSwap E minValueUsd (recentSwaps E))))
  ∧ (∀ tokenPrincipal n minValueUsd startTime,
       SpecCost.within 9 1800
         (execute (firstNBuyers E tokenPrincipal n minValueUsd startTime))).
Proof.
  split; [apply within_swappedFor|]. split; [apply within_holdsToken|].
  split; [|apply within_firstNBuyers].
  intros minValueUsd. apply (within_minValueSwap E 3 600). apply within_recentSwaps.
Qed.

(** One quest validation makes at most 9 fetch attempts and sleeps at
    most 1800 ms in backoff, whatever the criteria, the upstream and the
    store do; a sweep makes at most 9 attempts and sleeps at most 1800 ms per
    active quest. *)
Theorem sweep_load_is_bounded_per_active_quest (E : Env) (w : World) :
  let active := List.filter is_active (quests w) in
  let w' := snd (validateAllActiveQuests E w) in
  (∀ quest, SpecCost.within 9 1800 (validateSingleQuest E quest))
  ∧ (length (net_log w') ≤ length (net_log w) + length active * 9)%nat
  ∧ SpecCost.total (sleeps w')
    ≤ SpecCost.total (sleeps w) + Z.of_nat (length active) * 1800.
Proof.
  intros active w'. split; [apply within_validateSingleQuest|].
  subst w'. unfold validateAllActiveQuests, bind, getActiveQuests, db_op.
  destruct (db_fault E (db_ops w)); [world_simpl; lia|]. cbn [quests count_db_op set_clock].
  fold active.
  destruct (within_forEachM 9 1800 (validateSingleQuest E) active
              (within_validateSingleQuest E) ltac:(lia)
              (count_db_op (set_clock (clock w + latency E (ticks w)) w)))
    as [Ha Hs].
  world_simpl. lia.
Qed.

(** ** What the validators leave alone in the store *)

Section KeepsField.

Context {X : Type} (f : World → X).

Lemma keeps_field_ret {A} (a : A) : SpecStore.keeps f (ret a).
Proof. by intros w. Qed.

Lemma keeps_field_throw {A} (e : Exn) : SpecStore.keeps f (@throw A e).
Proof. by intros w. Qed.

Lemma keeps_field_Date_now : SpecStore.keeps f Date_now.
Proof. by intros w. Qed.

Lemma keeps_field_bind {A B} (m : M A) (k : A → M B) :
  SpecStore.keeps f m → (∀ a, SpecStore.keeps f (k a)) → SpecStore.keeps f (bind m k).
Proof.
  intros Hm Hk w. unfold bind. specialize (Hm w).
  destruct (m w) as [[a|e] w']; cbn [snd] in *; [|exact Hm].
  rewrite (Hk a w'). exact Hm.
Qed.

Lemma keeps_field_try_catch {A} (m : M A) (h : Exn → M A) :
  SpecStore.keeps f m → (∀ e, SpecStore.keeps f (h e)) →
  SpecStore.keeps f (try_catch m h).
Proof.
  intros Hm Hh w. unfold try_catch. specialize (Hm w).
  destruct (m w) as [[a|e] w']; cbn [snd] in *; [exact Hm|].
  rewrite (Hh e w'). exact Hm.
Qed.

Variable E : Env.

(** The field is not touched by what the network side does to the world: an
    attempt is logged and takes time, a backoff delay is slept. *)
Hypothesis f_fetch : ∀ rq w,
  f (log_fetch rq (set_clock (clock w + latency E (ticks w)) w)) = f w.
Hypothesis f_sleep : ∀ delay w, f (log_sleep delay w) = f w.

Lemma keeps_field_fetch_attempt {T} (oracle : nat → HttpRequest → FetchOutcome T) rq :
  SpecStore.keeps f (fetch_attempt E oracle rq).
Proof.
  intros w. unfold fetch_attempt.
  destruct (oracle _ rq) as [e|[|] code txt [d|e]]; apply f_fetch.
Qed.

Lemma keeps_field_request_loop {T} cfg (oracle : nat → HttpRequest → FetchOutcome T) rq :
  ∀ remaining attempts,
    SpecStore.keeps f (request_loop E cfg oracle rq remaining attempts).
Proof.
  induction remaining as [|remaining IH]; intros attempts; cbn [request_loop].
  - apply keeps_field_throw.
  - apply keeps_field_try_catch; [apply keeps_field_fetch_attempt|].
    intros e. destruct (maxRetries cfg <=? S attempts)%nat; [apply keeps_field_throw|].
    apply keeps_field_bind; [|intros _; apply IH]. intros w. apply f_sleep.
Qed.

Lemma keeps_field_request {T} cfg (oracle : nat → HttpRequest → FetchOutcome T)
    endpoint params :
  SpecStore.keeps f (request E cfg oracle endpoint params).
Proof. apply keeps_field_request_loop. Qed.

Lemma keeps_field_toISOString ms : SpecStore.keeps f (toISOString E ms).
Proof.
  unfold toISOString.
  destruct (Js.validTime ms); [apply keeps_field_ret|apply keeps_field_throw].
Qed.

Lemma keeps_field_swappedFor_loop startDate endDate variants :
  ∀ acc, SpecStore.keeps f (swappedFor_loop E startDate endDate variants acc).
Proof.
  induction variants as [|variant rest IH]; intros acc; cbn [swappedFor_loop].
  - apply keeps_field_ret.
  - apply keeps_field_bind; [apply keeps_field_request|]. intros swaps.
    destruct (data swaps) as [fetched|]; [|apply IH].
    destruct (0 <? length fetched)%nat; [|apply IH].
    destruct (0 <? length _)%nat; [apply keeps_field_ret|apply IH].
Qed.

Lemma keeps_field_swappedFor tokenPrincipal startTime endTime :
  SpecStore.keeps f (execute (swappedFor E tokenPrincipal startTime endTime)).
Proof.
  cbn [execute swappedFor createBaseValidator]. unfold swappedFor_body.
  apply keeps_field_try_catch; [|intros; apply keeps_field_ret].
  apply keeps_field_bind; [apply keeps_field_Date_now|]. intros clk.
  apply keeps_field_bind; [apply keeps_field_toISOString|]. intros startDate.
  apply keeps_field_bind; [apply keeps_field_toISOString|]. intros endDate.
  apply keeps_field_bind; [apply keeps_field_swappedFor_loop|]. intros ms.
  apply keeps_field_ret.
Qed.

Lemma keeps_field_recentSwaps : SpecStore.keeps f (recentSwaps E).
Proof.
  unfold recentSwaps.
  apply keeps_field_bind; [apply keeps_field_request|intros; apply keeps_field_ret].
Qed.

Lemma keeps_field_minValueSwap minValueUsd getTransactions :
  SpecStore.keeps f getTransactions →
  SpecStore.keeps f (execute (minValueSwap E minValueUsd getTransactions)).
Proof.
  intros Hget. cbn [execute minValueSwap createBaseValidator].
  unfold minValueSwap_body.
  apply keeps_field_try_catch; [|intros; apply keeps_field_ret].
  apply keeps_field_bind; [exact Hget|]. intros transactions.
  apply keeps_field_bind; [apply keeps_field_request|intros; apply keeps_field_ret].
Qed.

Lemma keeps_field_firstNBuyers tokenPrincipal n minValueUsd startTime :
  SpecStore.keeps f (execute (firstNBuyers E tokenPrincipal n minValueUsd startTime)).
Proof.
  cbn [execute firstNBuyers createBaseValidator]. unfold firstNBuyers_body.
  apply keeps_field_try_catch; [|intros; apply keeps_field_ret].
  apply keeps_field_bind; [apply keeps_field_swappedFor|]. intros swapResult.
  destruct (negb (satisfied swapResult)); [apply keeps_field_ret|].
  destruct (Js.gt _ _); [|apply keeps_field_ret].
  apply keeps_field_bind; [apply keeps_field_minValueSwap, keeps_field_ret|].
  intros valueResult. destruct (negb (satisfied valueResult)); apply keeps_field_ret.
Qed.

Lemma keeps_field_holdsToken_loop userAddress variants :
  SpecStore.keeps f (holdsToken_loop E userAddress variants).
Proof.
  induction variants as [|variant rest IH]; cbn [holdsToken_loop].
  - apply keeps_field_ret.
  - apply keeps_field_bind; [apply keeps_field_request|]. intros transfers.
    destruct (data transfers) as [fetched|]; [|apply IH].
    destruct (0 <? length fetched)%nat; [apply keeps_field_ret|apply IH].
Qed.

Lemma keeps_field_holdsToken userAddress tokenPrincipal :
  SpecStore.keeps f (execute (holdsToken E userAddress tokenPrincipal)).
Proof.
  cbn [execute holdsToken createBaseValidator]. unfold holdsToken_body.
  apply keeps_field_try_catch; [|intros; apply keeps_field_ret].
  apply keeps_field_bind; [apply keeps_field_holdsToken_loop|].
  intros [result|]; apply keeps_field_ret.
Qed.

Lemma keeps_field_validator_of criteria :
  SpecStore.keeps f (execute (SpecStore.validator_of E criteria)).
Proof.
  unfold SpecStore.validator_of.
  destruct (String.eqb _ _); [apply keeps_field_swappedFor|].
  destruct (String.eqb _ _); [apply keeps_field_firstNBuyers|].
  destruct (String.eqb _ _); [apply keeps_field_minValueSwap, keeps_field_recentSwaps|].
  apply keeps_field_holdsToken.
Qed.

End KeepsField.

Lemma validator_of_keeps_the_store (E : Env) criteria w :
  let w' := snd (execute (SpecStore.validator_of E criteria) w) in
  db_ops w' = db_ops w ∧ quests w' = quests w
  ∧ validations w' = validations w ∧ vresults w' = vresults w.
Proof.
  intros w'. subst w'.
  split; [|split; [|split]].
  - by apply (keeps_field_validator_of db_ops E).
  - by apply (keeps_field_validator_of quests E).
  - by apply (keeps_field_validator_of validations E).
  - by apply (keeps_field_validator_of vresults E).
Qed.

Lemma validator_of_resolves (E : Env) criteria :
  SpecFailure.resolves (SpecStore.validator_of E criteria).
Proof.
  unfold SpecStore.validator_of.
  repeat (destruct (String.eqb _ _); [apply try_catch_never_rejects|]).
  apply try_catch_never_rejects.
Qed.

Lemma dispatch_runs_validator_of (E : Env) validationId criteria :
  SpecRunner.supported (ctype criteria) →
  dispatch E validationId criteria
  = runValidator E validationId (ctype criteria) (SpecStore.validator_of E criteria).
Proof.
  intros Hsupported. destruct criteria as [criteriaType ps].
  unfold SpecRunner.supported in Hsupported. cbn [ctype] in *.
  unfold dispatch, SpecStore.validator_of. cbn [ctype params].
  repeat (apply elem_of_cons in Hsupported as [->|Hsupported];
          [vm_compute String.eqb; cbv iota; reflexivity|]).
  by apply elem_of_nil in Hsupported.
Qed.

(** ** The runner: saving the result rows *)

Section SaveRows.

Variable E : Env.
Variables (validationId : nat) (criteriaType : string).

(** The loop that saves the rows: [j] insertions succeed; then either the
    matches are exhausted or the store faults. *)
Lemma save_rows (result : ValidationResult) ms : ∀ (j : nat) w (fault : option Exn),
  (j ≤ length ms)%nat →
  (∀ i, (i < j)%nat → db_fault E (db_ops w + i)%nat = None) →
  match fault with
  | Some e => (j < length ms)%nat ∧ db_fault E (db_ops w + j)%nat = Some e
  | None => j = length ms
  end →
  ∃ w' new,
    forEachM
      (λ a, createQuestValidationResult E validationId (address a) (isValid a)
              (addr_data a) criteriaType)
      (map (λ m, {| address := user_address m;
                    isValid := true;
                    addr_data :=
                      {| rd_tx_id := tx_id m;
                         rd_block_height := block_height m;
                         rd_block_time := block_time m;
                         rd_swap_details := swap_details m;
                         rd_metadata := metadata result |} |}) ms) w
    = (match fault with Some e => Throw e | None => Ok tt end, w')
    ∧ vresults w' = vresults w ++ new
    ∧ Forall2 (SpecStore.records validationId criteriaType result) (take j ms) new
    ∧ validations w' = validations w
    ∧ net_log w' = net_log w
    ∧ sleeps w' = sleeps w
    ∧ db_ops w' = (db_ops w + j + match fault with Some _ => 1 | None => 0 end)%nat.
Proof.
  induction ms as [|m ms IH]; intros j w fault Hj Hok Hend.
  { assert (j = 0%nat) as -> by (cbn in Hj; lia).
    destruct fault as [e|]; [cbn in Hend; lia|].
    exists w, []. cbn. rewrite app_nil_r, Nat.add_0_r. do 6 (split; [done|]). lia. }
  cbn [map forEachM]. unfold bind.
  unfold createQuestValidationResult at 1, db_op. cbn [address isValid addr_data].
  destruct j as [|j].
  - destruct fault as [e|]; [|cbn in Hend; lia].
    destruct Hend as [_ Hfault]. rewrite Nat.add_0_r in Hfault. rewrite Hfault.
    eexists _, []. split; [reflexivity|]. cbn. rewrite app_nil_r.
    do 5 (split; [done|]). lia.
  - pose proof (Hok 0%nat ltac:(lia)) as Hfirst. rewrite Nat.add_0_r in Hfirst.
    rewrite Hfirst.
    match goal with |- context [forEachM _ _ ?w1] =>
      destruct (IH j w1 fault) as (w' & new & Hrun & Hres & Hrows & Hval & Hnet & Hsl & Hops)
    end.
    + cbn in Hj. lia.
    + intros i Hi. cbn [db_ops set_vresults count_db_op set_clock].
      replace (S (db_ops w) + i)%nat with (db_ops w + S i)%nat by lia. apply Hok. lia.
    + cbn [db_ops set_vresults count_db_op set_clock].
      replace (S (db_ops w) + j)%nat with (db_ops w + S j)%nat by lia.
      destruct fault; cbn in *; [destruct Hend; split; [lia|done]|lia].
    + rewrite Hrun. eexists w', (_ :: new). split; [by destruct fault|].
      split; [rewrite Hres; cbn [vresults set_vresults]; by rewrite <- app_assoc|].
      split; [cbn [take]; constructor; [done|exact Hrows]|].
      split; [by rewrite Hval|]. split; [by rewrite Hnet|]. split; [by rewrite Hsl|].
      rewrite Hops. cbn [db_ops set_vresults count_db_op set_clock]. lia.
Qed.

Lemma runValidator_saves validator w r w1 (j : nat) (fault : option Exn) :
  execute validator w = (Ok r, w1) →
  (j ≤ length (matches r))%nat →
  (∀ i, (i < j)%nat → db_fault E (db_ops w1 + i)%nat = None) →
  match fault with
  | Some e => (j < length (matches r))%nat ∧ db_fault E (db_ops w1 + j)%nat = Some e
  | None => j = length (matches r)
  end →
  ∃ w2 new,
    runValidator E validationId criteriaType validator w
    = (match fault with
       | Some e => Throw e
       | None => Ok (map user_address (matches r), satisfied r)
       end, w2)
    ∧ vresults w2 = vresults w1 ++ new
    ∧ Forall2 (SpecStore.records validationId criteriaType r) (take j (matches r)) new
    ∧ validations w2 = validations w1
    ∧ net_log w2 = net_log w1
    ∧ sleeps w2 = sleeps w1
    ∧ db_ops w2 = (db_ops w1 + j + match fault with Some _ => 1 | None => 0 end)%nat.
Proof.
  intros Hrun Hj Hok Hend.
  destruct (save_rows r (matches r) j w1 fault Hj Hok Hend)
    as (w2 & new & Hsave & Hrest).
  exists w2, new. split; [|exact Hrest].
  unfold runValidator, bind. rewrite Hrun.
  unfold processValidationResult. cbn [addresses validAddresses].
  rewrite Hsave. destruct fault; [done|]. cbn [ret].
  by rewrite map_map.
Qed.

End SaveRows.

Section Outcome.

Variable E : Env.

Lemma validateNow_records_outcome quest w addrs (ok : bool) w2 :
  SpecRunner.fresh_key w →
  db_fault E (db_ops w) = None →
  dispatch E (length (validations w)) (criteria quest)
    (snd (createQuestValidation E (quest_id quest)
            {| vd_criteria := criteria quest; vd_startTime := clock w |} w))
  = (Ok (addrs, ok), w2) →
  db_fault E (db_ops w2) = None →
  ∃ w3,
    validateNow E quest w = (Ok tt, w3)
    ∧ validations w3
      = validations w
        ++ [SpecRunner.final_row quest w (if ok then Success else Failed) None addrs
              (clock w2) (clock w2 + VALIDATION_FREQUENCY.SUCCESS)]
    ∧ vresults w3 = vresults w2
    ∧ net_log w3 = net_log w2
    ∧ sleeps w3 = sleeps w2.
Proof.
  intros Hfresh Hcreate Hdispatch Hupdate.
  unfold validateNow, bind, Date_now, try_catch.
  rewrite (createQuestValidation_ok E quest w Hcreate) in *. cbn [snd fst] in *.
  cbn [SpecRunner.pending_row v_id].
  pose proof (keeps_dispatch E (length (validations w)) (criteria quest)
                (set_validations (validations w ++ [SpecRunner.pending_row quest w])
                   (count_db_op (set_clock (clock w + latency E (ticks w)) w))))
    as Hkeep.
  rewrite Hdispatch in Hkeep. cbn [snd set_validations validations] in Hkeep.
  unfold evaluate, bind, Date_now. rewrite Hdispatch. cbn [fst snd].
  unfold updateQuestValidation, db_op. rewrite Hupdate.
  eexists. split; [reflexivity|].
  cbn [set_validations validations vresults net_log sleeps count_db_op set_clock].
  rewrite Hkeep. split; [by apply update_pending_row|done].
Qed.

Lemma validateNow_records_error quest w e w2 :
  SpecRunner.fresh_key w →
  db_fault E (db_ops w) = None →
  evaluate E (length (validations w)) (criteria quest) (clock w)
    (snd (createQuestValidation E (quest_id quest)
            {| vd_criteria := criteria quest; vd_startTime := clock w |} w))
  = (Throw e, w2) →
  db_fault E (db_ops w2) = None →
  ∃ w3,
    validateNow E quest w = (Ok tt, w3)
    ∧ validations w3
      = validations w
        ++ [SpecRunner.final_row quest w Failed (Some (SpecRunner.message_of e)) []
              (clock w2) (clock w2 + VALIDATION_FREQUENCY.ERROR)]
    ∧ vresults w3 = vresults w2
    ∧ net_log w3 = net_log w2
    ∧ sleeps w3 = sleeps w2.
Proof.
  intros Hfresh Hcreate Hthrow Hupdate.
  unfold validateNow, bind, Date_now, try_catch.
  rewrite (createQuestValidation_ok E quest w Hcreate) in *. cbn [snd fst] in *.
  cbn [SpecRunner.pending_row v_id]. rewrite Hthrow.
  pose proof (evaluate_throw_keeps E _ _ _ _ _ _ Hthrow) as Hkeep.
  cbn [set_validations validations] in Hkeep.
  unfold recordError, bind, Date_now, updateQuestValidation, db_op.
  rewrite Hupdate. eexists. split; [reflexivity|].
  cbn [set_validations validations vresults net_log sleeps count_db_op set_clock].
  rewrite Hkeep. fold (SpecRunner.message_of e).
  split; [by apply update_pending_row_error|done].
Qed.

End Outcome.

(** A validation of a quest with a supported criteria type that meets
    no store failure runs the validator built from the criteria and leaves
    (1) a validation record whose status is [success] exactly when the
    validator's result is satisfied, without error message, with the user
    addresses of all matches in match order (repeats included) and with
    [nextValidationAt] ten minutes after the evaluation finished; (2) one
    new result row per match, in match order, tagged with the validation's
    id and the criteria type and carrying the match's transaction data. *)
Theorem validation_stores_outcome_and_one_row_per_match
    (E : Env) (quest : Quest) (w : World) :
  SpecRunner.fresh_key w →
  SpecRunner.supported (ctype (criteria quest)) →
  (∀ k, db_fault E k = None) →
  ∃ r w2 w3 new finished,
    execute (SpecStore.validator_of E (criteria quest))
      (snd (createQuestValidation E (quest_id quest)
              {| vd_criteria := criteria quest; vd_startTime := clock w |} w))
    = (Ok r, w2)
    ∧ validateNow E quest w = (Ok tt, w3)
    ∧ validations w3
      = validations w
        ++ [SpecRunner.final_row quest w (if satisfied r then Success else Failed) None
              (map user_address (matches r))
              finished (finished + VALIDATION_FREQUENCY.SUCCESS)]
    ∧ vresults w3 = vresults w ++ new
    ∧ Forall2 (SpecStore.records (length (validations w)) (ctype (criteria quest)) r)
        (matches r) new
    ∧ net_log w3 = net_log w2.
Proof.
  intros Hfresh Hsupported Hstore.
  set (w1 := snd (createQuestValidation E (quest_id quest)
                    {| vd_criteria := criteria quest; vd_startTime := clock w |} w)).
  destruct (validator_of_resolves E (criteria quest) w1) as (r & w2 & Hrun).
  destruct (validator_of_keeps_the_store E (criteria quest) w1)
    as (_ & _ & _ & Hres). rewrite Hrun in Hres. cbn [snd] in Hres.
  destruct (runValidator_saves E (length (validations w)) (ctype (criteria quest))
              _ w1 r w2 (length (matches r)) None Hrun)
    as (w2' & new & Hdispatch & Hrows & Hrecords & _ & Hnet & _); [done|auto|done|].
  rewrite <- (dispatch_runs_validator_of E _ _ Hsupported) in Hdispatch.
  destruct (validateNow_records_outcome E quest w _ _ w2' Hfresh (Hstore _) Hdispatch
              (Hstore _)) as (w3 & Hnow & Hrow & Hres3 & Hnet3 & _).
  exists r, w2, w3, new, (clock w2'). split; [done|]. split; [done|].
  split; [done|]. split.
  { rewrite Hres3, Hrows, Hres. subst w1.
    by rewrite (createQuestValidation_ok E quest w (Hstore _)). }
  split; [by rewrite firstn_all in Hrecords|]. by rewrite Hnet3.
Qed.

Lemma validation_stores_outcome_and_one_row_per_match_witness :
  ∃ w3 finished,
    validateNow Demo.env_up Demo.questSwap Demo.w0 = (Ok tt, w3)
    ∧ validations w3
      = [SpecRunner.final_row Demo.questSwap Demo.w0 Success None
           ["SP1ALICE"; "SP2BOB"; "SP1ALICE"]
           finished (finished + VALIDATION_FREQUENCY.SUCCESS)]
    ∧ map r_userAddress (vresults w3) = ["SP1ALICE"; "SP2BOB"; "SP1ALICE"]
    ∧ map r_validationId (vresults w3) = [0; 0; 0]%nat.
Proof.
  destruct (validation_stores_outcome_and_one_row_per_match Demo.env_up Demo.questSwap
              Demo.w0) as (r & w2 & w3 & new & finished & Hrun & Hnow & Hrow & Hres & _).
  { by apply fresh_key_empty. }
  { unfold SpecRunner.supported. cbn. set_solver. }
  { done. }
  exists w3, finished. split; [exact Hnow|].
  vm_compute in Hrun. injection Hrun as <- <-.
  split; [exact Hrow|].
  clear Hrow Hres. vm_compute in Hnow. injection Hnow as <-. split; reflexivity.
Defined.

(** Result rows are not rolled back.  When the store accepts the
    record creation and the first [j] result rows but fails on the next
    row, and then accepts the final update, the validation ends recorded as
    [failed] with the store's error message, no valid address and the
    15-minute backoff, although the validator had [j + 1] matches or more;
    the [j] rows saved before the failure stay in the store. *)
Theorem result_rows_saved_before_a_store_failure_are_kept
    (E : Env) (quest : Quest) (w w2 : World) (r : ValidationResult)
    (j : nat) (e : Exn) :
  SpecRunner.fresh_key w →
  SpecRunner.supported (ctype (criteria quest)) →
  db_fault E (db_ops w) = None →
  execute (SpecStore.validator_of E (criteria quest))
    (snd (createQuestValidation E (quest_id quest)
            {| vd_criteria := criteria quest; vd_startTime := clock w |} w))
  = (Ok r, w2) →
  (j < length (matches r))%nat →
  (∀ i, (i < j)%nat → db_fault E (S (db_ops w) + i)%nat = None) →
  db_fault E (S (db_ops w) + j)%nat = Some e →
  db_fault E (S (S (db_ops w) + j))%nat = None →
  ∃ w3 new finished,
    validateNow E quest w = (Ok tt, w3)
    ∧ validations w3
      = validations w
        ++ [SpecRunner.final_row quest w Failed (Some (SpecRunner.message_of e)) []
              finished (finished + VALIDATION_FREQUENCY.ERROR)]
    ∧ vresults w3 = vresults w ++ new
    ∧ Forall2 (SpecStore.records (length (validations w)) (ctype (criteria quest)) r)
        (take j (matches r)) new.
Proof.
  intros Hfresh Hsupported Hcreate Hrun Hj Hok Hfault Hupdate.
  set (w1 := snd (createQuestValidation E (quest_id quest)
                    {| vd_criteria := criteria quest; vd_startTime := clock w |} w)) in *.
  assert (db_ops w1 = S (db_ops w) ∧ vresults w1 = vresults w) as [Hops1 Hres1].
  { subst w1. by rewrite (createQuestValidation_ok E quest w Hcreate). }
  destruct (validator_of_keeps_the_store E (criteria quest) w1)
    as (Hops & _ & _ & Hres). rewrite Hrun in Hops, Hres. cbn [snd] in Hops, Hres.
  destruct (runValidator_saves E (length (validations w)) (ctype (criteria quest))
              _ w1 r w2 j (Some e) Hrun)
    as (w2' & new & Hdispatch & Hrows & Hrecords & _ & _ & _ & Hops');
    [lia| |split; [done|]|].
  { intros i Hi. rewrite Hops, Hops1. by apply Hok. }
  { by rewrite Hops, Hops1. }
  rewrite <- (dispatch_runs_validator_of E _ _ Hsupported) in Hdispatch.
  destruct (validateNow_records_error E quest w e w2' Hfresh Hcreate)
    as (w3 & Hnow & Hrow & Hres3 & _).
  { fold w1. unfold evaluate, bind. by rewrite Hdispatch. }
  { rewrite Hops', Hops, Hops1.
    replace (S (db_ops w) + j + 1)%nat with (S (S (db_ops w) + j)) by lia. done. }
  exists w3, new, (clock w2'). split; [done|]. split; [done|].
  split; [by rewrite Hres3, Hrows, Hres, Hres1|done].
Qed.

Lemma result_rows_saved_before_a_store_failure_are_kept_witness :
  ∃ w3 finished,
    validateNow Demo.env_create_fault Demo.questSwap Demo.w0 = (Ok tt, w3)
    ∧ validations w3
      = [SpecRunner.final_row Demo.questSwap Demo.w0 Failed
           (Some "Connection terminated") []
           finished (finished + VALIDATION_FREQUENCY.ERROR)]
    ∧ map r_userAddress (vresults w3) = ["SP1ALICE"].
Proof.
  destruct (result_rows_saved_before_a_store_failure_are_kept Demo.env_create_fault
              Demo.questSwap Demo.w0
              (snd (execute (SpecStore.validator_of Demo.env_create_fault
                               (criteria Demo.questSwap))
                      (snd (createQuestValidation Demo.env_create_fault "quest-swap"
                              {| vd_criteria := criteria Demo.questSwap;
                                 vd_startTime := clock Demo.w0 |} Demo.w0))))
              {| satisfied := true;
                 matches := [Demo.swap2; Demo.swap3; Demo.swap1];
                 metadata := Some (MetaSwappedFor Demo.TOKEN 0%float 1700000000%float
                                     [Demo.TOKEN] 3) |}
              1 (JsError "Connection terminated"))
    as (w3 & new & finished & Hnow & Hrow & Hres & Hrecords).
  { by apply fresh_key_empty. }
  { unfold SpecRunner.supported. cbn. set_solver. }
  { reflexivity. }
  { by vm_compute. }
  { cbn. lia. }
  { intros i Hi. assert (i = 0%nat) as -> by lia. reflexivity. }
  { reflexivity. }
  { reflexivity. }
  exists w3, finished. split; [exact Hnow|]. split; [exact Hrow|].
  rewrite Hres. cbn [vresults Demo.w0 app].
  apply Forall2_cons_inv_l in Hrecords as (row & rest & Hrow1 & Hrest & ->).
  apply Forall2_nil_inv_l in Hrest as ->.
  destruct Hrow1 as (_ & Haddr & _). cbn. by rewrite Haddr.
Defined.

(** Store failures inside a validation are swallowed.  If the record
    creation fails, the validation ends at once: no record, no result row
    and no upstream call are made, and nothing postpones the quest.  If the
    evaluation throws and the store then also rejects the update that
    should record the error, the record stays as created: [pending], without
    [nextValidationAt].  In both cases the runner resolves. *)
Theorem store_failures_leave_no_record_or_a_pending_one
    (E : Env) (quest : Quest) (w : World) :
  (∀ e, db_fault E (db_ops w) = Some e →
     ∃ w',
       validateNow E quest w = (Ok tt, w')
       ∧ validations w' = validations w
       ∧ vresults w' = vresults w
       ∧ net_log w' = net_log w
       ∧ sleeps w' = sleeps w)
  ∧ (∀ e w2 e',
       db_fault E (db_ops w) = None →
       evaluate E (length (validations w)) (criteria quest) (clock w)
         (snd (createQuestValidation E (quest_id quest)
                 {| vd_criteria := criteria quest; vd_startTime := clock w |} w))
       = (Throw e, w2) →
       db_fault E (db_ops w2) = Some e' →
       ∃ w3,
         validateNow E quest w = (Ok tt, w3)
         ∧ validations w3 = validations w ++ [SpecRunner.pending_row quest w]
         ∧ v_status (SpecRunner.pending_row quest w) = Pending
         ∧ v_nextValidationAt (SpecRunner.pending_row quest w) = None).
Proof.
  split.
  - intros e Hfault. unfold validateNow, bind, Date_now, try_catch.
    unfold createQuestValidation, db_op. rewrite Hfault. eexists. done.
  - intros e w2 e' Hcreate Hthrow Hupdate.
    unfold validateNow, bind, Date_now, try_catch.
    rewrite (createQuestValidation_ok E quest w Hcreate) in *. cbn [snd fst] in *.
    cbn [SpecRunner.pending_row v_id]. rewrite Hthrow.
    pose proof (evaluate_throw_keeps E _ _ _ _ _ _ Hthrow) as Hkeep.
    cbn [set_validations validations] in Hkeep.
    unfold recordError, bind, Date_now, updateQuestValidation, db_op.
    rewrite Hupdate. eexists. split; [reflexivity|].
    cbn [set_validations validations count_db_op set_clock]. by rewrite Hkeep.
Qed.

Lemma store_failures_leave_no_record_or_a_pending_one_witness :
  (∃ w',
     validateNow Demo.env_first_fault Demo.questSwap Demo.w0 = (Ok tt, w')
     ∧ validations w' = [] ∧ vresults w' = [] ∧ net_log w' = [])
  ∧ ∃ w3,
      validateNow Demo.env_lookup_fault Demo.questOdd Demo.w0 = (Ok tt, w3)
      ∧ validations w3 = [SpecRunner.pending_row Demo.questOdd Demo.w0].
Proof.
  split.
  - destruct (store_failures_leave_no_record_or_a_pending_one
                Demo.env_first_fault Demo.questSwap Demo.w0) as [Hnone _].
    destruct (Hnone (JsError "Connection terminated") eq_refl)
      as (w' & Hnow & Hval & Hres & Hnet & _).
    exists w'. split; [exact Hnow|]. split; [exact Hval|]. split; [exact Hres|exact Hnet].
  - destruct (store_failures_leave_no_record_or_a_pending_one
                Demo.env_lookup_fault Demo.questOdd Demo.w0) as [_ Hpending].
    destruct (Hpending (JsError "Unsupported criteria type: balanceAbove")
                (snd (createQuestValidation Demo.env_lookup_fault "quest-odd"
                        {| vd_criteria := criteria Demo.questOdd;
                           vd_startTime := clock Demo.w0 |} Demo.w0))
                (JsError "Connection terminated") eq_refl eq_refl eq_refl)
      as (w3 & Hnow & Hval & _).
    exists w3. split; [exact Hnow|exact Hval].
Defined.

(** ** Worked examples *)

(** Of the four swaps the upstream reports for the token, the three whose
    last leg buys it are matched; the one that only routes through it is
    not. *)
Example swappedFor_example :
  ∃ r w',
    execute (swappedFor Demo.env_up Demo.TOKEN 0 None) Demo.w0 = (Ok r, w')
    ∧ matches r = [Demo.swap2; Demo.swap3; Demo.swap1]
    ∧ satisfied r = true
    ∧ length (net_log w') = 1%nat.
Proof. eexists _, _. split; [vm_compute; reflexivity|]. by repeat split. Qed.

Example normalizeTokenPrincipal_example :
  normalizeTokenPrincipal "  SP3.WelshCorgi "
  = ["SP3.WelshCorgi"; WELSH_TOKEN]
  ∧ normalizeTokenPrincipal Demo.TOKEN = [Demo.TOKEN].
Proof. split; reflexivity. Qed.

Example firstNBuyers_example :
  ∃ r w',
    execute (firstNBuyers Demo.env_up Demo.TOKEN 2 0 0) Demo.w0 = (Ok r, w')
    ∧ matches r = [Demo.swap1; Demo.swap3]
    ∧ satisfied r = true.
Proof. eexists _, _. split; [vm_compute; reflexivity|]. by repeat split. Qed.
